(** * otp-server: the five resilience primitives, embedded and verified

    A shallow embedding of the core of the OTP server:
    - [internal/infrastructure/circuitbreaker/circuitbreaker.go]
    - [internal/infrastructure/pool/connection_pool.go]
    - [internal/infrastructure/retry/retry.go]
    - [internal/infrastructure/redis/otp_service.go] (with [redis.go])
    - [internal/interfaces/http/middleware/rate_limiter.go]

    and of what surrounds it: the sending of a code (package
    [services], package [lib] and [handlers.go]), the application
    errors ([internal/domain/errors/errors.go]) and the order of the
    shutdown handlers ([internal/infrastructure/shutdown/shutdown.go]).

    Go [int] and [time.Duration] are 64-bit: they are [Z] with the
    wrap-around written out; a [float64] is a binary64 double whose
    operations round to nearest.  Code that runs under a mutex is one atomic
    function on the guarded record; a goroutine that blocks is a step
    that parks it and a later step that resumes it.  Logging, metrics
    and the best-effort telemetry writes change no modelled state and
    are left out. *)

From Stdlib Require Import Reals Lra.
From Stdlib Require Import ZArith Lia Bool List String Ascii DecimalString DecimalZ DecimalPos Floats.
From stdpp Require Import base option list gmap strings.

Local Open Scope Z_scope.

(** ** Go machine integers and the clock *)

Module Go.

Definition min_int : Z := - 2 ^ 63.
Definition max_int : Z := 2 ^ 63 - 1.

(** The value a 64-bit two's complement register holds after an
    arithmetic result [z]. *)
Definition wrap (z : Z) : Z := (z + 2 ^ 63) mod 2 ^ 64 - 2 ^ 63.

(** [x++] on an [int]. *)
Definition incr (x : Z) : Z := wrap (x + 1).

Definition in_int (z : Z) : Prop := min_int <= z <= max_int.

(** [time.Time] as a reading of the monotonic clock, in nanoseconds;
    the zero [time.Time{}] is reading 0. *)
Definition Time := Z.
Definition Duration := Z.

(** [Time.Sub]: the difference, saturated to the range of a Duration. *)
Definition Sub (t u : Time) : Duration :=
  Z.max min_int (Z.min max_int (t - u)).

(** [time.Since(t)], for the clock reading [now] taken inside it. *)
Definition Since (now t : Time) : Duration := Sub now t.

(** A Go [error] by the text of its [Error()]; [None] is [nil]. *)
Definition error := option string.

End Go.

(** ** Circuit breaker (circuitbreaker.go) *)

Module circuitbreaker.

Inductive State := StateClosed | StateOpen | StateHalfOpen.

#[global] Instance State_eq_dec : EqDecision State.
Proof. solve_decision. Defined.

Record Config := {
  FailureThreshold : Z;
  SuccessThreshold : Z;
  Timeout : Go.Duration;
  MaxConcurrent : Z;
  WindowSize : Go.Duration;
  MinRequestCount : Z
}.

Definition second : Z := 1000000000.
Definition minute : Z := 60 * second.

Definition DefaultConfig : Config := {|
  FailureThreshold := 5;
  SuccessThreshold := 3;
  Timeout := 30 * second;
  MaxConcurrent := 2;
  WindowSize := 1 * minute;
  MinRequestCount := 10
|}.

(** The fields guarded by [mu]; [semaphore] is the number of tokens
    in the buffered channel of capacity [MaxConcurrent], that is the
    number of half-open probes in flight. *)
Record CircuitBreaker := {
  config : Config;
  state : State;
  failures : Z;
  successes : Z;
  lastFailure : Go.Time;
  lastStateChange : Go.Time;
  semaphore : Z
}.

Definition NewCircuitBreaker (cfg : Config) : CircuitBreaker := {|
  config := cfg;
  state := StateClosed;
  failures := 0;
  successes := 0;
  lastFailure := 0;
  lastStateChange := 0;
  semaphore := 0
|}.

Definition ErrCircuitOpen : string := "circuit breaker is open".

(** [canExecute], with the clock reading of its [time.Since]. *)
Definition canExecute (now : Go.Time) (cb : CircuitBreaker) : bool :=
  match state cb with
  | StateClosed => true
  | StateOpen => Timeout (config cb) <=? Go.Since now (lastStateChange cb)
  | StateHalfOpen => true
  end.

Definition reset_counters (cb : CircuitBreaker) : CircuitBreaker :=
  {| config := config cb; state := state cb; failures := 0; successes := 0;
     lastFailure := lastFailure cb; lastStateChange := lastStateChange cb;
     semaphore := semaphore cb |}.

Definition transitionTo (newState : State) (timestamp : Go.Time)
    (cb : CircuitBreaker) : CircuitBreaker :=
  let cb1 := {| config := config cb; state := newState;
                failures := failures cb; successes := successes cb;
                lastFailure := lastFailure cb; lastStateChange := timestamp;
                semaphore := semaphore cb |} in
  if decide (newState = StateClosed) then reset_counters cb1
  else if decide (newState = StateHalfOpen) then reset_counters cb1
  else cb1.

(** [updateState]: [now] is its [time.Now()], [snow] the later reading
    taken by [time.Since] in the Open case. *)
Definition updateState (now snow : Go.Time) (cb : CircuitBreaker) : CircuitBreaker :=
  match state cb with
  | StateClosed =>
      if FailureThreshold (config cb) <=? failures cb
      then transitionTo StateOpen now cb else cb
  | StateOpen =>
      if Timeout (config cb) <=? Go.Since snow (lastStateChange cb)
      then transitionTo StateHalfOpen now cb else cb
  | StateHalfOpen =>
      if SuccessThreshold (config cb) <=? successes cb
      then transitionTo StateClosed now cb
      else if FailureThreshold (config cb) <=? failures cb
      then transitionTo StateOpen now cb else cb
  end.

Definition set_failures (f : Z) (lf : Go.Time) (cb : CircuitBreaker) : CircuitBreaker :=
  {| config := config cb; state := state cb; failures := f;
     successes := successes cb; lastFailure := lf;
     lastStateChange := lastStateChange cb; semaphore := semaphore cb |}.

Definition set_successes (s : Z) (cb : CircuitBreaker) : CircuitBreaker :=
  {| config := config cb; state := state cb; failures := failures cb;
     successes := s; lastFailure := lastFailure cb;
     lastStateChange := lastStateChange cb; semaphore := semaphore cb |}.

Definition set_semaphore (n : Z) (cb : CircuitBreaker) : CircuitBreaker :=
  {| config := config cb; state := state cb; failures := failures cb;
     successes := successes cb; lastFailure := lastFailure cb;
     lastStateChange := lastStateChange cb; semaphore := n |}.

(** [recordResult err]: [rnow] is its own [time.Now()], [unow] and
    [snow] the two readings of the [updateState] it calls. *)
Definition recordResult (rnow unow snow : Go.Time) (err : Go.error)
    (cb : CircuitBreaker) : CircuitBreaker :=
  let cb1 := match err with
             | Some _ => set_failures (Go.incr (failures cb)) rnow cb
             | None => set_successes (Go.incr (successes cb)) cb
             end in
  updateState unow snow cb1.

(** The clock readings of one [Execute], in program order, and the
    error the wrapped function returns if it is called. *)
Record Call := {
  t_can : Go.Time;
  t_record : Go.Time;
  t_update : Go.Time;
  t_since : Go.Time;
  fn_result : Go.error
}.


(** What the caller of [Execute] sees: the returned error and whether
    the wrapped function ran. *)
Record Outcome := { returned : Go.error; ran : bool }.

Definition rejected : Outcome := {| returned := Some ErrCircuitOpen; ran := false |}.

(** [Execute] run by one goroutine without interleaving: the admission
    test, the non-blocking send on the semaphore channel in the
    half-open state (it succeeds iff the buffer has room), the call,
    [recordResult], and the deferred receive that frees the slot. *)
Definition Execute (c : Call) (cb : CircuitBreaker) : Outcome * CircuitBreaker :=
  if negb (canExecute (t_can c) cb) then (rejected, cb)
  else
    match state cb with
    | StateHalfOpen =>
        if semaphore cb <? MaxConcurrent (config cb) then
          let cb1 := set_semaphore (semaphore cb + 1) cb in
          let cb2 := recordResult (t_record c) (t_update c) (t_since c) (fn_result c) cb1 in
          ({| returned := fn_result c; ran := true |},
           set_semaphore (semaphore cb2 - 1) cb2)
        else (rejected, cb)
    | _ =>
        ({| returned := fn_result c; ran := true |},
         recordResult (t_record c) (t_update c) (t_since c) (fn_result c) cb)
    end.

(** Calls made one after the other. *)
Fixpoint run (cs : list Call) (cb : CircuitBreaker) : list Outcome * CircuitBreaker :=
  match cs with
  | [] => ([], cb)
  | c :: cs' =>
      let '(o, cb1) := Execute c cb in
      let '(os, cb2) := run cs' cb1 in
      (o :: os, cb2)
  end.

(** One tick of the background [stateManager]: [updateState] and the
    reset of a stale failure count; [wnow] is the reading of the
    window test. *)
Definition stateManager_tick (now snow wnow : Go.Time) (cb : CircuitBreaker) : CircuitBreaker :=
  let cb1 := updateState now snow cb in
  match state cb1 with
  | StateClosed =>
      if (0 <? failures cb1) && (WindowSize (config cb1) <? Go.Since wnow (lastFailure cb1))
      then set_failures 0 (lastFailure cb1) cb1 else cb1
  | _ => cb1
  end.

Definition ForceOpen (now : Go.Time) (cb : CircuitBreaker) : CircuitBreaker :=
  transitionTo StateOpen now cb.

Definition ForceClose (now : Go.Time) (cb : CircuitBreaker) : CircuitBreaker :=
  transitionTo StateClosed now cb.

Definition Reset (now : Go.Time) (cb : CircuitBreaker) : CircuitBreaker :=
  transitionTo StateClosed now
    {| config := config cb; state := state cb; failures := 0; successes := 0;
       lastFailure := 0; lastStateChange := 0; semaphore := semaphore cb |}.

(** An admitted call: the wrapped function ran and its error is
    returned as it is. *)
Definition admitted (c : Call) : Outcome := {| returned := fn_result c; ran := true |}.

Definition failing (c : Call) : Prop := fn_result c <> None.
Definition succeeding (c : Call) : Prop := fn_result c = None.

(** The breaker with the outcome of [c] counted, as [recordResult]
    leaves it before it calls [updateState]. *)
Definition counted (c : Call) (cb : CircuitBreaker) : CircuitBreaker :=
  match fn_result c with
  | Some _ => set_failures (Go.incr (failures cb)) (t_record c) cb
  | None => set_successes (Go.incr (successes cb)) cb
  end.

(** What happens to a breaker over time: a call of [Execute], or a
    tick of the background [stateManager] with its clock readings. *)
Inductive Event :=
| Called (c : Call)
| Tick (now snow wnow : Go.Time).

Definition apply_event (cb : CircuitBreaker) (e : Event) : CircuitBreaker :=
  match e with
  | Called c => snd (Execute c cb)
  | Tick now snow wnow => stateManager_tick now snow wnow cb
  end.

Definition history (es : list Event) (cb : CircuitBreaker) : CircuitBreaker :=
  foldl apply_event cb es.

(** The same with what the callers see: the outcomes of the calls, in
    order, and the breaker left. *)
Fixpoint play (es : list Event) (cb : CircuitBreaker) : list Outcome * CircuitBreaker :=
  match es with
  | [] => ([], cb)
  | Called c :: es' =>
      let '(o, cb1) := Execute c cb in
      let '(os, cb2) := play es' cb1 in
      (o :: os, cb2)
  | Tick now snow wnow :: es' => play es' (stateManager_tick now snow wnow cb)
  end.

(** The calls among the events. *)
Definition calls (es : list Event) : list Call :=
  flat_map (fun e => match e with Called c => [c] | Tick _ _ _ => [] end) es.




(** The bounds the counters keep in each state. *)
Definition counters_bounded (cb : CircuitBreaker) : Prop :=
  match state cb with
  | StateClosed => 0 <= failures cb < FailureThreshold (config cb)
  | StateOpen => True
  | StateHalfOpen =>
      0 <= failures cb < FailureThreshold (config cb)
      /\ 0 <= successes cb < SuccessThreshold (config cb)
  end.

(** [CircuitBreakerManager]: the map from names to breakers.  A
    breaker is an object of the heap, named by its address. *)
Record CircuitBreakerManager := {
  circuitBreakers : gmap string nat;
  objects : gmap nat CircuitBreaker;
  next_object : nat
}.

Definition NewManager : CircuitBreakerManager :=
  {| circuitBreakers := ∅; objects := ∅; next_object := 0 |}.

Definition GetOrCreate (name : string) (cfg : Config) (m : CircuitBreakerManager)
    : nat * CircuitBreakerManager :=
  match circuitBreakers m !! name with
  | Some cb => (cb, m)
  | None =>
      let cb := next_object m in
      (cb, {| circuitBreakers := <[name := cb]> (circuitBreakers m);
              objects := <[cb := NewCircuitBreaker cfg]> (objects m);
              next_object := S cb |})
  end.

(** [Get] of the manager: the breaker and whether the name exists. *)
Definition Manager_Get (name : string) (m : CircuitBreakerManager) : option nat :=
  circuitBreakers m !! name.

Definition Remove (name : string) (m : CircuitBreakerManager) : CircuitBreakerManager :=
  {| circuitBreakers := delete name (circuitBreakers m);
     objects := objects m; next_object := next_object m |}.

(** [GetAll]: a new map with the entries of the manager's. *)
Definition GetAll (m : CircuitBreakerManager) : gmap string nat :=
  map_fold (fun k v result => <[k := v]> result) ∅ (circuitBreakers m).

End circuitbreaker.

(** ** Connection pool (connection_pool.go) *)

Module pool.

(** A [Connection] interface value: [None] is [nil], [Some i] the
    connection object with identity [i]. *)
Definition Connection := option nat.

(** A [chan Connection] of capacity 1. *)
Record Chan := { buffer : option Connection; chan_closed : bool }.

Definition make_chan : Chan := {| buffer := None; chan_closed := false |}.

(** The pool, the channels its waiters allocated (by identity, the
    next fresh one being [next_chan]) and the log of [Close()] calls
    made on connections. *)
Record ConnectionPool := {
  maxOpen : Z;
  maxIdle : Z;
  connections : list Connection;
  idle : list Connection;
  waiting : list nat;
  closed : bool;
  chans : gmap nat Chan;
  next_chan : nat;
  conn_closed : list Connection
}.

Definition NewConnectionPool (maxOpen maxIdle : Z) : ConnectionPool := {|
  maxOpen := maxOpen; maxIdle := maxIdle;
  connections := []; idle := []; waiting := []; closed := false;
  chans := ∅; next_chan := 0; conn_closed := []
|}.

Definition ErrPoolClosed : string := "connection pool is closed".

Definition len {A} (l : list A) : Z := Z.of_nat (length l).

Definition with_connections (cs : list Connection) (p : ConnectionPool) : ConnectionPool :=
  {| maxOpen := maxOpen p; maxIdle := maxIdle p; connections := cs; idle := idle p;
     waiting := waiting p; closed := closed p; chans := chans p;
     next_chan := next_chan p; conn_closed := conn_closed p |}.

Definition with_idle (cs : list Connection) (p : ConnectionPool) : ConnectionPool :=
  {| maxOpen := maxOpen p; maxIdle := maxIdle p; connections := connections p; idle := cs;
     waiting := waiting p; closed := closed p; chans := chans p;
     next_chan := next_chan p; conn_closed := conn_closed p |}.

Definition with_waiting (ws : list nat) (p : ConnectionPool) : ConnectionPool :=
  {| maxOpen := maxOpen p; maxIdle := maxIdle p; connections := connections p; idle := idle p;
     waiting := ws; closed := closed p; chans := chans p;
     next_chan := next_chan p; conn_closed := conn_closed p |}.

Definition with_chans (m : gmap nat Chan) (n : nat) (p : ConnectionPool) : ConnectionPool :=
  {| maxOpen := maxOpen p; maxIdle := maxIdle p; connections := connections p; idle := idle p;
     waiting := waiting p; closed := closed p; chans := m;
     next_chan := n; conn_closed := conn_closed p |}.

(** [conn.Close()] on each of [cs], in order. *)
Definition close_conns (cs : list Connection) (p : ConnectionPool) : ConnectionPool :=
  {| maxOpen := maxOpen p; maxIdle := maxIdle p; connections := connections p; idle := idle p;
     waiting := waiting p; closed := closed p; chans := chans p;
     next_chan := next_chan p; conn_closed := conn_closed p ++ cs |}.

(** The loop that deletes the first element equal to [x] and breaks. *)
Fixpoint remove_first {A} `{EqDecision A} (x : A) (l : list A) : list A :=
  match l with
  | [] => []
  | y :: l' => if decide (y = x) then l' else y :: remove_first x l'
  end.

(** What a call of [Get] has done when it gives up the lock: returned
    to its caller, or parked on the channel it queued. *)
Inductive GetResult :=
| Returned (conn : Connection) (err : Go.error)
| Blocked (wait : nat).

(** [Get] up to its [select]: [valid] answers [conn.IsValid()] for
    the idle connection popped, [made] is what the factory returns if
    it is called. *)
Definition Get (valid : bool) (made : Connection * Go.error) (p : ConnectionPool)
    : GetResult * ConnectionPool :=
  if closed p then (Returned None (Some ErrPoolClosed), p)
  else
    let reuse :=
      match last (idle p) with
      | Some conn =>
          let p1 := with_idle (removelast (idle p)) p in
          if valid then inl (conn, with_connections (connections p1 ++ [conn]) p1)
          else inr (close_conns [conn] p1)
      | None => inr p
      end in
    match reuse with
    | inl (conn, p1) => (Returned conn None, p1)
    | inr p1 =>
        if len (connections p1) <? maxOpen p1 then
          match made with
          | (_, Some err) => (Returned None (Some err), p1)
          | (conn, None) =>
              (Returned conn None, with_connections (connections p1 ++ [conn]) p1)
          end
        else
          let wait := next_chan p1 in
          (Blocked wait,
           with_waiting (waiting p1 ++ [wait])
             (with_chans (<[wait := make_chan]> (chans p1)) (S wait) p1))
    end.

(** The [case conn := <-wait] branch of a parked [Get]: enabled when
    the channel holds a value or is closed; a closed and empty
    channel yields the zero value [nil]. *)
Definition Get_receive (wait : nat) (p : ConnectionPool)
    : option (GetResult * ConnectionPool) :=
  match chans p !! wait with
  | Some {| buffer := Some conn; chan_closed := c |} =>
      let p1 := with_chans (<[wait := {| buffer := None; chan_closed := c |}]> (chans p))
                  (next_chan p) p in
      Some (Returned conn None, with_connections (connections p1 ++ [conn]) p1)
  | Some {| buffer := None; chan_closed := true |} =>
      Some (Returned None None, with_connections (connections p ++ [None]) p)
  | _ => None
  end.

(** The [case <-ctx.Done()] branch of a parked [Get]. *)
Definition Get_cancel (wait : nat) (ctx_err : string) (p : ConnectionPool)
    : GetResult * ConnectionPool :=
  (Returned None (Some ctx_err), with_waiting (remove_first wait (waiting p)) p).

(** [wait <- conn]: a send that neither blocks (buffer free) nor
    panics (channel open); [None] otherwise. *)
Definition send (wait : nat) (conn : Connection) (m : gmap nat Chan) : option (gmap nat Chan) :=
  match m !! wait with
  | Some {| buffer := None; chan_closed := false |} =>
      Some (<[wait := {| buffer := Some conn; chan_closed := false |}]> m)
  | _ => None
  end.

(** [Put conn] for a non-nil [conn]; [valid] answers [conn.IsValid()].
    [None]: the send on the waiter's channel cannot complete. *)
Definition Put (valid : bool) (conn : nat) (p : ConnectionPool) : option ConnectionPool :=
  if closed p then Some (close_conns [Some conn] p)
  else
    let p1 := with_connections (remove_first (Some conn) (connections p)) p in
    if negb valid then Some (close_conns [Some conn] p1)
    else
      let p2 := if len (idle p1) <? maxIdle p1
                then with_idle (idle p1 ++ [Some conn]) p1
                else close_conns [Some conn] p1 in
      match waiting p2 with
      | wait :: rest =>
          match send wait (Some conn) (chans p2) with
          | Some m => Some (with_chans m (next_chan p2) (with_waiting rest p2))
          | None => None
          end
      | [] => Some p2
      end.

Definition close_chan (m : gmap nat Chan) (wait : nat) : gmap nat Chan :=
  match m !! wait with
  | Some c => <[wait := {| buffer := buffer c; chan_closed := true |}]> m
  | None => m
  end.

(** [Close]. *)
Definition Close (p : ConnectionPool) : ConnectionPool :=
  if closed p then p
  else
    {| maxOpen := maxOpen p; maxIdle := maxIdle p;
       connections := []; idle := []; waiting := []; closed := true;
       chans := foldl close_chan (chans p) (waiting p);
       next_chan := next_chan p;
       conn_closed := conn_closed p ++ connections p ++ idle p |}.

(** [cleanup], the body of the periodic sweep; [valid] answers
    [IsValid()] for each connection. *)
Definition cleanup (valid : Connection -> bool) (p : ConnectionPool) : ConnectionPool :=
  if closed p then p
  else
    let p1 := close_conns (filter (fun c => valid c = false) (idle p))
                (with_idle (filter (fun c => valid c = true) (idle p)) p) in
    close_conns (filter (fun c => valid c = false) (connections p1))
      (with_connections (filter (fun c => valid c = true) (connections p1)) p1).

(** The steps goroutines take on the pool, and their effect. *)
Inductive Op :=
| OpGet (valid : bool) (made : Connection * Go.error)
| OpReceive (wait : nat)
| OpCancel (wait : nat) (ctx_err : string)
| OpPut (valid : bool) (conn : nat)
| OpClose
| OpCleanup (valid : Connection -> bool).

Definition step (o : Op) (p : ConnectionPool) : option (option GetResult * ConnectionPool) :=
  match o with
  | OpGet valid made => let '(r, p') := Get valid made p in Some (Some r, p')
  | OpReceive wait =>
      match Get_receive wait p with Some (r, p') => Some (Some r, p') | None => None end
  | OpCancel wait e => let '(r, p') := Get_cancel wait e p in Some (Some r, p')
  | OpPut valid conn =>
      match Put valid conn p with Some p' => Some (None, p') | None => None end
  | OpClose => Some (None, Close p)
  | OpCleanup valid => Some (None, cleanup valid p)
  end.

(** A schedule of steps; [None] when some step is not enabled. *)
Fixpoint exec (os : list Op) (p : ConnectionPool)
    : option (list (option GetResult) * ConnectionPool) :=
  match os with
  | [] => Some ([], p)
  | o :: os' =>
      match step o p with
      | Some (r, p1) =>
          match exec os' p1 with
          | Some (rs, p2) => Some (r :: rs, p2)
          | None => None
          end
      | None => None
      end
  end.

(** The discipline of the waiter queue: the queued channels are
    distinct, were allocated by the pool, and are open and empty. *)
Definition waiters_ok (p : ConnectionPool) : Prop :=
  NoDup (waiting p)
  /\ forall w, w ∈ waiting p -> (w < next_chan p)%nat /\ chans p !! w = Some make_chan.

(** What a closed pool answers to a step, and the connections that
    the [Put]s of a schedule hand in. *)
Definition closed_answer (o : Op) : option GetResult :=
  match o with
  | OpGet _ _ => Some (Returned None (Some ErrPoolClosed))
  | OpCancel _ ctx_err => Some (Returned None (Some ctx_err))
  | _ => None
  end.

Definition put_conns (os : list Op) : list Connection :=
  flat_map (fun o => match o with OpPut _ conn => [Some conn] | _ => [] end) os.

Definition is_receive (o : Op) : bool :=
  match o with OpReceive _ => true | _ => false end.

(** What the parked [Get]s that resume in a schedule receive, in
    order: [os] are the steps, [rs] their results. *)
Fixpoint resumed (os : list Op) (rs : list (option GetResult)) : list Connection :=
  match os, rs with
  | OpReceive _ :: os', Some (Returned conn _) :: rs' => conn :: resumed os' rs'
  | _ :: os', _ :: rs' => resumed os' rs'
  | _, _ => []
  end.

End pool.

(** ** The key-value store behind [redis.Client] (redis.go) *)

Module strconv.

(** [strconv.Itoa]. *)
Definition Itoa (i : Z) : string := NilZero.string_of_int (Z.to_int i).

(** The value of a non-empty string of decimal digits. *)
Definition digits (s : string) : option Z :=
  option_map Z.of_uint (NilZero.uint_of_string s).

(** [strconv.Atoi]: an optional sign and decimal digits; the value is
    clamped to the range of [int]; anything else gives 0.  The second
    component tells whether the returned error is non-nil. *)
Definition Atoi (s : string) : Z * bool :=
  let '(neg, body) :=
    match s with
    | String a r =>
        if Ascii.eqb a "+" then (false, r)
        else if Ascii.eqb a "-" then (true, r)
        else (false, s)
    | EmptyString => (false, s)
    end in
  match digits body with
  | Some n =>
      let v := if neg then - n else n in
      (Z.max Go.min_int (Z.min Go.max_int v),
       negb ((Go.min_int <=? v) && (v <=? Go.max_int)))
  | None => (0, true)
  end.

End strconv.

Module redis.

(** [Client] forwards to the go-redis client and so to the server,
    neither of which is code of this repository.  The server is a map
    from keys to values with an optional expiry; a key whose expiry has
    passed is gone; times to live are kept to the nanosecond. *)

(** A key of the server: its value and, when it has one, the instant
    at which it expires. *)
Record Entry := { value : string; deadline : option Go.Time }.

Definition live (now : Go.Time) (e : Entry) : bool :=
  match deadline e with
  | Some d => now <? d
  | None => true
  end.

(** The key as the server sees it at [now]: expired keys are gone. *)
Definition fetch (now : Go.Time) (st : gmap string Entry) (key : string) : option Entry :=
  match st !! key with
  | Some e => if live now e then Some e else None
  | None => None
  end.

(** The error of a missing key, [redis.Nil]. *)
Definition Nil : string := "redis: nil".

(** [go-redis]'s [KeepTTL]. *)
Definition KeepTTL : Go.Duration := -1.

(** Every command takes [fault]: [Some e] when the command fails with
    the transport error [e] (the server is unreachable) and has no
    effect, [None] when the server executes it. *)

(** [Client.Get]. *)
Definition Get (fault : Go.error) (now : Go.Time) (st : gmap string Entry) (key : string)
    : string * Go.error :=
  match fault with
  | Some e => (EmptyString, Some e)
  | None =>
      match fetch now st key with
      | Some e => (value e, None)
      | None => (EmptyString, Some Nil)
      end
  end.

(** [Client.Set]: a positive [expiration] is sent as the key's time to
    live, [KeepTTL] keeps the one the key has, any other value stores
    the key without expiry. *)
Definition Set_ (fault : Go.error) (now : Go.Time) (st : gmap string Entry)
    (key val : string) (expiration : Go.Duration) : Go.error * gmap string Entry :=
  match fault with
  | Some e => (Some e, st)
  | None =>
      let d := if 0 <? expiration then Some (now + expiration)
               else if expiration =? KeepTTL then
                 match fetch now st key with
                 | Some e => deadline e
                 | None => None
                 end
               else None in
      (None, <[key := {| value := val; deadline := d |}]> st)
  end.

(** [Client.Del] of one key. *)
Definition Del (fault : Go.error) (st : gmap string Entry) (key : string)
    : Go.error * gmap string Entry :=
  match fault with
  | Some e => (Some e, st)
  | None => (None, delete key st)
  end.

(** The remaining time to live of a live key that has a deadline. *)
Definition remaining (now : Go.Time) (st : gmap string Entry) (key : string) : option Go.Duration :=
  match fetch now st key with
  | Some e => option_map (fun d => d - now) (deadline e)
  | None => None
  end.

(** *** OTP service (otp_service.go) *)

Record OTPConfig := {
  Expiry : Go.Duration;
  Length : Z;
  RedisKeyPrefix : string;
  CodeCharset : string
}.

(** [fmt.Sprintf("%s:%s", prefix, phoneNumber)]. *)
Definition otpKey (cfg : OTPConfig) (phoneNumber : string) : string :=
  (RedisKeyPrefix cfg ++ ":" ++ phoneNumber)%string.

(** [string(b)] for a byte [b]: the UTF-8 encoding of the code point
    [b], one byte below 128 and two bytes from 128 on. *)
Definition string_of_byte (b : ascii) : string :=
  let n := N_of_ascii b in
  if (n <? 128)%N then String b EmptyString
  else String (ascii_of_N (N.lor 192 (N.shiftr n 6)))
         (String (ascii_of_N (N.lor 128 (N.land n 63))) EmptyString).

(** The random source: the [i]-th read gives a number or fails. *)
Definition Reader := nat -> N + string.

(** [rand.Int(rand.Reader, max)] at read [i]: a number below [max]. *)
Definition rand_Int (r : Reader) (i : nat) (max : N) : N + string :=
  match r i with
  | inl n => inl (n mod max)%N
  | inr e => inr e
  end.

(** The loop of [generateRandomCode], [n] iterations left, [i] done. *)
Fixpoint generate_loop (r : Reader) (charset : string) (n i : nat) (code : string)
    : string * Go.error :=
  match n with
  | O => (code, None)
  | S n' =>
      match rand_Int r i (N.of_nat (String.length charset)) with
      | inr e => (EmptyString, Some e)
      | inl num =>
          match String.get (N.to_nat num) charset with
          | Some b => generate_loop r charset n' (S i) (code ++ string_of_byte b)%string
          | None => (EmptyString, Some "index out of range"%string)
          end
      end
  end.

Definition generateRandomCode (cfg : OTPConfig) (r : Reader) (length : Z) : string * Go.error :=
  let charset := if decide (CodeCharset cfg = EmptyString) then "0123456789"%string
                 else CodeCharset cfg in
  generate_loop r charset (Z.to_nat length) 0 EmptyString.

(** [GenerateOTP]; [fault] is the fault of its [Set]. *)
Definition GenerateOTP (cfg : OTPConfig) (r : Reader) (fault : Go.error) (now : Go.Time)
    (st : gmap string Entry) (phoneNumber : string)
    : (string * Go.error) * gmap string Entry :=
  match generateRandomCode cfg r (Length cfg) with
  | (_, Some err) => ((EmptyString, Some err), st)
  | (code, None) =>
      match Set_ fault now st (otpKey cfg phoneNumber) code (Expiry cfg) with
      | (Some err, st') => ((EmptyString, Some err), st')
      | (None, st') => ((code, None), st')
      end
  end.

Definition ErrNotFound : string := "OTP not found or expired".
Definition ErrInvalid : string := "invalid OTP code".

(** [ValidateOTP]; [fget] and [fdel] are the faults of its [Get] and
    of its [Del]. *)
Definition ValidateOTP (cfg : OTPConfig) (fget fdel : Go.error) (now : Go.Time)
    (st : gmap string Entry) (phoneNumber code : string)
    : Go.error * gmap string Entry :=
  let otpKey := otpKey cfg phoneNumber in
  match Get fget now st otpKey with
  | (storedCode, err) =>
      if bool_decide (err <> None) || bool_decide (storedCode = EmptyString)
      then (Some ErrNotFound, st)
      else if bool_decide (storedCode <> code)
      then (Some ErrInvalid, st)
      else Del fdel st otpKey
  end.

(** [IsOTPValid]; [fget] is the fault of its [Get]. *)
Definition IsOTPValid (cfg : OTPConfig) (fget : Go.error) (now : Go.Time)
    (st : gmap string Entry) (phoneNumber : string) : bool :=
  match Get fget now st (otpKey cfg phoneNumber) with
  | (storedCode, err) => bool_decide (err = None) && bool_decide (storedCode <> EmptyString)
  end.

(** The bytes of a string, for statements about generated codes. *)
Definition bytes (s : string) : list ascii := list_ascii_of_string s.

(** A charset of bytes below 128: [string(b)] is the byte itself. *)
Definition ascii_charset (charset : string) : Prop :=
  Forall (fun b => (N_of_ascii b < 128)%N) (bytes charset).

(** The charset [generateRandomCode] draws from. *)
Definition charset_of (cfg : OTPConfig) : string :=
  if decide (CodeCharset cfg = EmptyString) then "0123456789"%string else CodeCharset cfg.

End redis.

(** ** Authentication service (package services): sending a code *)

Module services.

(** One step of the loop of [isValidPhoneNumber]: the loop ranges over
    the runes of [phoneNumber[1:]] and returns false at the first one
    outside ['0'..'9'].  A byte of 128 or more starts a rune that is
    128 or more (or the replacement rune), so the loop stops there
    with false; up to there every rune is one byte.  The loop is
    therefore the same loop over the bytes. *)
Fixpoint digits_only (s : string) : bool :=
  match s with
  | EmptyString => true
  | String char rest =>
      if (N_of_ascii char <? 48)%N || (57 <? N_of_ascii char)%N then false
      else digits_only rest
  end.

Definition isValidPhoneNumber (phoneNumber : string) : bool :=
  let len := Z.of_nat (String.length phoneNumber) in
  if (len <? 10) || (15 <? len) then false
  else
    match phoneNumber with
    | String c rest => if Ascii.eqb c "+" then digits_only rest else false
    | EmptyString => false
    end.

Definition ErrInvalidPhone : string := "invalid phone number format".

(** [AuthService.SendOTP]. *)
Definition SendOTP (cfg : redis.OTPConfig) (r : redis.Reader) (fault : Go.error)
    (now : Go.Time) (st : gmap string redis.Entry) (phoneNumber : string)
    : Go.error * gmap string redis.Entry :=
  if negb (isValidPhoneNumber phoneNumber) then (Some ErrInvalidPhone, st)
  else
    match redis.GenerateOTP cfg r fault now st phoneNumber with
    | ((_, Some err), st') => (Some err, st')
    | ((_, None), st') => (None, st')
    end.

End services.

(** ** The send-otp endpoint (package lib, handlers.go) *)

Module lib.

(** [ValidatePhoneNumber]: the pattern [^\+[1-9]\d{1,14}$] of Go's
    [regexp], where [\d] is an ASCII digit and [$] the end of the text:
    a plus sign, a digit from 1 to 9, and 1 to 14 digits more. *)
Definition ValidatePhoneNumber (phone : string) : Go.error :=
  match phone with
  | String plus (String first rest) =>
      if Ascii.eqb plus "+"
         && ((49 <=? N_of_ascii first)%N && (N_of_ascii first <=? 57)%N)
         && services.digits_only rest
         && ((1 <=? String.length rest)%nat && (String.length rest <=? 14)%nat)
      then None
      else Some "invalid phone number"%string
  | _ => Some "invalid phone number"%string
  end.

End lib.

Module handlers.

(** [AuthHandler.SendOTP]: the status of the answer and the store
    afterwards; [body] is [None] when the body does not parse. *)
Definition SendOTP (cfg : redis.OTPConfig) (r : redis.Reader) (fault : Go.error)
    (now : Go.Time) (st : gmap string redis.Entry) (body : option string)
    : Z * gmap string redis.Entry :=
  match body with
  | None => (400, st)
  | Some phoneNumber =>
      match lib.ValidatePhoneNumber phoneNumber with
      | Some _ => (400, st)
      | None =>
          match services.SendOTP cfg r fault now st phoneNumber with
          | (Some _, st') => (500, st')
          | (None, st') => (200, st')
          end
      end
  end.

End handlers.

(** ** Rate limiter (rate_limiter.go) *)

Module middleware.

(** The error of a denied request: [fmt.Errorf] with the limit and
    the window. *)
Inductive RateLimitError := TooManyRequests (limit : Z) (duration : Go.Duration).

(** [checkRateLimit]; [fget] and [fset] are the faults of its [Get]
    and of its [Set]. *)
Definition checkRateLimit (fget fset : Go.error) (now : Go.Time)
    (st : gmap string redis.Entry) (key : string) (limit : Z) (duration : Go.Duration)
    : option RateLimitError * gmap string redis.Entry :=
  let '(current, _) := redis.Get fget now st key in
  let count := if decide (current = EmptyString) then 0 else fst (strconv.Atoi current) in
  if limit <=? count then (Some (TooManyRequests limit duration), st)
  else
    let count := Go.incr count in
    let '(_, st') := redis.Set_ fset now st key (strconv.Itoa count) duration in
    (None, st').

(** The count [checkRateLimit] works with after its read: 0 when the
    read gives the empty string (missing key, failed read), else what
    [Atoi] makes of the stored text. *)
Definition current_count (fget : Go.error) (now : Go.Time)
    (st : gmap string redis.Entry) (key : string) : Z :=
  let current := fst (redis.Get fget now st key) in
  if decide (current = EmptyString) then 0 else fst (strconv.Atoi current).

(** [getRemainingRequests], before formatting. *)
Definition getRemainingRequests (fget : Go.error) (now : Go.Time)
    (st : gmap string redis.Entry) (key : string) (limit : Z) : Z :=
  match redis.Get fget now st key with
  | (current, err) =>
      if bool_decide (err <> None) || bool_decide (current = EmptyString) then limit
      else
        let remaining := Go.wrap (limit - fst (strconv.Atoi current)) in
        if remaining <? 0 then 0 else remaining
  end.

(** The configuration the handlers read: [config.RateLimitConfig] and
    the four fixed scopes of [config.RateLimitingConfig]. *)
Record RateLimitConfig := { Requests : Z; Duration : Go.Duration }.

Record RateLimitingConfig := {
  Global : RateLimitConfig;
  Auth : RateLimitConfig;
  OTP : RateLimitConfig;
  User : RateLimitConfig
}.

(** What a handler needs of the request: the client address and the
    [phone_number] of the body, [None] when the body does not parse. *)
Record Request := { IP : string; PhoneNumber : option string }.

(** What a handler answers: the next handler runs, or status 429 with
    the limiter's message, or status 400.  (The [Retry-After] header
    of the 429 answer is not modelled.) *)
Inductive Response :=
| Next
| Status429 (err : RateLimitError)
| Status400.

(** The part the four handlers share after their guard. *)
Definition limited (fget fset : Go.error) (now : Go.Time) (st : gmap string redis.Entry)
    (key : string) (c : RateLimitConfig) : Response * gmap string redis.Entry :=
  match checkRateLimit fget fset now st key (Requests c) (Duration c) with
  | (Some err, st') => (Status429 err, st')
  | (None, st') => (Next, st')
  end.

(** The handlers; [config] is [None] for a nil [rl.config]. *)
Definition GlobalRateLimit (config : option RateLimitingConfig) (fget fset : Go.error)
    (now : Go.Time) (st : gmap string redis.Entry) (req : Request)
    : Response * gmap string redis.Entry :=
  let key := ("rate_limit:global:" ++ IP req)%string in
  match config with
  | None => (Next, st)
  | Some cfg =>
      if Requests (Global cfg) =? 0 then (Next, st)
      else limited fget fset now st key (Global cfg)
  end.

Definition AuthRateLimit (config : option RateLimitingConfig) (fget fset : Go.error)
    (now : Go.Time) (st : gmap string redis.Entry) (req : Request)
    : Response * gmap string redis.Entry :=
  let key := ("rate_limit:auth:" ++ IP req)%string in
  match config with
  | None => (Next, st)
  | Some cfg =>
      if Requests (Auth cfg) =? 0 then (Next, st)
      else limited fget fset now st key (Auth cfg)
  end.

Definition OTPRateLimit (config : option RateLimitingConfig) (fget fset : Go.error)
    (now : Go.Time) (st : gmap string redis.Entry) (req : Request)
    : Response * gmap string redis.Entry :=
  match PhoneNumber req with
  | None => (Status400, st)
  | Some phone =>
      match config with
      | None => (Next, st)
      | Some cfg =>
          if Requests (OTP cfg) =? 0 then (Next, st)
          else
            let key := ("rate_limit:otp:" ++ phone)%string in
            limited fget fset now st key (OTP cfg)
      end
  end.

Definition UserRateLimit (config : option RateLimitingConfig) (fget fset : Go.error)
    (now : Go.Time) (st : gmap string redis.Entry) (req : Request)
    : Response * gmap string redis.Entry :=
  let key := ("rate_limit:user:" ++ IP req)%string in
  match config with
  | None => (Next, st)
  | Some cfg =>
      if Requests (User cfg) =? 0 then (Next, st)
      else limited fget fset now st key (User cfg)
  end.

(** The four handlers by name, and the key each of them counts a
    request under (for [OTPRateLimit], a request whose body parsed). *)
Inductive Scope := ScopeGlobal | ScopeAuth | ScopeOTP | ScopeUser.

Definition handler (s : Scope) :=
  match s with
  | ScopeGlobal => GlobalRateLimit
  | ScopeAuth => AuthRateLimit
  | ScopeOTP => OTPRateLimit
  | ScopeUser => UserRateLimit
  end.

Definition key_of (s : Scope) (req : Request) : option string :=
  match s with
  | ScopeGlobal => Some ("rate_limit:global:" ++ IP req)%string
  | ScopeAuth => Some ("rate_limit:auth:" ++ IP req)%string
  | ScopeOTP => option_map (fun phone => ("rate_limit:otp:" ++ phone)%string) (PhoneNumber req)
  | ScopeUser => Some ("rate_limit:user:" ++ IP req)%string
  end.

(** Requests to one key at the given times, one after the other, the
    store reachable: which of them were allowed, and the store left. *)
Fixpoint serve (times : list Go.Time) (st : gmap string redis.Entry) (key : string)
    (limit : Z) (duration : Go.Duration) : list bool * gmap string redis.Entry :=
  match times with
  | [] => ([], st)
  | t :: ts =>
      let '(r, st1) := checkRateLimit None None t st key limit duration in
      let '(rs, st2) := serve ts st1 key limit duration in
      (bool_decide (r = None) :: rs, st2)
  end.

(** Each request comes before the window of the one before it ends:
    [t0] is the time of the request before the first of [ts]. *)
Fixpoint spaced (window : Go.Duration) (t0 : Go.Time) (ts : list Go.Time) : Prop :=
  match ts with
  | [] => True
  | t :: ts' => t < t0 + window /\ spaced window t ts'
  end.

(** The configuration a handler reads and the identifier it counts
    a request under. *)
Definition config_of (s : Scope) (cfg : RateLimitingConfig) : RateLimitConfig :=
  match s with
  | ScopeGlobal => Global cfg
  | ScopeAuth => Auth cfg
  | ScopeOTP => OTP cfg
  | ScopeUser => User cfg
  end.

Definition identifier (s : Scope) (req : Request) : option string :=
  match s with
  | ScopeOTP => PhoneNumber req
  | _ => Some (IP req)
  end.

End middleware.

(** ** Doubles as real numbers

    [float64] is the binary64 of the language; its operations round to
    nearest, ties to even.  The definitions below give a double its
    value as a real number, to state what the rounded operations of
    [calculateDelay] keep of the order. *)

Module float64.

(** Powers of two. *)
Definition P2 (e : Z) : R := powerRZ 2 e.

(** The value of the positive double with mantissa [m] and exponent
    [e]. *)
Definition val (m : positive) (e : Z) : R := (IZR (Zpos m) * P2 e)%R.

(** The real number a double stands for (0 for what is not finite). *)
Definition B2R (x : spec_float) : R :=
  match x with
  | S754_finite s m e => ((if s then -1 else 1) * IZR (Zpos m) * P2 e)%R
  | _ => 0%R
  end.

(** A double that is zero or finite and positive. *)
Definition nonneg_finite (x : spec_float) : Prop :=
  match x with
  | S754_zero _ => True
  | S754_finite false m e => bounded prec emax m e = true
  | _ => False
  end.

(** A comparison of two doubles that is the order of two reals. *)
Definition compare_agrees (c : option comparison) (x y : R) : Prop :=
  match c with
  | Some Lt => (x < y)%R
  | Some Eq => x = y
  | Some Gt => (y < x)%R
  | None => False
  end.

(** What rounding returns for the mantissa [m1] at the exponent [E]:
    zero, the double that stands for [m1 * 2^E], or infinity when that
    is [2^1024] or more. *)
Definition rounded (m1 E : Z) (r : spec_float) : Prop :=
  (m1 = 0 /\ r = S754_zero false)
  \/ (exists (p : positive) (e' : Z),
        r = S754_finite false p e' /\ bounded prec emax p e' = true
        /\ val p e' = (IZR m1 * P2 E)%R)
  \/ (r = S754_infinity false /\ (P2 1024 <= IZR m1 * P2 E)%R).

(** The same on [float64] values. *)
Definition is_nonneg (x : float) : Prop := nonneg_finite (Prim2SF x).
Definition to_R (x : float) : R := B2R (Prim2SF x).

(** The double [2^j]. *)
Definition pow2 (j : Z) : float :=
  SF2Prim (S754_finite false 4503599627370496 (j - 52)).

End float64.

(** ** Retry helper (retry.go) *)

Module retry.

(** [float64(n)] for an [int64] [n]: the nearest double, ties to even. *)
Definition float64_of_int (n : Z) : float :=
  SF2Prim (binary_normalize prec emax n 0 false).

(** [time.Duration(f)] for a [float64] [f]: the integer part when it
    fits an [int64]; the language leaves the result open otherwise
    (not a number, infinite or out of range), which is [None]. *)
Definition Duration_of_float64 (f : float) : option Go.Duration :=
  match Prim2SF f with
  | S754_zero _ => Some 0
  | S754_finite s m e =>
      let mag := match e with
                 | Z0 => Zpos m
                 | Zpos p => Zpos m * 2 ^ Zpos p
                 | Zneg p => Zpos m / 2 ^ Zpos p
                 end in
      let v := if s then - mag else mag in
      if (Go.min_int <=? v) && (v <=? Go.max_int) then Some v else None
  | _ => None
  end.

(** The constant [0.1] as a double.  Products and sums below are
    rounded one by one, as on amd64 (no fused multiply-add). *)
Definition tenth : float := 0x1.999999999999ap-4%float.

Section WithErrors.

(** Error values, [errors.Is] on them, and [math.Pow]. *)
Context {Err : Type}.
Variable errors_Is : Err -> Err -> bool.
Variable math_Pow : float -> float -> float.

Record RetryConfig := {
  MaxAttempts : Z;
  InitialDelay : Go.Duration;
  MaxDelay : Go.Duration;
  BackoffFactor : float;
  Jitter : bool;
  RetryableErrors : list Err
}.

(** The [float64] that [calculateDelay] converts at its end: the
    backoff, the jitter and the cap.  [r] is what [rand.Float64()]
    returns if it is called. *)
Definition delay_float (r : float) (attempt : Z) (config : RetryConfig) : float :=
  let delay := PrimFloat.mul (float64_of_int (InitialDelay config))
                 (math_Pow (BackoffFactor config)
                    (float64_of_int (Go.wrap (attempt - 1)))) in
  let delay := if Jitter config
               then PrimFloat.add delay (PrimFloat.mul (PrimFloat.mul r tenth) delay)
               else delay in
  if PrimFloat.ltb (float64_of_int (MaxDelay config)) delay
  then float64_of_int (MaxDelay config) else delay.

(** [calculateDelay]. *)
Definition calculateDelay (r : float) (attempt : Z) (config : RetryConfig)
    : option Go.Duration :=
  Duration_of_float64 (delay_float r attempt config).

(** The delays of the [m] attempts from attempt [a] on. *)
Definition delays_from (config : RetryConfig) (rnd : Z -> float) (a : Z) (m : nat)
    : list (option Go.Duration) :=
  map (fun j : nat =>
         calculateDelay (rnd (a + Z.of_nat j)) (a + Z.of_nat j) config)
      (seq 0 m).

Definition isRetryableError (err : Err) (retryableErrors : list Err) : bool :=
  match retryableErrors with
  | [] => true
  | _ => existsb (fun retryableErr => errors_Is err retryableErr) retryableErrors
  end.

(** The context: whether [ctx.Done()] is ready at the check before
    attempt [k], whether it becomes ready during the sleep after
    attempt [k], and [ctx.Err()]. *)
Record Ctx := {
  done_before : Z -> bool;
  done_during : Z -> bool;
  ctx_Err : Err
}.

(** What a call of [Retry] did: the error returned ([None] is nil),
    how often it invoked [fn], the sleeps it completed and the
    [OnRetry] calls it made, in order. *)
Record Run := {
  returned : option Err;
  invocations : nat;
  slept : list (option Go.Duration);
  retried : list (Z * Err)
}.

(** The loop of [Retry].  [fn k] is what the operation returns when
    [k] invocations came before; [rnd k] what [rand.Float64()]
    returns in attempt [k]. *)
Fixpoint loop (ctx : Ctx) (config : RetryConfig) (fn : nat -> option Err)
    (rnd : Z -> float) (fuel : nat) (attempt : Z) (lastErr : option Err)
    (calls : nat) (sl : list (option Go.Duration)) (hk : list (Z * Err))
    : option Run :=
  match fuel with
  | O => None
  | S fuel' =>
      if attempt <=? MaxAttempts config then
        if done_before ctx attempt then
          Some {| returned := Some (ctx_Err ctx); invocations := calls;
                  slept := sl; retried := hk |}
        else
          match fn calls with
          | None =>
              Some {| returned := None; invocations := S calls;
                      slept := sl; retried := hk |}
          | Some err =>
              if negb (isRetryableError err (RetryableErrors config)) then
                Some {| returned := Some err; invocations := S calls;
                        slept := sl; retried := hk |}
              else if attempt =? MaxAttempts config then
                Some {| returned := Some err; invocations := S calls;
                        slept := sl; retried := hk |}
              else
                let hk := hk ++ [(attempt, err)] in
                let delay := calculateDelay (rnd attempt) attempt config in
                if done_during ctx attempt then
                  Some {| returned := Some (ctx_Err ctx); invocations := S calls;
                          slept := sl; retried := hk |}
                else
                  loop ctx config fn rnd fuel' (Go.incr attempt) (Some err)
                    (S calls) (sl ++ [delay]) hk
          end
      else
        Some {| returned := lastErr; invocations := calls; slept := sl; retried := hk |}
  end.

(** [Retry]: every iteration but the last raises [attempt], so
    [MaxAttempts + 1] rounds of the loop are enough. *)
Definition Retry (ctx : Ctx) (config : RetryConfig) (fn : nat -> option Err)
    (rnd : Z -> float) : option Run :=
  loop ctx config fn rnd (S (Z.to_nat (MaxAttempts config))) 1 None 0 [] [].

Definition uncancelled (ctx : Ctx) : Prop :=
  forall k, done_before ctx k = false /\ done_during ctx k = false.

(** The loop of [RetryWithResult]: the operation returns a value and an
    error, [zero] is the zero value of the result type. *)
Fixpoint loop_with_result {T : Type} (zero : T) (ctx : Ctx) (config : RetryConfig)
    (fn : nat -> T * option Err) (rnd : Z -> float) (fuel : nat) (attempt : Z)
    (lastErr : option Err) (calls : nat) (sl : list (option Go.Duration))
    (hk : list (Z * Err)) : option (T * Run) :=
  match fuel with
  | O => None
  | S fuel' =>
      if attempt <=? MaxAttempts config then
        if done_before ctx attempt then
          Some (zero, {| returned := Some (ctx_Err ctx); invocations := calls;
                         slept := sl; retried := hk |})
        else
          match fn calls with
          | (result, None) =>
              Some (result, {| returned := None; invocations := S calls;
                               slept := sl; retried := hk |})
          | (_, Some err) =>
              if negb (isRetryableError err (RetryableErrors config)) then
                Some (zero, {| returned := Some err; invocations := S calls;
                               slept := sl; retried := hk |})
              else if attempt =? MaxAttempts config then
                Some (zero, {| returned := Some err; invocations := S calls;
                               slept := sl; retried := hk |})
              else
                let hk := hk ++ [(attempt, err)] in
                let delay := calculateDelay (rnd attempt) attempt config in
                if done_during ctx attempt then
                  Some (zero, {| returned := Some (ctx_Err ctx); invocations := S calls;
                                 slept := sl; retried := hk |})
                else
                  loop_with_result zero ctx config fn rnd fuel' (Go.incr attempt)
                    (Some err) (S calls) (sl ++ [delay]) hk
          end
      else
        Some (zero, {| returned := lastErr; invocations := calls;
                       slept := sl; retried := hk |})
  end.

Definition RetryWithResult {T : Type} (zero : T) (ctx : Ctx) (config : RetryConfig)
    (fn : nat -> T * option Err) (rnd : Z -> float) : option (T * Run) :=
  loop_with_result zero ctx config fn rnd (S (Z.to_nat (MaxAttempts config))) 1 None 0 [] [].

(** No cancellation at the checks of the attempts below [k]. *)
Definition uncancelled_before (ctx : Ctx) (k : Z) : Prop :=
  forall j, j < k -> done_before ctx j = false /\ done_during ctx j = false.

End WithErrors.

End retry.

(** ** Application errors (errors.go) *)

Module errors.

(** An [error] value: an error of another package, of which the text
    of [Error()] is what this package looks at, or an [*AppError] with
    its four fields. *)
#[warnings="-register-all"]
Inductive error :=
| Text (text : string)
| App (Code Message Details : string) (Err : option error).

(** [AppError.Error], and [Error()] of the other errors. *)
Definition Error (e : error) : string :=
  match e with
  | Text text => text
  | App Code Message Details _ =>
      if decide (Details <> EmptyString)
      then (Code ++ ": " ++ Message ++ " (" ++ Details ++ ")")%string
      else (Code ++ ": " ++ Message)%string
  end.

Definition ErrNotFound : error := App "NOT_FOUND" "Resource not found" "" None.
Definition ErrAlreadyExists : error := App "ALREADY_EXISTS" "Resource already exists" "" None.
Definition ErrInvalidInput : error := App "INVALID_INPUT" "Invalid input provided" "" None.
Definition ErrDatabaseError : error := App "DATABASE_ERROR" "Database operation failed" "" None.
Definition ErrConstraintViolation : error :=
  App "CONSTRAINT_VIOLATION" "Database constraint violated" "" None.

(** [WithDetails] and [WithError], methods of [*AppError]. *)
Definition WithDetails (e : error) (details : string) : error :=
  match e with
  | App Code Message _ Err => App Code Message details Err
  | Text _ => e
  end.

Definition WithError (e : error) (err : option error) : error :=
  match e with
  | App Code Message Details _ => App Code Message Details err
  | Text _ => e
  end.

(** The predicates compare the text of the error with the text of the
    sentinel; [None] is the nil error. *)
Definition is_sentinel (sentinel : error) (err : option error) : bool :=
  match err with
  | Some e => bool_decide (Error e = Error sentinel)
  | None => false
  end.

Definition IsNotFound := is_sentinel ErrNotFound.
Definition IsAlreadyExists := is_sentinel ErrAlreadyExists.
Definition IsInvalidInput := is_sentinel ErrInvalidInput.
Definition IsDatabaseError := is_sentinel ErrDatabaseError.
Definition IsConstraintViolation := is_sentinel ErrConstraintViolation.

Definition NewNotFound (resource : string) : error :=
  WithDetails ErrNotFound (resource ++ " not found")%string.

Definition NewAlreadyExists (resource : string) : error :=
  WithDetails ErrAlreadyExists (resource ++ " already exists")%string.

Definition NewDatabaseError (operation : string) (err : option error) : error :=
  WithError (WithDetails ErrDatabaseError operation) err.

Definition NewConstraintViolation (constraint details : string) : error :=
  WithDetails ErrConstraintViolation
    ("Constraint '" ++ constraint ++ "' violated: " ++ details)%string.

Definition WrapError (err : option error) (context : string) : option error :=
  match err with
  | None => None
  | Some e =>
      if bool_decide (Error e = Error ErrNotFound)
         || bool_decide (Error e = Error ErrAlreadyExists)
         || bool_decide (Error e = Error ErrInvalidInput)
         || bool_decide (Error e = Error ErrDatabaseError)
         || bool_decide (Error e = Error ErrConstraintViolation)
      then err
      else Some (NewDatabaseError context err)
  end.

End errors.

(** ** Shutdown manager (shutdown.go): the order of the handlers *)

Module shutdown.

(** A handler: its name and its priority (what it does on shutdown
    plays no part in the order). *)
Record ShutdownHandler := { Name : string; Priority : Z }.

(** The body of the inner loop of [Shutdown]: the handlers at [i] and
    [j] change places when the one at [i] has the greater priority.
    (Both indices are in range where the loops call it.) *)
Definition exchange (i j : nat) (handlers : list ShutdownHandler) : list ShutdownHandler :=
  match handlers !! i, handlers !! j with
  | Some hi, Some hj =>
      if Priority hj <? Priority hi then <[j := hi]> (<[i := hj]> handlers) else handlers
  | _, _ => handlers
  end.

(** [for j := i + 1; j < len(handlers); j++]. *)
Definition inner_loop (i : nat) (handlers : list ShutdownHandler) : list ShutdownHandler :=
  foldl (fun hs j => exchange i j hs) handlers (seq (S i) (length handlers - S i)).

(** [for i := 0; i < len(handlers)-1; i++]: the order in which
    [Shutdown] starts the goroutines of the handlers. *)
Definition start_order (handlers : list ShutdownHandler) : list ShutdownHandler :=
  foldl (fun hs i => inner_loop i hs) handlers (seq 0 (length handlers - 1)).

(** The handler at [a] does not come after the handler at [b] by
    priority. *)
Definition le_at (l : list ShutdownHandler) (a b : nat) : Prop :=
  forall x y, l !! a = Some x -> l !! b = Some y -> Priority x <= Priority y.

(** The first [i] places are settled: each holds a handler that no
    later place undercuts. *)
Definition settled (i : nat) (l : list ShutdownHandler) : Prop :=
  forall a b, (a < i)%nat -> (a < b)%nat -> le_at l a b.

(** Place [i] holds a least handler of the places from [i] up to [j]. *)
Definition least_upto (i j : nat) (l : list ShutdownHandler) : Prop :=
  forall b, (i < b < j)%nat -> le_at l i b.

End shutdown.

(** * Properties *)

(** ** Machine integers and the clock *)

Lemma wrap_id (z : Z) : Go.in_int z -> Go.wrap z = z.
Proof.
  unfold Go.in_int, Go.min_int, Go.max_int, Go.wrap. intros H.
  rewrite Z.mod_small; lia.
Qed.

Lemma wrap_in_int (z : Z) : Go.in_int (Go.wrap z).
Proof.
  unfold Go.in_int, Go.min_int, Go.max_int, Go.wrap.
  pose proof (Z.mod_pos_bound (z + 2 ^ 63) (2 ^ 64) ltac:(lia)). lia.
Qed.

Lemma incr_below (x b : Z) : 0 <= x < b -> b <= Go.max_int -> Go.incr x = x + 1.
Proof.
  intros Hx Hb. apply wrap_id. unfold Go.in_int, Go.min_int, Go.max_int in *. lia.
Qed.


(** ** Circuit breaker *)

Section Breaker.

Import circuitbreaker.

(** [transitionTo], field by field. *)
Lemma transitionTo_fields (newState : State) (timestamp : Go.Time) (cb : CircuitBreaker) :
  transitionTo newState timestamp cb =
  {| config := config cb; state := newState;
     failures := match newState with StateOpen => failures cb | _ => 0 end;
     successes := match newState with StateOpen => successes cb | _ => 0 end;
     lastFailure := lastFailure cb; lastStateChange := timestamp;
     semaphore := semaphore cb |}.
Proof. destruct newState; reflexivity. Qed.

Lemma recordResult_counted (c : Call) (cb : CircuitBreaker) :
  recordResult (t_record c) (t_update c) (t_since c) (fn_result c) cb
  = updateState (t_update c) (t_since c) (counted c cb).
Proof. unfold recordResult, counted. destruct (fn_result c); reflexivity. Qed.

Lemma set_semaphore_same (cb : CircuitBreaker) : set_semaphore (semaphore cb) cb = cb.
Proof. destruct cb; reflexivity. Qed.

Lemma run_cons (c : Call) (cs : list Call) (cb : CircuitBreaker) :
  run (c :: cs) cb =
  (fst (Execute c cb) :: fst (run cs (snd (Execute c cb))),
   snd (run cs (snd (Execute c cb)))).
Proof.
  simpl. destruct (Execute c cb) as [o cb1]. simpl.
  destruct (run cs cb1); reflexivity.
Qed.

Lemma run_app (cs1 cs2 : list Call) (cb : CircuitBreaker) :
  run (cs1 ++ cs2) cb =
  (fst (run cs1 cb) ++ fst (run cs2 (snd (run cs1 cb))),
   snd (run cs2 (snd (run cs1 cb)))).
Proof.
  revert cb. induction cs1 as [|c cs1 IH]; intros cb; simpl.
  - destruct (run cs2 cb); reflexivity.
  - destruct (Execute c cb) as [o cb1]. rewrite IH.
    destruct (run cs1 cb1) as [os cb2]. simpl.
    destruct (run cs2 cb2); reflexivity.
Qed.

(** While Open and before the timeout, a call is rejected, the
    function does not run and the breaker does not change. *)
Lemma Execute_open_early (c : Call) (cb : CircuitBreaker) :
  state cb = StateOpen ->
  Go.Since (t_can c) (lastStateChange cb) < Timeout (config cb) ->
  Execute c cb = (rejected, cb).
Proof.
  intros Hs Ht. unfold Execute, canExecute. rewrite Hs.
  destruct (Z.leb_spec (Timeout (config cb)) (Go.Since (t_can c) (lastStateChange cb)));
    [lia | reflexivity].
Qed.

Lemma run_open_early (cs : list Call) (cb : CircuitBreaker) :
  state cb = StateOpen ->
  Forall (fun c => Go.Since (t_can c) (lastStateChange cb) < Timeout (config cb)) cs ->
  run cs cb = (map (fun _ => rejected) cs, cb).
Proof.
  intros Hs H. induction H as [|c cs Hc _ IH]; simpl; [reflexivity|].
  rewrite (Execute_open_early c cb Hs Hc), IH. reflexivity.
Qed.


(** Closed: a failure below the threshold is counted. *)
Lemma Execute_closed_failure (c : Call) (cb : CircuitBreaker) :
  state cb = StateClosed -> failing c ->
  0 <= failures cb -> failures cb + 1 < FailureThreshold (config cb) ->
  FailureThreshold (config cb) <= Go.max_int ->
  Execute c cb = (admitted c, set_failures (failures cb + 1) (t_record c) cb).
Proof.
  intros Hs Hf H0 Hlt Hmax. unfold Execute, canExecute. rewrite Hs. simpl.
  unfold admitted, recordResult, failing in *.
  destruct (fn_result c) as [e|]; [|congruence].
  rewrite (incr_below _ (FailureThreshold (config cb))) by lia.
  unfold updateState. simpl. rewrite Hs.
  destruct (Z.leb_spec (FailureThreshold (config cb)) (failures cb + 1)); [lia | reflexivity].
Qed.

(** Closed: the failure that reaches the threshold opens the breaker. *)
Lemma Execute_closed_trip (c : Call) (cb : CircuitBreaker) :
  state cb = StateClosed -> failing c ->
  0 <= failures cb -> failures cb + 1 = FailureThreshold (config cb) ->
  FailureThreshold (config cb) <= Go.max_int ->
  Execute c cb = (admitted c,
                  transitionTo StateOpen (t_update c)
                    (set_failures (failures cb + 1) (t_record c) cb)).
Proof.
  intros Hs Hf H0 Heq Hmax. unfold Execute, canExecute. rewrite Hs. simpl.
  unfold admitted, recordResult, failing in *.
  destruct (fn_result c) as [e|]; [|congruence].
  rewrite (incr_below _ (FailureThreshold (config cb))) by lia.
  unfold updateState. simpl. rewrite Hs.
  destruct (Z.leb_spec (FailureThreshold (config cb)) (failures cb + 1)); [reflexivity | lia].
Qed.

Lemma run_closed_failures (cs : list Call) : forall cb : CircuitBreaker,
  state cb = StateClosed -> Forall failing cs ->
  0 <= failures cb ->
  failures cb + Z.of_nat (length cs) = FailureThreshold (config cb) ->
  cs <> [] ->
  FailureThreshold (config cb) <= Go.max_int ->
  exists cb', run cs cb = (map admitted cs, cb')
    /\ state cb' = StateOpen /\ config cb' = config cb
    /\ semaphore cb' = semaphore cb
    /\ failures cb' = FailureThreshold (config cb).
Proof.
  induction cs as [|c cs IH]; intros cb Hs Hall H0 Hlen Hne Hmax; [congruence|].
  inversion Hall as [|? ? Hc Hcs]; subst. simpl in Hlen.
  destruct cs as [|c' cs'].
  - simpl in *. rewrite Execute_closed_trip by (auto; lia).
    eexists; split; [reflexivity|]. simpl. repeat split; lia.
  - rewrite run_cons, Execute_closed_failure by (auto; simpl in Hlen; lia).
    set (cb1 := set_failures (failures cb + 1) (t_record c) cb).
    destruct (IH cb1) as (cb' & Hrun & Hst & Hcfg & Hsem & Hf);
      try (subst cb1; simpl in *; auto; lia); try congruence.
    cbn [fst snd]. rewrite Hrun. exists cb'. split; [reflexivity|].
    subst cb1; simpl in *. auto.
Qed.

(** HalfOpen with a free probe slot: a success below the threshold is
    counted. *)
Lemma Execute_halfopen_success (c : Call) (cb : CircuitBreaker) :
  state cb = StateHalfOpen -> succeeding c ->
  semaphore cb < MaxConcurrent (config cb) ->
  0 <= successes cb -> successes cb + 1 < SuccessThreshold (config cb) ->
  SuccessThreshold (config cb) <= Go.max_int ->
  failures cb < FailureThreshold (config cb) ->
  Execute c cb = (admitted c, set_successes (successes cb + 1) cb).
Proof.
  intros Hs Hf Hsem H0 Hlt Hmax Hfl. unfold Execute, canExecute. rewrite Hs. simpl.
  destruct (Z.ltb_spec (semaphore cb) (MaxConcurrent (config cb))); [|lia].
  unfold admitted, recordResult, succeeding in *. rewrite Hf. simpl.
  rewrite (incr_below _ (SuccessThreshold (config cb))) by lia.
  unfold updateState. simpl. rewrite Hs.
  destruct (Z.leb_spec (SuccessThreshold (config cb)) (successes cb + 1)); [lia|].
  destruct (Z.leb_spec (FailureThreshold (config cb)) (failures cb)); [lia|].
  f_equal. unfold set_semaphore, set_successes. simpl. f_equal. lia.
Qed.

(** HalfOpen: the success that reaches the threshold closes the
    breaker, with both counters at zero. *)
Lemma Execute_halfopen_close (c : Call) (cb : CircuitBreaker) :
  state cb = StateHalfOpen -> succeeding c ->
  semaphore cb < MaxConcurrent (config cb) ->
  0 <= successes cb -> successes cb + 1 = SuccessThreshold (config cb) ->
  SuccessThreshold (config cb) <= Go.max_int ->
  Execute c cb = (admitted c, transitionTo StateClosed (t_update c) cb).
Proof.
  intros Hs Hf Hsem H0 Heq Hmax. unfold Execute, canExecute. rewrite Hs. simpl.
  destruct (Z.ltb_spec (semaphore cb) (MaxConcurrent (config cb))); [|lia].
  unfold admitted, recordResult, succeeding in *. rewrite Hf. simpl.
  rewrite (incr_below _ (SuccessThreshold (config cb))) by lia.
  unfold updateState. simpl. rewrite Hs.
  destruct (Z.leb_spec (SuccessThreshold (config cb)) (successes cb + 1)); [|lia].
  f_equal. rewrite !transitionTo_fields. unfold set_semaphore. simpl. f_equal. lia.
Qed.

Lemma run_halfopen_successes (cs : list Call) : forall cb : CircuitBreaker,
  state cb = StateHalfOpen -> Forall succeeding cs ->
  semaphore cb < MaxConcurrent (config cb) ->
  0 <= successes cb ->
  successes cb + Z.of_nat (length cs) = SuccessThreshold (config cb) ->
  cs <> [] ->
  SuccessThreshold (config cb) <= Go.max_int ->
  failures cb < FailureThreshold (config cb) ->
  exists cb', run cs cb = (map admitted cs, cb')
    /\ state cb' = StateClosed /\ failures cb' = 0 /\ successes cb' = 0.
Proof.
  induction cs as [|c cs IH]; intros cb Hs Hall Hsem H0 Hlen Hne Hmax Hfl; [congruence|].
  inversion Hall as [|? ? Hc Hcs]; subst. simpl in Hlen.
  destruct cs as [|c' cs'].
  - simpl in *. rewrite Execute_halfopen_close by (auto; lia).
    eexists; split; [reflexivity|]. simpl. auto.
  - rewrite run_cons, Execute_halfopen_success by (auto; simpl in Hlen; lia).
    set (cb1 := set_successes (successes cb + 1) cb).
    destruct (IH cb1) as (cb' & Hrun & Hst & Hf & Hsu);
      try (subst cb1; simpl in *; auto; lia); try congruence.
    cbn [fst snd]. rewrite Hrun. exists cb'. split; [reflexivity|]. auto.
Qed.

Lemma updateState_cases (now snow : Go.Time) (cb : CircuitBreaker) :
  updateState now snow cb = cb
  \/ (state (updateState now snow cb) <> state cb
      /\ updateState now snow cb = transitionTo (state (updateState now snow cb)) now cb).
Proof.
  unfold updateState.
  destruct (state cb) eqn:Hs;
    repeat match goal with |- context [if ?b then _ else _] => destruct b end;
    auto; right; simpl; rewrite ?Hs; split; (congruence || reflexivity).
Qed.

(** C2, as the code has it: a transition to Closed or to HalfOpen
    sets both counters to zero, a transition to Open (Closed to Open,
    HalfOpen to Open, [ForceOpen]) leaves both as they are.  Every
    change of state goes through [transitionTo]: [updateState] either
    changes nothing or is [transitionTo] to a different state, and
    the forced transitions are calls of it. *)
Theorem transition_counters (newState : State) (timestamp now snow : Go.Time)
    (cb : CircuitBreaker) :
  let cb' := transitionTo newState timestamp cb in
  (state cb' = newState
   /\ lastStateChange cb' = timestamp
   /\ (failures cb', successes cb') =
      match newState with
      | StateOpen => (failures cb, successes cb)
      | StateClosed | StateHalfOpen => (0, 0)
      end)
  /\ (updateState now snow cb = cb
      \/ (state (updateState now snow cb) <> state cb
          /\ updateState now snow cb
             = transitionTo (state (updateState now snow cb)) now cb))
  /\ ForceOpen now cb = transitionTo StateOpen now cb
  /\ ForceClose now cb = transitionTo StateClosed now cb
  /\ (state (Reset now cb) = StateClosed
      /\ failures (Reset now cb) = 0 /\ successes (Reset now cb) = 0).
Proof.
  cbv zeta. rewrite transitionTo_fields. simpl. repeat split; try reflexivity.
  - destruct newState; reflexivity.
  - apply updateState_cases.
Qed.

(** C2, as the specification states it, does not hold: with the
    default configuration the fifth consecutive failure takes the
    breaker from Closed to Open, and the failure counter is 5
    afterwards, not 0. *)
Lemma closed_to_open_keeps_failures :
  let failure := {| t_can := 1; t_record := 2; t_update := 3; t_since := 4;
                    fn_result := Some "boom"%string |} in
  let cb4 := snd (run (repeat failure 4) (NewCircuitBreaker DefaultConfig)) in
  let cb5 := snd (Execute failure cb4) in
  (state cb4 = StateClosed /\ state cb5 = StateOpen /\ failures cb5 = 5)
  /\ ~ (failures cb5 = 0 /\ successes cb5 = 0).
Proof.
  vm_compute. split; [repeat split; reflexivity | intros [H _]; discriminate H].
Qed.



Lemma play_cons_call (c : Call) (es : list Event) (cb : CircuitBreaker) :
  play (Called c :: es) cb =
  (fst (Execute c cb) :: fst (play es (snd (Execute c cb))),
   snd (play es (snd (Execute c cb)))).
Proof.
  simpl. destruct (Execute c cb) as [o cb1]. simpl.
  destruct (play es cb1); reflexivity.
Qed.


Lemma calls_app (es1 es2 : list Event) : calls (es1 ++ es2) = calls es1 ++ calls es2.
Proof. apply flat_map_app. Qed.

(** [play] leaves the breaker that [history] leaves. *)
Lemma play_history (es : list Event) : forall cb : CircuitBreaker,
  snd (play es cb) = history es cb.
Proof.
  induction es as [|e es IH]; intros cb; [reflexivity|].
  destruct e as [c|now snow wnow].
  - rewrite play_cons_call. simpl. apply IH.
  - simpl. apply IH.
Qed.












End Breaker.

(** ** Connection pool *)

Section Pool.

Import pool.

Lemma close_chan_lookup_ne (m : gmap nat Chan) (w w' : nat) :
  w <> w' -> close_chan m w' !! w = m !! w.
Proof.
  intros Hne. unfold close_chan. destruct (m !! w'); [|reflexivity].
  rewrite lookup_insert_ne; [reflexivity | congruence].
Qed.

Lemma close_chan_lookup_eq (m : gmap nat Chan) (w : nat) (c : Chan) :
  m !! w = Some c ->
  close_chan m w !! w = Some {| buffer := buffer c; chan_closed := true |}.
Proof.
  intros H. unfold close_chan. rewrite H. apply lookup_insert_eq.
Qed.

(** Closing a list of channels keeps what each channel buffers. *)
Lemma close_all_buffer (ws : list nat) : forall (m : gmap nat Chan) (w : nat) (c : Chan),
  m !! w = Some c ->
  exists c', foldl close_chan m ws !! w = Some c' /\ buffer c' = buffer c
             /\ (chan_closed c = true -> chan_closed c' = true).
Proof.
  induction ws as [|w0 ws IH]; intros m w c H; simpl.
  - exists c. auto.
  - destruct (decide (w = w0)) as [->|Hne].
    + destruct (IH (close_chan m w0) w0 _ (close_chan_lookup_eq m w0 c H))
        as (c' & H1 & H2 & H3).
      exists c'. simpl in *. auto.
    + apply IH. rewrite close_chan_lookup_ne; assumption.
Qed.

(** Every queued channel is closed by [Close]. *)
Lemma close_all_closed (ws : list nat) : forall (m : gmap nat Chan) (w : nat) (c : Chan),
  w ∈ ws -> m !! w = Some c ->
  foldl close_chan m ws !! w = Some {| buffer := buffer c; chan_closed := true |}.
Proof.
  induction ws as [|w0 ws IH]; intros m w c Hin H; simpl.
  - inversion Hin.
  - destruct (decide (w = w0)) as [->|Hne].
    + destruct (close_all_buffer ws (close_chan m w0) w0 _ (close_chan_lookup_eq m w0 c H))
        as ([b cl] & H1 & H2 & H3).
      simpl in *. rewrite H1, H2, H3; reflexivity.
    + apply IH.
      * apply elem_of_cons in Hin. destruct Hin; [congruence | assumption].
      * rewrite close_chan_lookup_ne; assumption.
Qed.

Lemma waiters_ok_ext (p p' : ConnectionPool) :
  waiting p' = waiting p -> chans p' = chans p -> next_chan p' = next_chan p ->
  waiters_ok p -> waiters_ok p'.
Proof. unfold waiters_ok. intros -> -> ->. auto. Qed.

Lemma remove_first_subset (a : nat) (l : list nat) (x : nat) :
  x ∈ remove_first a l -> x ∈ l.
Proof.
  induction l as [|y l IH]; simpl; [auto|].
  destruct (decide (y = a)); intros H.
  - apply elem_of_cons. auto.
  - apply elem_of_cons in H. apply elem_of_cons. destruct H; auto.
Qed.

Lemma remove_first_NoDup (a : nat) (l : list nat) : NoDup l -> NoDup (remove_first a l).
Proof.
  induction 1 as [|y l Hy Hl IH]; simpl; [constructor|].
  destruct (decide (y = a)); [assumption|].
  constructor; [|assumption]. intros H. apply Hy. eapply remove_first_subset, H.
Qed.

Lemma waiters_ok_new (maxOpen maxIdle : Z) : waiters_ok (NewConnectionPool maxOpen maxIdle).
Proof. split; [constructor | intros w H; inversion H]. Qed.

Lemma waiters_ok_park (p : ConnectionPool) :
  waiters_ok p ->
  waiters_ok (with_waiting (waiting p ++ [next_chan p])
                (with_chans (<[next_chan p := make_chan]> (chans p)) (S (next_chan p)) p)).
Proof.
  intros [Hnd Hw]. split; simpl.
  - apply NoDup_app. repeat split; [assumption | | apply NoDup_singleton].
    intros x Hx Hx'. apply list_elem_of_singleton in Hx'. subst x.
    destruct (Hw _ Hx). lia.
  - intros w Hin. apply elem_of_app in Hin. destruct Hin as [Hin|Hin].
    + destruct (Hw _ Hin) as [Hlt Hch]. split; [lia|].
      rewrite lookup_insert_ne; [assumption | lia].
    + apply list_elem_of_singleton in Hin. subst w. split; [lia|].
      apply lookup_insert_eq.
Qed.

Lemma Get_waiters_ok (valid : bool) (made : Connection * Go.error) (p : ConnectionPool) :
  waiters_ok p -> waiters_ok (snd (Get valid made p)).
Proof.
  intros H. unfold Get. destruct (closed p); [exact H|].
  destruct (last (idle p)) as [conn|]; [destruct valid|].
  - simpl. eapply waiters_ok_ext; [| | | exact H]; reflexivity.
  - set (p1 := close_conns _ _).
    assert (H1 : waiters_ok p1) by (eapply waiters_ok_ext; [| | | exact H]; reflexivity).
    destruct (len (connections p1) <? maxOpen p1).
    + destruct made as [c [e|]]; simpl; [exact H1|].
      eapply waiters_ok_ext; [| | | exact H1]; reflexivity.
    + cbn [snd]. exact (waiters_ok_park p1 H1).
  - destruct (len (connections p) <? maxOpen p).
    + destruct made as [c [e|]]; simpl; [exact H|].
      eapply waiters_ok_ext; [| | | exact H]; reflexivity.
    + cbn [snd]. exact (waiters_ok_park p H).
Qed.

Lemma Get_receive_waiters_ok (wait : nat) (p : ConnectionPool) (r : GetResult)
    (p' : ConnectionPool) :
  waiters_ok p -> Get_receive wait p = Some (r, p') -> waiters_ok p'.
Proof.
  intros [Hnd Hw] H. unfold Get_receive in H.
  destruct (chans p !! wait) as [[[conn|] cl]|] eqn:Hch; [| destruct cl |];
    try discriminate H; injection H as <- <-.
  - split; simpl; [assumption|]. intros w Hin. destruct (Hw _ Hin) as [Hlt Hmk].
    split; [assumption|]. rewrite lookup_insert_ne; [assumption|].
    intros ->. rewrite Hch in Hmk. discriminate Hmk.
  - split; simpl; assumption.
Qed.

Lemma Put_waiters_ok (valid : bool) (conn : nat) (p : ConnectionPool) :
  waiters_ok p -> exists p', Put valid conn p = Some p' /\ waiters_ok p'.
Proof.
  intros H. unfold Put. destruct (closed p).
  { eexists; split; [reflexivity|]. eapply waiters_ok_ext; [| | | exact H]; reflexivity. }
  set (p1 := with_connections _ p).
  assert (H1 : waiters_ok p1) by (eapply waiters_ok_ext; [| | | exact H]; reflexivity).
  destruct valid; cbn [negb].
  2:{ eexists; split; [reflexivity|]. eapply waiters_ok_ext; [| | | exact H1]; reflexivity. }
  set (p2 := if len (idle p1) <? maxIdle p1 then _ else _).
  assert (H2 : waiters_ok p2).
  { subst p2. destruct (len (idle p1) <? maxIdle p1);
      (eapply waiters_ok_ext; [| | | exact H1]; reflexivity). }
  destruct H2 as [Hnd Hw].
  destruct (waiting p2) as [|wait rest] eqn:Hq.
  { eexists; split; [reflexivity|]. split; [rewrite Hq; constructor|].
    intros w Hin. rewrite Hq in Hin. inversion Hin. }
  destruct (Hw wait ltac:(apply elem_of_cons; auto)) as [Hlt Hmk].
  unfold send. rewrite Hmk. simpl.
  eexists; split; [reflexivity|]. apply NoDup_cons in Hnd. destruct Hnd as [Hni Hnd].
  split; simpl; [assumption|].
  intros w Hin. destruct (Hw w ltac:(apply elem_of_cons; auto)) as [Hlt' Hmk'].
  split; [assumption|]. rewrite lookup_insert_ne; [assumption|].
  intros ->. contradiction.
Qed.

(** Every step keeps the queue discipline. *)
Lemma step_waiters_ok (o : Op) (p : ConnectionPool) (r : option GetResult)
    (p' : ConnectionPool) :
  waiters_ok p -> step o p = Some (r, p') -> waiters_ok p'.
Proof.
  intros H Hs. destruct o as [valid made|wait|wait e|valid conn| |valid]; simpl in Hs.
  - pose proof (Get_waiters_ok valid made p H) as HG.
    destruct (Get valid made p) as [r0 p0]. injection Hs as <- <-. exact HG.
  - destruct (Get_receive wait p) as [[r0 p0]|] eqn:HR; [|discriminate Hs].
    injection Hs as <- <-. eapply Get_receive_waiters_ok; eassumption.
  - injection Hs as <- <-. destruct H as [Hnd Hw]. split; simpl.
    + apply remove_first_NoDup. assumption.
    + intros w Hin. apply Hw. eapply remove_first_subset, Hin.
  - destruct (Put_waiters_ok valid conn p H) as (p0 & HP & Hok).
    rewrite HP in Hs. injection Hs as <- <-. exact Hok.
  - injection Hs as <- <-. unfold Close. destruct (closed p); [exact H|].
    split; simpl; [constructor | intros w Hin; inversion Hin].
  - injection Hs as <- <-. unfold cleanup. destruct (closed p); [exact H|].
    eapply waiters_ok_ext; [| | | exact H]; reflexivity.
Qed.

(** In every state the pool reaches the queue discipline holds, and so
    the send in [Put] completes: [Put] never blocks on a waiter's
    channel. *)
Lemma Put_never_blocks (os : list Op) : forall (p0 : ConnectionPool)
    (rs : list (option GetResult)) (p : ConnectionPool) (valid : bool) (conn : nat),
  waiters_ok p0 -> exec os p0 = Some (rs, p) ->
  waiters_ok p /\ exists p', Put valid conn p = Some p'.
Proof.
  induction os as [|o os IH]; intros p0 rs p valid conn H0 He; simpl in He.
  - injection He as <- <-. split; [exact H0|].
    destruct (Put_waiters_ok valid conn p0 H0) as (p' & HP & _). eauto.
  - destruct (step o p0) as [[r p1]|] eqn:Hs; [|discriminate He].
    destruct (exec os p1) as [[rs' p2]|] eqn:He'; [|discriminate He].
    injection He as <- <-.
    eapply IH; [|exact He']. eapply step_waiters_ok; eassumption.
Qed.

(** What [Close] does to a parked [Get]: its channel is closed while
    empty, the receive yields the zero value, and the call returns a
    nil connection with a nil error, after appending nil to the
    active list of the closed pool.  The connections the pool held
    are all closed. *)
Lemma Close_wakes_waiter_with_nil (p : ConnectionPool) (wait : nat) :
  closed p = false -> wait ∈ waiting p -> chans p !! wait = Some make_chan ->
  Get_receive wait (Close p)
    = Some (Returned None None, with_connections [None] (Close p))
  /\ conn_closed (Close p) = conn_closed p ++ connections p ++ idle p
  /\ connections (Close p) = [] /\ idle (Close p) = [].
Proof.
  intros Hc Hin Hch. unfold Close. rewrite Hc. simpl. repeat split.
  unfold Get_receive. simpl.
  rewrite (close_all_closed (waiting p) (chans p) wait make_chan Hin Hch). reflexivity.
Qed.

(** In a state that keeps the queue discipline, so in every state the
    pool reaches, [Close] makes each parked [Get] return a nil
    connection with a nil error. *)
Lemma Close_wakes_every_waiter_with_nil (p : ConnectionPool) (wait : nat) :
  waiters_ok p -> closed p = false -> wait ∈ waiting p ->
  Get_receive wait (Close p)
    = Some (Returned None None, with_connections [None] (Close p)).
Proof.
  intros [_ Hw] Hc Hin. destruct (Hw wait Hin) as [_ Hch].
  apply (Close_wakes_waiter_with_nil p wait Hc Hin Hch).
Qed.

(** [Put] of a valid connection while a waiter is queued and the idle
    list has room: the connection is appended to the idle list and
    also sent to the oldest waiter. *)
Lemma Put_idles_and_hands_over (p : ConnectionPool) (conn wait : nat) (rest : list nat) :
  closed p = false -> waiting p = wait :: rest -> chans p !! wait = Some make_chan ->
  len (idle p) < maxIdle p ->
  exists p', Put true conn p = Some p'
    /\ idle p' = idle p ++ [Some conn]
    /\ chans p' !! wait = Some {| buffer := Some (Some conn); chan_closed := false |}
    /\ waiting p' = rest.
Proof.
  intros Hc Hw Hch Hidle. unfold Put. rewrite Hc. simpl.
  destruct (Z.ltb_spec (len (idle p)) (maxIdle p)); [|lia].
  simpl. rewrite Hw. unfold send. simpl. rewrite Hch. simpl.
  eexists. split; [reflexivity|]. simpl. repeat split.
  apply lookup_insert_eq.
Qed.

(** [Put] of a valid connection while a waiter is queued and the idle
    list is full: the connection is closed and then sent to the
    oldest waiter. *)
Lemma Put_closes_and_hands_over (p : ConnectionPool) (conn wait : nat) (rest : list nat) :
  closed p = false -> waiting p = wait :: rest -> chans p !! wait = Some make_chan ->
  maxIdle p <= len (idle p) ->
  exists p', Put true conn p = Some p'
    /\ conn_closed p' = conn_closed p ++ [Some conn]
    /\ chans p' !! wait = Some {| buffer := Some (Some conn); chan_closed := false |}.
Proof.
  intros Hc Hw Hch Hidle. unfold Put. rewrite Hc. simpl.
  destruct (Z.ltb_spec (len (idle p)) (maxIdle p)); [lia|].
  simpl. rewrite Hw. unfold send. simpl. rewrite Hch. simpl.
  eexists. split; [reflexivity|]. simpl. repeat split.
  apply lookup_insert_eq.
Qed.

(** C3 on the code: a pool with [maxOpen = 1] and [maxIdle = 1].  One
    caller takes the only connection, a second caller parks, the first
    puts the connection back and the second wakes up.  [Put] has both
    idled the connection and handed it to the waiter: it is now in the
    active list and in the idle list, and the two lists hold 2 entries
    against [maxOpen = 1]. *)
Theorem pool_counts_connection_twice :
  exists p,
    exec [OpGet true (Some 1%nat, None); OpGet true (Some 2%nat, None);
          OpPut true 1%nat; OpReceive 0%nat] (NewConnectionPool 1 1)
    = Some ([Some (Returned (Some 1%nat) None); Some (Blocked 0); None;
             Some (Returned (Some 1%nat) None)], p)
    /\ connections p = [Some 1%nat] /\ idle p = [Some 1%nat]
    /\ maxOpen p = 1
    /\ len (connections p) + len (idle p) = 2.
Proof. eexists. vm_compute. repeat split. Qed.

(** C9 on the code: a pool with [maxOpen = 1]; one caller holds the
    connection, a second caller is parked, the pool is closed.  The
    parked [Get] returns a nil connection and a nil error. *)
Theorem close_returns_nil_to_waiter :
  exists p,
    exec [OpGet true (Some 1%nat, None); OpGet true (Some 2%nat, None);
          OpClose; OpReceive 0%nat] (NewConnectionPool 1 1)
    = Some ([Some (Returned (Some 1%nat) None); Some (Blocked 0); None;
             Some (Returned None None)], p)
    /\ closed p = true /\ conn_closed p = [Some 1%nat].
Proof. eexists. vm_compute. repeat split. Qed.

End Pool.

(** ** Decimal strings *)

Section Strconv.

Import strconv.

Lemma string_length_app (a b : string) :
  String.length (a ++ b) = (String.length a + String.length b)%nat.
Proof. induction a as [|c a IH]; simpl; [reflexivity | rewrite IH; reflexivity]. Qed.

(** The digits [Itoa] prints for a positive number: not empty, no
    sign in front, and they read back as the number. *)
Lemma digits_of_positive (p : positive) :
  exists a r, NilZero.string_of_uint (Pos.to_uint p) = String a r
              /\ Ascii.eqb a "+" = false /\ Ascii.eqb a "-" = false
              /\ digits (String a r) = Some (Zpos p).
Proof.
  pose proof (NilZero.usu (Pos.to_uint p) (Unsigned.to_uint_nonnil p)) as Hu.
  destruct (NilZero.string_of_uint (Pos.to_uint p)) as [|a r] eqn:Hs;
    [discriminate Hu|].
  exists a, r. split; [reflexivity|].
  assert (Hd : digits (String a r) = Some (Zpos p)).
  { unfold digits. rewrite Hu. simpl. unfold Z.of_uint.
    rewrite Unsigned.of_to. reflexivity. }
  simpl in Hu.
  destruct (NilEmpty.uint_of_string r) as [d0|]; [|discriminate Hu].
  apply uint_of_char_spec in Hu.
  repeat split; auto;
    decompose [or and] Hu; subst; reflexivity.
Qed.

(** Reading back what [Itoa] printed. *)
Lemma Atoi_Itoa (n : Z) : Go.in_int n -> Atoi (Itoa n) = (n, false).
Proof.
  intros Hn. unfold Go.in_int in Hn. unfold Itoa.
  destruct n as [|p|p].
  - reflexivity.
  - simpl. destruct (digits_of_positive p) as (a & r & Hs & Hp & Hm & Hd).
    rewrite Hs. unfold Atoi. rewrite Hp, Hm, Hd.
    f_equal; [lia|].
    destruct (Z.leb_spec Go.min_int (Z.pos p)); [|lia].
    destruct (Z.leb_spec (Z.pos p) Go.max_int); [reflexivity|lia].
  - simpl. destruct (digits_of_positive p) as (a & r & Hs & Hp & Hm & Hd).
    unfold Atoi. change (Ascii.eqb "-" "+") with false.
    change (Ascii.eqb "-" "-") with true. cbv iota.
    rewrite Hs, Hd. change (- Z.pos p) with (Z.neg p).
    f_equal; [lia|].
    destruct (Z.leb_spec Go.min_int (Z.neg p)); [|lia].
    destruct (Z.leb_spec (Z.neg p) Go.max_int); [reflexivity|lia].
Qed.

(** [Atoi] never leaves the range of [int]. *)
Lemma Atoi_in_int (s : string) : Go.in_int (fst (Atoi s)).
Proof.
  unfold Atoi.
  destruct (match s with
            | EmptyString => (false, s)
            | String a r =>
                if Ascii.eqb a "+" then (false, r)
                else if Ascii.eqb a "-" then (true, r) else (false, s)
            end) as [neg body].
  destruct (digits body) as [n|]; simpl; unfold Go.in_int, Go.min_int, Go.max_int; lia.
Qed.

End Strconv.

(** ** OTP service *)

Section OTP.

Import redis.

Lemma string_of_byte_length (b : ascii) : (1 <= String.length (string_of_byte b))%nat.
Proof. unfold string_of_byte. destruct (N_of_ascii b <? 128)%N; simpl; lia. Qed.

Lemma get_in_range (s : string) : forall n : nat,
  (n < String.length s)%nat -> exists b, String.get n s = Some b.
Proof.
  induction s as [|a s IH]; intros n Hn; simpl in *; [lia|].
  destruct n as [|n]; [eauto|]. apply IH. lia.
Qed.

(** A code that was generated has one character or more per round. *)
Lemma generate_loop_length (r : Reader) (charset : string) (n : nat) :
  forall (i : nat) (code out : string),
    generate_loop r charset n i code = (out, None) ->
    (String.length code + n <= String.length out)%nat.
Proof.
  induction n as [|n IH]; intros i code out H; simpl in H.
  - injection H as <-. lia.
  - destruct (rand_Int r i (N.of_nat (String.length charset))) as [num|e];
      [|discriminate H].
    destruct (String.get (N.to_nat num) charset) as [b|]; [|discriminate H].
    apply IH in H. rewrite string_length_app in H.
    pose proof (string_of_byte_length b). lia.
Qed.

(** The loop ends with a code when the random source delivers. *)
Lemma generate_loop_total (r : Reader) (charset : string) (n : nat) :
  charset <> EmptyString ->
  forall (i : nat) (code : string),
    (forall j, (i <= j < i + n)%nat -> exists x, r j = inl x) ->
    exists out, generate_loop r charset n i code = (out, None).
Proof.
  intros Hne. induction n as [|n IH]; intros i code Hr; simpl.
  - eauto.
  - destruct (Hr i ltac:(lia)) as [x Hx]. unfold rand_Int. rewrite Hx.
    assert (Hlen : (0 < String.length charset)%nat).
    { destruct charset; [congruence | simpl; lia]. }
    destruct (get_in_range charset (N.to_nat (x mod N.of_nat (String.length charset))))
      as [b Hb].
    { pose proof (N.mod_lt x (N.of_nat (String.length charset)) ltac:(lia)). lia. }
    rewrite Hb. apply IH. intros j Hj. apply Hr. lia.
Qed.

Lemma generateRandomCode_total (cfg : OTPConfig) (r : Reader) (length : Z) :
  (forall j, (j < Z.to_nat length)%nat -> exists x, r j = inl x) ->
  exists code, generateRandomCode cfg r length = (code, None)
               /\ (1 <= length -> code <> EmptyString).
Proof.
  intros Hr. unfold generateRandomCode.
  set (charset := if decide (CodeCharset cfg = EmptyString) then _ else _).
  assert (Hne : charset <> EmptyString).
  { subst charset. destruct (decide (CodeCharset cfg = EmptyString)); [discriminate | assumption]. }
  destruct (generate_loop_total r charset (Z.to_nat length) Hne 0 EmptyString) as [out Hout].
  { intros j Hj. apply Hr. lia. }
  exists out. split; [assumption|].
  intros Hl ->. apply generate_loop_length in Hout. simpl in Hout. lia.
Qed.

(** [Get] on a reachable server returns the live value. *)
Lemma Get_live (now : Go.Time) (st : gmap string Entry) (key : string) (e : Entry) :
  fetch now st key = Some e -> Get None now st key = (value e, None).
Proof. intros H. unfold Get. rewrite H. reflexivity. Qed.

Lemma Get_absent (fault : Go.error) (now : Go.Time) (st : gmap string Entry) (key : string) :
  st !! key = None -> exists e, Get fault now st key = (EmptyString, Some e).
Proof.
  intros H. unfold Get, fetch. rewrite H. destruct fault; eauto.
Qed.

(** Validation with the stored code succeeds and deletes the key. *)
Lemma ValidateOTP_match (cfg : OTPConfig) (now : Go.Time) (st : gmap string Entry)
    (phoneNumber : string) (e : Entry) :
  fetch now st (otpKey cfg phoneNumber) = Some e -> value e <> EmptyString ->
  ValidateOTP cfg None None now st phoneNumber (value e)
    = (None, delete (otpKey cfg phoneNumber) st).
Proof.
  intros Hf Hne. unfold ValidateOTP. rewrite (Get_live _ _ _ _ Hf).
  rewrite bool_decide_eq_false_2 by (intros H; apply H; reflexivity).
  rewrite bool_decide_eq_false_2 by assumption. simpl.
  rewrite bool_decide_eq_false_2 by (intros H; apply H; reflexivity).
  reflexivity.
Qed.

(** Validation of a phone number without a key fails as not found or
    expired, reachable server or not. *)
Lemma ValidateOTP_absent (cfg : OTPConfig) (fget fdel : Go.error) (now : Go.Time)
    (st : gmap string Entry) (phoneNumber code : string) :
  st !! otpKey cfg phoneNumber = None ->
  ValidateOTP cfg fget fdel now st phoneNumber code = (Some ErrNotFound, st).
Proof.
  intros H. unfold ValidateOTP.
  destruct (Get_absent fget now st _ H) as [e ->].
  rewrite bool_decide_eq_true_2 by discriminate. reflexivity.
Qed.

(** C4: with a code length of one or more, a positive expiry, a
    random source that delivers and a reachable server, [GenerateOTP]
    returns a code; [ValidateOTP] with that code before the expiry
    succeeds and deletes the key; every later [ValidateOTP] with the
    same code fails with the not-found-or-expired error. *)
Theorem otp_validates_exactly_once (cfg : OTPConfig) (r : Reader) (now now1 : Go.Time)
    (st : gmap string Entry) (phoneNumber : string) :
  1 <= Length cfg -> 0 < Expiry cfg ->
  (forall j, (j < Z.to_nat (Length cfg))%nat -> exists x, r j = inl x) ->
  now1 < now + Expiry cfg ->
  exists (code : string) (st1 st2 : gmap string Entry),
    GenerateOTP cfg r None now st phoneNumber = ((code, None), st1)
    /\ ValidateOTP cfg None None now1 st1 phoneNumber code = (None, st2)
    /\ st2 !! otpKey cfg phoneNumber = None
    /\ forall (fget fdel : Go.error) (now2 : Go.Time),
         ValidateOTP cfg fget fdel now2 st2 phoneNumber code = (Some ErrNotFound, st2).
Proof.
  intros HL HE Hr Hnow.
  destruct (generateRandomCode_total cfg r (Length cfg) Hr) as (code & Hgen & Hne).
  specialize (Hne HL).
  set (key := otpKey cfg phoneNumber).
  set (e := {| value := code; deadline := Some (now + Expiry cfg) |}).
  exists code, (<[key := e]> st), (delete key (<[key := e]> st)).
  assert (Hf : fetch now1 (<[key := e]> st) key = Some e).
  { unfold fetch. rewrite lookup_insert_eq. unfold live. simpl.
    destruct (Z.ltb_spec now1 (now + Expiry cfg)); [reflexivity | lia]. }
  repeat split.
  - unfold GenerateOTP. rewrite Hgen. unfold Set_.
    destruct (Z.ltb_spec 0 (Expiry cfg)); [reflexivity | lia].
  - apply (ValidateOTP_match cfg now1 _ phoneNumber e Hf Hne).
  - apply lookup_delete_eq.
  - intros fget fdel now2. apply ValidateOTP_absent. apply lookup_delete_eq.
Qed.

Lemma otp_validates_exactly_once_witness :
  let cfg := {| Expiry := 120 * 1000000000; Length := 6;
                RedisKeyPrefix := "otp"; CodeCharset := "0123456789" |} in
  let r : Reader := fun i => inl (N.of_nat (7 * i + 3)) in
  exists (code : string) (st1 st2 : gmap string Entry),
    GenerateOTP cfg r None 1000 ∅ "+1234567890" = ((code, None), st1)
    /\ ValidateOTP cfg None None 2000 st1 "+1234567890" code = (None, st2)
    /\ st2 !! otpKey cfg "+1234567890" = None
    /\ forall (fget fdel : Go.error) (now2 : Go.Time),
         ValidateOTP cfg fget fdel now2 st2 "+1234567890" code = (Some ErrNotFound, st2).
Proof.
  intros cfg r.
  apply (otp_validates_exactly_once cfg r 1000 2000 ∅ "+1234567890").
  - simpl. lia.
  - simpl. lia.
  - intros j _. eexists. reflexivity.
  - simpl. lia.
Defined.

(** C5: a pending code (the key is live and holds a non-empty code)
    and a different code offered.  [ValidateOTP] fails with the
    invalid-code error and the store is the same afterwards, value
    and expiry; if the key is still live at a later time, validation
    with the stored code succeeds then and deletes the key. *)
Theorem wrong_code_keeps_otp (cfg : OTPConfig) (fdel : Go.error) (now1 now2 : Go.Time)
    (st : gmap string Entry) (phoneNumber wrongCode : string) (e : Entry) :
  fetch now1 st (otpKey cfg phoneNumber) = Some e ->
  value e <> EmptyString ->
  wrongCode <> value e ->
  fetch now2 st (otpKey cfg phoneNumber) = Some e ->
  ValidateOTP cfg None fdel now1 st phoneNumber wrongCode = (Some ErrInvalid, st)
  /\ ValidateOTP cfg None None now2 st phoneNumber (value e)
     = (None, delete (otpKey cfg phoneNumber) st).
Proof.
  intros Hf Hne Hw Hf2. split.
  - unfold ValidateOTP. rewrite (Get_live _ _ _ _ Hf).
    rewrite bool_decide_eq_false_2 by (intros H; apply H; reflexivity).
    rewrite bool_decide_eq_false_2 by assumption. simpl.
    rewrite bool_decide_eq_true_2 by congruence. reflexivity.
  - apply ValidateOTP_match; assumption.
Qed.

Lemma wrong_code_keeps_otp_witness :
  let cfg := {| Expiry := 120; Length := 6; RedisKeyPrefix := "otp";
                CodeCharset := "0123456789" |} in
  let e := {| value := "307418"; deadline := Some 120 |} in
  let st : gmap string Entry := {[ "otp:+1234567890"%string := e ]} in
  ValidateOTP cfg None None 10 st "+1234567890" "000000" = (Some ErrInvalid, st)
  /\ ValidateOTP cfg None None 20 st "+1234567890" (value e)
     = (None, delete (otpKey cfg "+1234567890") st).
Proof.
  intros cfg e st.
  apply (wrong_code_keeps_otp cfg None 10 20 st "+1234567890" "000000" e).
  - reflexivity.
  - discriminate.
  - discriminate.
  - reflexivity.
Defined.

End OTP.

(** ** Rate limiter *)

Section RateLimiter.

Import middleware.

Lemma current_count_in_int (fget : Go.error) (now : Go.Time)
    (st : gmap string redis.Entry) (key : string) :
  Go.in_int (current_count fget now st key).
Proof.
  unfold current_count.
  destruct (decide (fst (redis.Get fget now st key) = EmptyString)).
  - unfold Go.in_int, Go.min_int, Go.max_int. lia.
  - apply Atoi_in_int.
Qed.

Lemma current_count_fault (e : string) (now : Go.Time)
    (st : gmap string redis.Entry) (key : string) :
  current_count (Some e) now st key = 0.
Proof. reflexivity. Qed.

(** [checkRateLimit] in terms of the count it read. *)
Lemma checkRateLimit_eq (fget fset : Go.error) (now : Go.Time)
    (st : gmap string redis.Entry) (key : string) (limit : Z) (duration : Go.Duration) :
  checkRateLimit fget fset now st key limit duration =
  if limit <=? current_count fget now st key
  then (Some (TooManyRequests limit duration), st)
  else (None, snd (redis.Set_ fset now st key
                     (strconv.Itoa (Go.incr (current_count fget now st key))) duration)).
Proof.
  unfold checkRateLimit, current_count.
  destruct (redis.Get fget now st key) as [current err]. simpl.
  destruct (limit <=? _); [reflexivity|].
  destruct (redis.Set_ _ _ _ _ _ _); reflexivity.
Qed.

(** A denied request writes nothing: value and expiry stay. *)
Lemma denied_request_keeps_store (fget fset : Go.error) (now : Go.Time)
    (st : gmap string redis.Entry) (key : string) (limit : Z) (duration : Go.Duration) :
  limit <= current_count fget now st key ->
  checkRateLimit fget fset now st key limit duration
    = (Some (TooManyRequests limit duration), st).
Proof.
  intros H. rewrite checkRateLimit_eq.
  destruct (Z.leb_spec limit (current_count fget now st key)); [reflexivity | lia].
Qed.

(** C1, as the code has it: an allowed request stores the count it
    read plus one and gives the key the full window as its time to
    live, whether the key existed or not; the text stored reads back
    as that count.  So every allowed request restarts the window. *)
Theorem allowed_request_restarts_window (fget : Go.error) (now : Go.Time)
    (st : gmap string redis.Entry) (key : string) (limit : Z) (window : Go.Duration) :
  Go.in_int limit -> 0 < window ->
  current_count fget now st key < limit ->
  let n := current_count fget now st key + 1 in
  let st' := snd (checkRateLimit fget None now st key limit window) in
  checkRateLimit fget None now st key limit window
    = (None, <[key := {| redis.value := strconv.Itoa n;
                         redis.deadline := Some (now + window) |}]> st)
  /\ strconv.Atoi (strconv.Itoa n) = (n, false)
  /\ current_count None now st' key = n
  /\ redis.remaining now st' key = Some window.
Proof.
  intros Hl Hw Hc n st'.
  pose proof (current_count_in_int fget now st key) as Hi.
  unfold Go.in_int in *.
  assert (Hn : Go.incr (current_count fget now st key) = n).
  { apply wrap_id. unfold Go.in_int. subst n. lia. }
  assert (Hrt : strconv.Atoi (strconv.Itoa n) = (n, false)).
  { apply Atoi_Itoa. unfold Go.in_int. subst n. lia. }
  assert (Heq : checkRateLimit fget None now st key limit window
                = (None, <[key := {| redis.value := strconv.Itoa n;
                                     redis.deadline := Some (now + window) |}]> st)).
  { rewrite checkRateLimit_eq.
    destruct (Z.leb_spec limit (current_count fget now st key)); [lia|].
    rewrite Hn. unfold redis.Set_.
    destruct (Z.ltb_spec 0 window); [reflexivity | lia]. }
  assert (Hf : redis.fetch now st' key
               = Some {| redis.value := strconv.Itoa n;
                         redis.deadline := Some (now + window) |}).
  { subst st'. rewrite Heq. simpl. unfold redis.fetch. rewrite lookup_insert_eq.
    unfold redis.live. simpl.
    destruct (Z.ltb_spec now (now + window)); [reflexivity | lia]. }
  repeat split; try assumption.
  - unfold current_count, redis.Get. rewrite Hf. simpl.
    destruct (decide (strconv.Itoa n = EmptyString)) as [He|_].
    + rewrite He in Hrt.
      assert (Hz : strconv.Atoi EmptyString = (0, true)) by reflexivity.
      congruence.
    + rewrite Hrt. reflexivity.
  - unfold redis.remaining. rewrite Hf. simpl. f_equal. lia.
Qed.

Lemma allowed_request_restarts_window_witness :
  let st : gmap string redis.Entry :=
    {[ "rate_limit:otp:+1234567890"%string :=
         {| redis.value := "1"; redis.deadline := Some 110 |} ]} in
  let st' := snd (checkRateLimit None None 100 st "rate_limit:otp:+1234567890" 3 600) in
  checkRateLimit None None 100 st "rate_limit:otp:+1234567890" 3 600
    = (None, <[ "rate_limit:otp:+1234567890"%string :=
                  {| redis.value := strconv.Itoa (1 + 1);
                     redis.deadline := Some (100 + 600) |}]> st)
  /\ strconv.Atoi (strconv.Itoa (1 + 1)) = (1 + 1, false)
  /\ current_count None 100 st' "rate_limit:otp:+1234567890" = 1 + 1
  /\ redis.remaining 100 st' "rate_limit:otp:+1234567890" = Some 600.
Proof.
  intros st.
  apply (allowed_request_restarts_window None 100 st "rate_limit:otp:+1234567890" 3 600).
  - unfold Go.in_int. vm_compute. split; discriminate.
  - reflexivity.
  - reflexivity.
Defined.

(** C1, as the specification states it, does not hold: the key exists
    with count 1 and 10 seconds left of its window; an allowed request
    with a window of 10 minutes raises the count to 2, and the time to
    live is 10 minutes afterwards: the key's expiry moved from second
    110 to second 700. *)
Lemma later_request_resets_ttl :
  let s := 1000000000 in
  let key := "rate_limit:otp:+1234567890"%string in
  let st : gmap string redis.Entry :=
    {[ key := {| redis.value := "1"; redis.deadline := Some (110 * s) |} ]} in
  let r := checkRateLimit None None (100 * s) st key 3 (600 * s) in
  (fst r = None
   /\ redis.remaining (100 * s) st key = Some (10 * s)
   /\ redis.fetch (100 * s) (snd r) key
      = Some {| redis.value := "2"; redis.deadline := Some (700 * s) |}
   /\ redis.remaining (100 * s) (snd r) key = Some (600 * s))
  /\ ~ (redis.remaining (100 * s) (snd r) key = redis.remaining (100 * s) st key).
Proof.
  vm_compute. split; [repeat split | discriminate].
Qed.

(** C8, as the code has it.  A failed read is taken for a count of
    0: the request is let through exactly when the limit is 1 or
    more, whatever the write does.  A failed write is reached only
    when the count read is below the limit; the request is let through
    then and the store is as it was, for every limit. *)
Theorem store_failure_fails_open (now : Go.Time) (st : gmap string redis.Entry)
    (key : string) (limit : Z) (window : Go.Duration) :
  (forall (e : string) (fset : Go.error),
      fst (checkRateLimit (Some e) fset now st key limit window) = None <-> 1 <= limit)
  /\ (forall (fget : Go.error) (e : string),
        current_count fget now st key < limit ->
        checkRateLimit fget (Some e) now st key limit window = (None, st)).
Proof.
  split.
  - intros e fset. rewrite checkRateLimit_eq, current_count_fault.
    destruct (Z.leb_spec limit 0); simpl; split; (lia || discriminate || reflexivity).
  - intros fget e Hc. rewrite checkRateLimit_eq.
    destruct (Z.leb_spec limit (current_count fget now st key)); [lia | reflexivity].
Qed.

(** C8, as the specification states it, does not hold for every
    limit: the handlers skip the limiter for a limit of 0 only, and
    with a limit of -1 and the store unreachable the count 0 is not
    below the limit, so the request is answered with status 429. *)
Lemma negative_limit_fails_closed :
  let rule := {| Requests := -1; Duration := 60 * 1000000000 |} in
  let config := Some {| Global := rule; Auth := rule; OTP := rule; User := rule |} in
  let req := {| IP := "10.0.0.1"; PhoneNumber := None |} in
  let down := Some "dial tcp 127.0.0.1:6379: connect: connection refused"%string in
  GlobalRateLimit config down down 100 ∅ req
    = (Status429 (TooManyRequests (-1) (60 * 1000000000)), ∅)
  /\ ~ (fst (checkRateLimit down down 100 ∅ "rate_limit:global:10.0.0.1" (-1)
               (60 * 1000000000)) = None).
Proof.
  split; [reflexivity | discriminate].
Qed.

End RateLimiter.

(** ** Doubles: what rounding keeps of the order *)

Section Float64.

Import float64.

Lemma P2_pos (e : Z) : (0 < P2 e)%R.
Proof. apply powerRZ_lt. lra. Qed.

Lemma P2_add (a b : Z) : P2 (a + b) = (P2 a * P2 b)%R.
Proof. apply powerRZ_add. lra. Qed.

Lemma P2_Z (e : Z) : 0 <= e -> P2 e = IZR (2 ^ e).
Proof.
  intros He. unfold P2. destruct e as [|p|p]; [reflexivity| |lia].
  rewrite <- Zpower_pos_powerRZ. reflexivity.
Qed.

Lemma P2_ge_1 (e : Z) : 0 <= e -> (1 <= P2 e)%R.
Proof.
  intros He. rewrite (P2_Z e He). apply IZR_le.
  pose proof (Z.pow_pos_nonneg 2 e ltac:(lia) He). lia.
Qed.

Lemma P2_le (a b : Z) : a <= b -> (P2 a <= P2 b)%R.
Proof.
  intros H. replace b with (a + (b - a)) by lia. rewrite P2_add.
  pose proof (P2_pos a). pose proof (P2_ge_1 (b - a) ltac:(lia)). nra.
Qed.

Lemma P2_lt (a b : Z) : a < b -> (P2 a < P2 b)%R.
Proof.
  intros H. replace b with (a + 1 + (b - a - 1)) by lia. rewrite !P2_add.
  pose proof (P2_pos a). pose proof (P2_ge_1 (b - a - 1) ltac:(lia)).
  assert (P2 1 = 2%R) by (unfold P2; simpl; lra). nra.
Qed.

(** The number of binary digits. *)
Lemma digits2_pos_spec (m : positive) :
  2 ^ (Zpos (digits2_pos m) - 1) <= Zpos m < 2 ^ Zpos (digits2_pos m).
Proof.
  induction m as [m IH|m IH|]; cbn [digits2_pos].
  - rewrite Pos2Z.inj_succ. replace (Z.succ (Z.pos (digits2_pos m)) - 1)
      with (Z.succ (Z.pos (digits2_pos m) - 1)) by lia.
    rewrite !Z.pow_succ_r by lia. lia.
  - rewrite Pos2Z.inj_succ. replace (Z.succ (Z.pos (digits2_pos m)) - 1)
      with (Z.succ (Z.pos (digits2_pos m) - 1)) by lia.
    rewrite !Z.pow_succ_r by lia. lia.
  - simpl. lia.
Qed.

Lemma digits2_pos_lower (m : positive) (j : Z) :
  0 <= j -> 2 ^ j <= Zpos m -> j + 1 <= Zpos (digits2_pos m).
Proof.
  intros Hj H. destruct (digits2_pos_spec m) as [_ Hu].
  destruct (Z.le_gt_cases (j + 1) (Zpos (digits2_pos m))) as [|Hlt]; [assumption|].
  assert (2 ^ Zpos (digits2_pos m) <= 2 ^ j) by (apply Z.pow_le_mono_r; lia). lia.
Qed.

Lemma digits2_pos_upper (m : positive) (j : Z) :
  0 <= j -> Zpos m < 2 ^ j -> Zpos (digits2_pos m) <= j.
Proof.
  intros Hj H. destruct (digits2_pos_spec m) as [Hl _].
  destruct (Z.le_gt_cases (Zpos (digits2_pos m)) j) as [|Hlt]; [assumption|].
  assert (2 ^ j <= 2 ^ (Zpos (digits2_pos m) - 1)) by (apply Z.pow_le_mono_r; lia). lia.
Qed.

(** A canonical mantissa: at most 53 digits, exactly 53 unless the
    exponent is the least one. *)
Lemma canonical_spec (m : positive) (e : Z) :
  canonical_mantissa prec emax m e = true
  <-> (Zpos (digits2_pos m) <= 53 /\ -1074 <= e
       /\ (Zpos (digits2_pos m) = 53 \/ e = -1074)).
Proof.
  unfold canonical_mantissa, fexp, emin, prec, emax. rewrite Z.eqb_eq.
  generalize (Z.pos (digits2_pos m)). intros d.
  destruct (Z.max_spec (d + e - 53) (3 - 1024 - 53)) as [[H1 H2]|[H1 H2]];
    rewrite H2; lia.
Qed.

Lemma bounded_spec (m : positive) (e : Z) :
  bounded prec emax m e = true
  <-> (canonical_mantissa prec emax m e = true /\ e <= 971).
Proof.
  unfold bounded. rewrite andb_true_iff, Z.leb_le. unfold prec, emax.
  split; intros [H1 H2]; (split; [exact H1 | lia]).
Qed.

Lemma val_pos (m : positive) (e : Z) : (0 < val m e)%R.
Proof.
  unfold val. apply Rmult_lt_0_compat; [apply IZR_lt; lia | apply P2_pos].
Qed.

Lemma val_lower (m : positive) (e : Z) :
  (P2 (Zpos (digits2_pos m) - 1 + e) <= val m e)%R.
Proof.
  unfold val. rewrite P2_add. destruct (digits2_pos_spec m) as [Hl _].
  rewrite (P2_Z (Zpos (digits2_pos m) - 1)) by lia.
  apply Rmult_le_compat_r; [left; apply P2_pos | apply IZR_le; exact Hl].
Qed.

Lemma val_upper (m : positive) (e : Z) :
  (val m e < P2 (Zpos (digits2_pos m) + e))%R.
Proof.
  unfold val. rewrite P2_add. destruct (digits2_pos_spec m) as [_ Hu].
  rewrite (P2_Z (Zpos (digits2_pos m))) by lia.
  apply Rmult_lt_compat_r; [apply P2_pos | apply IZR_lt; exact Hu].
Qed.

(** Canonical doubles are ordered by their exponents first. *)
Lemma canonical_exp_lt (m1 m2 : positive) (e1 e2 : Z) :
  canonical_mantissa prec emax m1 e1 = true ->
  canonical_mantissa prec emax m2 e2 = true ->
  e1 < e2 -> (val m1 e1 < val m2 e2)%R.
Proof.
  rewrite !canonical_spec. intros (Hd1 & He1 & _) (Hd2 & He2 & Hn2) Hlt.
  assert (Hd : Zpos (digits2_pos m2) = 53) by lia.
  pose proof (val_upper m1 e1). pose proof (val_lower m2 e2). rewrite Hd in *.
  pose proof (P2_le (Zpos (digits2_pos m1) + e1) (53 - 1 + e2) ltac:(lia)). lra.
Qed.

Lemma val_same_exp (m1 m2 : positive) (e : Z) :
  (val m1 e <= val m2 e)%R <-> (m1 <= m2)%positive.
Proof.
  unfold val. pose proof (P2_pos e). split.
  - intros H1. apply Rmult_le_reg_r in H1; [|assumption]. apply le_IZR in H1. lia.
  - intros H1. apply Rmult_le_compat_r; [lra | apply IZR_le; lia].
Qed.

(** [SFcompare] on doubles that are zero or positive is the order of
    the reals. *)
Lemma SFcompare_finite (m1 m2 : positive) (e1 e2 : Z) :
  canonical_mantissa prec emax m1 e1 = true ->
  canonical_mantissa prec emax m2 e2 = true ->
  compare_agrees (SFcompare (S754_finite false m1 e1) (S754_finite false m2 e2))
    (val m1 e1) (val m2 e2).
Proof.
  intros H1 H2. simpl. destruct (Z.compare_spec e1 e2) as [->|Hlt|Hgt]; simpl.
  - rewrite Pos.compare_cont_spec. simpl.
    destruct (Pos.compare_spec m1 m2) as [->|Hm|Hm]; simpl.
    + reflexivity.
    + unfold val. apply Rmult_lt_compat_r; [apply P2_pos|]. apply IZR_lt. lia.
    + unfold val. apply Rmult_lt_compat_r; [apply P2_pos|]. apply IZR_lt. lia.
  - apply canonical_exp_lt; assumption.
  - apply canonical_exp_lt; assumption.
Qed.

Lemma nonneg_finite_B2R (x : spec_float) : nonneg_finite x -> (0 <= B2R x)%R.
Proof.
  destruct x as [s|s| |[|] m e]; simpl; try lra; try contradiction.
  intros _. pose proof (val_pos m e). unfold val in *. lra.
Qed.

Lemma SFcompare_nonneg (x y : spec_float) :
  nonneg_finite x -> nonneg_finite y ->
  compare_agrees (SFcompare x y) (B2R x) (B2R y).
Proof.
  intros Hx Hy.
  destruct x as [sx|sx| |[|] mx ex]; try contradiction;
    destruct y as [sy|sy| |[|] my ey]; try contradiction; simpl in Hx, Hy.
  - simpl. reflexivity.
  - pose proof (val_pos my ey). unfold val in *. simpl. lra.
  - pose proof (val_pos mx ex). unfold val in *. simpl. lra.
  - apply bounded_spec in Hx, Hy. destruct Hx as [Hx _], Hy as [Hy _].
    pose proof (SFcompare_finite mx my ex ey Hx Hy) as H.
    unfold B2R, val in *. rewrite !Rmult_1_l. exact H.
Qed.

Lemma SFleb_nonneg (x y : spec_float) :
  nonneg_finite x -> nonneg_finite y ->
  (SFleb x y = true <-> (B2R x <= B2R y)%R).
Proof.
  intros Hx Hy. unfold SFleb. pose proof (SFcompare_nonneg x y Hx Hy) as H.
  destruct (SFcompare x y) as [[| |]|]; simpl in H; try contradiction;
    split; intros; try lra; try reflexivity; try discriminate.
Qed.

Lemma SFltb_nonneg (x y : spec_float) :
  nonneg_finite x -> nonneg_finite y ->
  (SFltb x y = true <-> (B2R x < B2R y)%R).
Proof.
  intros Hx Hy. unfold SFltb. pose proof (SFcompare_nonneg x y Hx Hy) as H.
  destruct (SFcompare x y) as [[| |]|]; simpl in H; try contradiction;
    split; intros; try lra; try reflexivity; try discriminate.
Qed.

Lemma fexp_spec (x : Z) : fexp prec emax x = Z.max (x - 53) (-1074).
Proof. reflexivity. Qed.

Lemma iter_pos_nat {A : Type} (f : A -> A) (p : positive) : forall x : A,
  SpecFloat.iter_pos f p x = Nat.iter (Pos.to_nat p) f x.
Proof.
  induction p as [p IH|p IH|]; intros x; cbn [SpecFloat.iter_pos].
  - rewrite !IH, Pos2Nat.inj_xI.
    replace (S (2 * Pos.to_nat p)) with (Pos.to_nat p + (Pos.to_nat p + 1))%nat by lia.
    rewrite !Nat.iter_add. reflexivity.
  - rewrite !IH, Pos2Nat.inj_xO.
    replace (2 * Pos.to_nat p)%nat with (Pos.to_nat p + Pos.to_nat p)%nat by lia.
    rewrite Nat.iter_add. reflexivity.
  - reflexivity.
Qed.

(** One shift to the right halves the mantissa and remembers what
    falls off. *)
Lemma shr_1_spec (mrs : shr_record) :
  0 <= shr_m mrs ->
  shr_m (shr_1 mrs) = shr_m mrs / 2
  /\ shr_r (shr_1 mrs) = Z.odd (shr_m mrs)
  /\ shr_s (shr_1 mrs) = shr_r mrs || shr_s mrs.
Proof.
  destruct mrs as [m r s]. simpl. intros Hm.
  destruct m as [|[p|p|]|p]; simpl; try lia; repeat split.
  - apply Z.div_unique with (r := 1); lia.
  - apply Z.div_unique with (r := 0); lia.
Qed.

Lemma shr_iter_spec (M : Z) (k : nat) :
  0 <= M ->
  let mrs := Nat.iter k shr_1 {| shr_m := M; shr_r := false; shr_s := false |} in
  shr_m mrs = M / 2 ^ Z.of_nat k
  /\ (M mod 2 ^ Z.of_nat k = 0 -> shr_r mrs = false /\ shr_s mrs = false).
Proof.
  intros HM. induction k as [|k IH]; cbn zeta.
  - simpl. rewrite Z.div_1_r. split; [reflexivity | intros _; split; reflexivity].
  - rewrite Nat.iter_succ. cbn zeta in IH. destruct IH as [IHm IHf].
    set (mrs := Nat.iter k shr_1 _) in *.
    assert (Hpow : 0 < 2 ^ Z.of_nat k) by (apply Z.pow_pos_nonneg; lia).
    assert (Hq : 0 <= shr_m mrs) by (rewrite IHm; apply Z.div_pos; lia).
    destruct (shr_1_spec mrs Hq) as (H1 & H2 & H3).
    rewrite Nat2Z.inj_succ, Z.pow_succ_r by lia.
    split.
    + rewrite H1, IHm, Z.div_div by lia. f_equal. lia.
    + intros Hmod.
      pose proof (Z.div_mod M (2 * 2 ^ Z.of_nat k) ltac:(lia)) as Hdm.
      rewrite Hmod, Z.add_0_r in Hdm.
      set (c := M / (2 * 2 ^ Z.of_nat k)) in *.
      assert (HMk : M = (2 * c) * 2 ^ Z.of_nat k) by lia.
      assert (Hmk : M mod 2 ^ Z.of_nat k = 0) by (rewrite HMk; apply Z.mod_mul; lia).
      assert (Hdk : M / 2 ^ Z.of_nat k = 2 * c) by (rewrite HMk at 1; apply Z.div_mul; lia).
      destruct (IHf Hmk) as [Hr Hs]. rewrite H2, H3, Hr, Hs, IHm, Hdk.
      split; [|reflexivity]. rewrite Z.odd_mul. reflexivity.
Qed.

(** [shr] by [n >= 0] places. *)
Lemma shr_spec (M e n : Z) :
  0 <= M -> 0 <= n ->
  let res := shr {| shr_m := M; shr_r := false; shr_s := false |} e n in
  snd res = e + n
  /\ shr_m (fst res) = M / 2 ^ n
  /\ (M mod 2 ^ n = 0 -> shr_r (fst res) = false /\ shr_s (fst res) = false).
Proof.
  intros HM Hn. destruct n as [|p|p]; [| |lia]; cbn zeta.
  - simpl. rewrite Z.add_0_r, Z.div_1_r. repeat split; reflexivity.
  - unfold shr. cbn [fst snd]. rewrite iter_pos_nat.
    pose proof (shr_iter_spec M (Pos.to_nat p) HM) as H. cbn zeta in H.
    rewrite positive_nat_Z in H. split; [reflexivity | exact H].
Qed.

Lemma round_nearest_even_spec (mrs : shr_record) :
  let m := round_nearest_even (shr_m mrs) (loc_of_shr_record mrs) in
  shr_m mrs <= m <= shr_m mrs + 1
  /\ (shr_r mrs = false /\ shr_s mrs = false -> m = shr_m mrs).
Proof.
  destruct mrs as [m [|] [|]]; simpl; try (split; [lia | intros [? ?]; discriminate]).
  - destruct (Z.even m); split; try lia; intros [? ?]; discriminate.
  - split; [lia | reflexivity].
Qed.

Lemma second_stage (m1 E : Z) :
  -1074 <= E -> 0 <= m1 <= 2 ^ 53 -> (2 ^ 52 <= m1 \/ E = -1074) ->
  rounded m1 E
    (let '(mrs'', e'') := shr_fexp prec emax m1 E loc_Exact in
     match shr_m mrs'' with
     | Z0 => S754_zero false
     | Zpos m => if Z.leb e'' (Z.sub emax prec) then S754_finite false m e''
                 else S754_infinity false
     | _ => S754_nan
     end).
Proof.
  intros HE Hm1 Hnorm. unfold shr_fexp. rewrite fexp_spec.
  change (emax - prec) with 971. cbn [shr_record_of_loc].
  destruct m1 as [|p|p]; [| |lia].
  - left. cbn [Zdigits2].
    replace (Z.max (0 + E - 53) (-1074) - E) with (- (E - Z.max (E - 53) (-1074)))
      by lia.
    destruct (E - Z.max (E - 53) (-1074)) as [|q|q] eqn:Hq; [| |lia];
      simpl; split; reflexivity.
  - cbn [Zdigits2]. destruct (Z.eq_dec (Zpos p) (2 ^ 53)) as [Htop|Htop].
    + assert (Hp : p = 9007199254740992%positive) by lia. subst p. clear Htop. right.
      replace (Z.max (_ + E - 53) (-1074) - E) with 1 by (simpl; lia).
      cbn [shr SpecFloat.iter_pos shr_1 shr_m]. cbv beta iota.
      destruct (Z.leb_spec (E + 1) 971) as [Hle|Hgt].
      * left. eexists _, _. split; [reflexivity|]. split.
        -- apply bounded_spec. split; [|lia]. apply canonical_spec. simpl. lia.
        -- unfold val. rewrite Z.add_comm, P2_add.
           assert (P2 1 = 2%R) by (unfold P2; simpl; lra).
           rewrite H. lra.
      * right. split; [reflexivity|].
        change (Z.pos 9007199254740992) with (2 ^ 53). rewrite <- P2_Z by lia.
        rewrite <- P2_add. apply P2_le. lia.
    + right. assert (Hlt : Zpos p < 2 ^ 53) by lia.
      pose proof (digits2_pos_upper p 53 ltac:(lia) Hlt) as Hd.
      assert (Hd' : 2 ^ 52 <= Zpos p -> Zpos (digits2_pos p) = 53).
      { intros H. pose proof (digits2_pos_lower p 52 ltac:(lia) H). lia. }
      replace (Z.max (_ + E - 53) (-1074) - E) with 0 by lia.
      cbn [shr shr_m]. cbv beta iota.
      destruct (Z.leb_spec E 971) as [Hle|Hgt].
      * left. eexists _, _. split; [reflexivity|]. split.
        -- apply bounded_spec. split; [|lia]. apply canonical_spec. lia.
        -- reflexivity.
      * right. split; [reflexivity|].
        destruct Hnorm as [Hn|Hn]; [|lia].
        apply Rle_trans with (IZR (2 ^ 52) * P2 E)%R.
        -- rewrite <- P2_Z by lia. rewrite <- P2_add. apply P2_le. lia.
        -- apply Rmult_le_compat_r; [left; apply P2_pos | apply IZR_le; exact Hn].
Qed.

(** [binary_round_aux] on an exact positive input whose exponent is not
    above the one of its format: the mantissa is divided by a power of
    two, rounded to the quotient or the quotient plus one (to the
    quotient when nothing is left over) and put at the exponent [E] of
    the format. *)
Lemma binary_round_aux_spec (m : positive) (e : Z) :
  let E := fexp prec emax (Zpos (digits2_pos m) + e) in
  e <= E ->
  exists m1 : Z,
    Zpos m / 2 ^ (E - e) <= m1 <= Zpos m / 2 ^ (E - e) + 1
    /\ (Zpos m mod 2 ^ (E - e) = 0 -> m1 = Zpos m / 2 ^ (E - e))
    /\ -1074 <= E
    /\ (2 ^ 52 <= Zpos m / 2 ^ (E - e) \/ E = -1074)
    /\ rounded m1 E (binary_round_aux prec emax false (Zpos m) e loc_Exact).
Proof.
  intros E HE. unfold binary_round_aux.
  unfold shr_fexp at 1. cbn [Zdigits2 shr_record_of_loc]. fold E.
  pose proof (shr_spec (Zpos m) e (E - e) ltac:(lia) ltac:(lia)) as Hshr.
  cbn zeta in Hshr. destruct (shr _ e (E - e)) as [mrs' e'].
  cbn [fst snd] in Hshr. destruct Hshr as (He' & Hq & Hex).
  replace (e + (E - e)) with E in He' by lia. subst e'.
  pose proof (round_nearest_even_spec mrs') as Hr. cbn zeta in Hr.
  set (m1 := round_nearest_even (shr_m mrs') (loc_of_shr_record mrs')) in *.
  rewrite Hq in Hr. destruct Hr as [Hr1 Hr2].
  set (n := E - e) in *. set (q := Zpos m / 2 ^ n) in *.
  assert (Hpow : 0 < 2 ^ n) by (apply Z.pow_pos_nonneg; lia).
  destruct (digits2_pos_spec m) as [Hdl Hdu].
  set (d := Zpos (digits2_pos m)) in *.
  assert (HE1 : -1074 <= E) by (unfold E; rewrite fexp_spec; lia).
  assert (Hq0 : 0 <= q) by (apply Z.div_pos; lia).
  assert (Hqu : q < 2 ^ 53).
  { apply Z.div_lt_upper_bound; [lia|]. rewrite <- Z.pow_add_r by lia.
    apply Z.lt_le_trans with (2 ^ d); [exact Hdu|].
    apply Z.pow_le_mono_r; [lia|]. unfold n, E. rewrite fexp_spec. lia. }
  assert (Hql : 2 ^ 52 <= q \/ E = -1074).
  { destruct (Z.eq_dec E (-1074)) as [|Hne]; [right; assumption|left].
    assert (Hn : n = d - 53) by (unfold n, E in *; rewrite fexp_spec in *; lia).
    apply Z.div_le_lower_bound; [lia|]. rewrite <- Z.pow_add_r by lia.
    replace (n + 52) with (d - 1) by lia. exact Hdl. }
  exists m1. split; [exact Hr1|]. split; [intros H; apply Hr2, Hex, H|].
  split; [exact HE1|]. split; [exact Hql|].
  apply second_stage; [exact HE1 | lia | destruct Hql; [left; lia | right; assumption]].
Qed.

Lemma B2R_finite (m : positive) (e : Z) : B2R (S754_finite false m e) = val m e.
Proof. unfold B2R, val. lra. Qed.

Lemma val_scale (mf : positive) (ef E : Z) :
  E <= ef -> val mf ef = (IZR (Zpos mf * 2 ^ (ef - E)) * P2 E)%R.
Proof.
  intros H. unfold val. replace ef with ((ef - E) + E) at 1 by lia.
  rewrite P2_add, P2_Z, mult_IZR by lia. lra.
Qed.

Lemma val_lt_top (mf : positive) (ef : Z) :
  canonical_mantissa prec emax mf ef = true -> (val mf ef < P2 (53 + ef))%R.
Proof.
  intros Hc. apply canonical_spec in Hc. destruct Hc as (Hd & _ & _).
  pose proof (val_upper mf ef).
  pose proof (P2_le (Zpos (digits2_pos mf) + ef) (53 + ef) ltac:(lia)). lra.
Qed.

Lemma IZR_P2_le (a b : Z) (e : Z) : (IZR a * P2 e <= IZR b * P2 e)%R <-> a <= b.
Proof.
  pose proof (P2_pos e). split.
  - intros H1. apply Rmult_le_reg_r in H1; [|assumption]. apply le_IZR. exact H1.
  - intros H1. apply Rmult_le_compat_r; [lra | apply IZR_le; exact H1].
Qed.

Lemma P2_split (e E : Z) : e <= E -> P2 E = (IZR (2 ^ (E - e)) * P2 e)%R.
Proof.
  intros H. rewrite <- P2_Z, <- P2_add by lia. f_equal. lia.
Qed.

Lemma scale_le (K m e E : Z) :
  e <= E -> (IZR K * P2 E <= IZR m * P2 e)%R -> K * 2 ^ (E - e) <= m.
Proof.
  intros H Hle. rewrite (P2_split e E H), <- Rmult_assoc, <- mult_IZR in Hle.
  apply IZR_P2_le in Hle. exact Hle.
Qed.

Lemma scale_ge (K m e E : Z) :
  e <= E -> (IZR m * P2 e <= IZR K * P2 E)%R -> m <= K * 2 ^ (E - e).
Proof.
  intros H Hle. rewrite (P2_split e E H), <- Rmult_assoc, <- mult_IZR in Hle.
  apply IZR_P2_le in Hle. exact Hle.
Qed.

(** The quotient of the first stage is not below a double that is
    not above the input. *)
Lemma floor_low (m mf : positive) (e ef E : Z) :
  e <= E -> bounded prec emax mf ef = true ->
  (2 ^ 52 <= Zpos m / 2 ^ (E - e) \/ E = -1074) ->
  (val mf ef <= val m e)%R ->
  (val mf ef <= IZR (Zpos m / 2 ^ (E - e)) * P2 E)%R.
Proof.
  intros HE Hb Hq Hle. apply bounded_spec in Hb. destruct Hb as [Hc Hef].
  pose proof Hc as Hc'. apply canonical_spec in Hc'. destruct Hc' as (Hd & Hef1 & _).
  assert (Hpow : 0 < 2 ^ (E - e)) by (apply Z.pow_pos_nonneg; lia).
  destruct (Z.le_gt_cases E ef) as [Hcase|Hcase].
  - rewrite (val_scale mf ef E Hcase) in *. apply IZR_P2_le.
    apply Z.div_le_lower_bound; [lia|].
    apply scale_le in Hle; lia.
  - destruct Hq as [Hq|Hq]; [|lia].
    pose proof (val_lt_top mf ef Hc). pose proof (P2_le (53 + ef) (52 + E) ltac:(lia)).
    rewrite (P2_add 52 E), (P2_Z 52) in H0 by lia.
    pose proof (proj2 (IZR_P2_le _ _ E) Hq). lra.
Qed.

(** The rounded mantissa is not above a double that is not below the
    input. *)
Lemma floor_high (m mf : positive) (e ef E m1 : Z) :
  e <= E -> bounded prec emax mf ef = true ->
  (2 ^ 52 <= Zpos m / 2 ^ (E - e) \/ E = -1074) ->
  m1 <= Zpos m / 2 ^ (E - e) + 1 ->
  (Zpos m mod 2 ^ (E - e) = 0 -> m1 = Zpos m / 2 ^ (E - e)) ->
  (val m e <= val mf ef)%R ->
  (IZR m1 * P2 E <= val mf ef)%R.
Proof.
  intros HE Hb Hq Hm1 Hex Hle. apply bounded_spec in Hb. destruct Hb as [Hc Hef].
  pose proof Hc as Hc'. apply canonical_spec in Hc'. destruct Hc' as (Hd & Hef1 & _).
  assert (Hpow : 0 < 2 ^ (E - e)) by (apply Z.pow_pos_nonneg; lia).
  pose proof (Z.div_mod (Zpos m) (2 ^ (E - e)) ltac:(lia)) as Hdm.
  pose proof (Z.mod_pos_bound (Zpos m) (2 ^ (E - e)) Hpow) as Hmod.
  set (q := Zpos m / 2 ^ (E - e)) in *. set (r := Zpos m mod 2 ^ (E - e)) in *.
  destruct (Z.le_gt_cases E ef) as [Hcase|Hcase].
  - rewrite (val_scale mf ef E Hcase) in *. apply IZR_P2_le.
    set (K := Zpos mf * 2 ^ (ef - E)) in *.
    apply scale_ge in Hle; [|lia].
    destruct (Z.eq_dec r 0) as [Hr|Hr].
    + rewrite (Hex Hr). apply Z.mul_le_mono_pos_l with (2 ^ (E - e)); lia.
    + assert (q < K); [|lia].
      apply Z.mul_lt_mono_pos_l with (2 ^ (E - e)); lia.
  - exfalso. destruct Hq as [Hq|Hq]; [|lia].
    pose proof (val_lt_top mf ef Hc). pose proof (P2_le (53 + ef) (52 + E) ltac:(lia)).
    rewrite (P2_add 52 E), (P2_Z 52) in H0 by lia.
    pose proof (proj2 (IZR_P2_le _ _ E) Hq).
    assert (IZR q * P2 E <= val m e)%R; [|lra].
    unfold val. rewrite (P2_split e E HE), <- Rmult_assoc, <- mult_IZR.
    apply IZR_P2_le. lia.
Qed.

Lemma rounded_nonneg (m1 E : Z) (r : spec_float) :
  rounded m1 E r -> r = S754_infinity false \/ nonneg_finite r.
Proof.
  intros [[_ ->]|[(p & e' & -> & Hb & _)|[-> _]]]; [right; exact I | right; exact Hb | left; reflexivity].
Qed.

(** Rounding keeps to the side of every double the exact value is
    on: below. *)
Lemma round_aux_low (m : positive) (e : Z) (f : spec_float) :
  e <= fexp prec emax (Zpos (digits2_pos m) + e) ->
  nonneg_finite f -> (B2R f <= val m e)%R ->
  let r := binary_round_aux prec emax false (Zpos m) e loc_Exact in
  r = S754_infinity false \/ (nonneg_finite r /\ (B2R f <= B2R r)%R).
Proof.
  intros HE Hf Hle r.
  destruct (binary_round_aux_spec m e HE) as (m1 & Hm1 & Hex & HE1 & Hq & Hr).
  fold r in Hr. set (E := fexp prec emax _) in *.
  destruct f as [s|s| |[|] mf ef]; try contradiction.
  - destruct (rounded_nonneg _ _ _ Hr) as [Hi|Hn]; [left; exact Hi | right].
    split; [exact Hn | apply nonneg_finite_B2R; exact Hn].
  - simpl in Hf. rewrite B2R_finite in *.
    pose proof (floor_low m mf e ef E HE Hf Hq Hle) as Hfl.
    assert (Hm1' : (val mf ef <= IZR m1 * P2 E)%R).
    { pose proof (proj2 (IZR_P2_le _ _ E) (proj1 Hm1)). lra. }
    pose proof (val_pos mf ef) as Hpos.
    destruct Hr as [[H0 _]|[(p & e' & Hp & Hb & Hv)|[Hi _]]].
    + subst m1. lra.
    + right. rewrite Hp. split; [exact Hb|]. rewrite B2R_finite, Hv. exact Hm1'.
    + left. exact Hi.
Qed.

(** ... and above. *)
Lemma round_aux_high (m : positive) (e : Z) (f : spec_float) :
  e <= fexp prec emax (Zpos (digits2_pos m) + e) ->
  nonneg_finite f -> (val m e <= B2R f)%R ->
  let r := binary_round_aux prec emax false (Zpos m) e loc_Exact in
  nonneg_finite r /\ (B2R r <= B2R f)%R.
Proof.
  intros HE Hf Hle r.
  destruct (binary_round_aux_spec m e HE) as (m1 & Hm1 & Hex & HE1 & Hq & Hr).
  fold r in Hr. set (E := fexp prec emax _) in *.
  pose proof (val_pos m e) as Hpos.
  destruct f as [s|s| |[|] mf ef]; try contradiction; [simpl in Hle; lra|].
  simpl in Hf. rewrite B2R_finite in *.
  pose proof (floor_high m mf e ef E m1 HE Hf Hq (proj2 Hm1) Hex Hle) as Hfh.
  destruct Hr as [[H0 Hz]|[(p & e' & Hp & Hb & Hv)|[Hi Hbig]]].
  - rewrite Hz. split; [exact I|]. simpl. pose proof (val_pos mf ef). lra.
  - rewrite Hp. split; [exact Hb|]. rewrite B2R_finite, Hv. exact Hfh.
  - exfalso. apply bounded_spec in Hf. destruct Hf as [Hc Hef].
    pose proof (val_lt_top mf ef Hc). pose proof (P2_le (53 + ef) 1024 ltac:(lia)). lra.
Qed.

(** Shifting a mantissa to the left. *)
Lemma iter_xO (m d : positive) : Zpos (Pos.iter xO m d) = Zpos m * 2 ^ Zpos d.
Proof.
  rewrite (Pos.iter_swap_gen _ _ Zpos xO (Z.mul 2)) by reflexivity.
  rewrite <- Z.shiftl_mul_pow2 by lia. reflexivity.
Qed.

Lemma digits2_pos_unique (m : positive) (j : Z) :
  2 ^ (j - 1) <= Zpos m < 2 ^ j -> 1 <= j -> Zpos (digits2_pos m) = j.
Proof.
  intros [Hl Hu] Hj.
  pose proof (digits2_pos_lower m (j - 1) ltac:(lia) Hl).
  pose proof (digits2_pos_upper m j ltac:(lia) Hu). lia.
Qed.

Lemma digits2_pos_shift (m d : positive) :
  Zpos (digits2_pos (Pos.iter xO m d)) = Zpos (digits2_pos m) + Zpos d.
Proof.
  apply digits2_pos_unique; [|lia]. rewrite iter_xO.
  destruct (digits2_pos_spec m) as [Hl Hu].
  assert (Hpow : 0 < 2 ^ Zpos d) by (apply Z.pow_pos_nonneg; lia).
  replace (Zpos (digits2_pos m) + Zpos d - 1) with (Zpos (digits2_pos m) - 1 + Zpos d) by lia.
  rewrite !Z.pow_add_r by lia. split.
  - apply Z.mul_le_mono_pos_r; assumption.
  - apply Z.mul_lt_mono_pos_r; assumption.
Qed.

Lemma shl_align_val (m : positive) (e e' : Z) :
  e' <= e ->
  snd (shl_align m e e') = e' /\ val (fst (shl_align m e e')) e' = val m e.
Proof.
  intros H. unfold shl_align. destruct (e' - e) as [|d|d] eqn:Hd; [| lia |]; cbn [fst snd].
  - assert (e' = e) by lia. subst e'. split; reflexivity.
  - split; [reflexivity|]. unfold val. rewrite iter_xO, mult_IZR.
    replace e with (Zpos d + e') by lia. rewrite P2_add, (P2_Z (Zpos d)) by lia. lra.
Qed.

(** [binary_round] prepares its input for [binary_round_aux]. *)
Lemma binary_round_reduce (m : positive) (e : Z) :
  exists (m' : positive) (e' : Z),
    binary_round prec emax false m e
    = binary_round_aux prec emax false (Zpos m') e' loc_Exact
    /\ val m' e' = val m e
    /\ e' <= fexp prec emax (Zpos (digits2_pos m') + e').
Proof.
  unfold binary_round. set (E := fexp prec emax (Zpos (digits2_pos m) + e)).
  unfold shl_align. destruct (E - e) as [|d|d] eqn:Hd.
  - exists m, e. split; [reflexivity|]. split; [reflexivity|]. fold E. lia.
  - exists m, e. split; [reflexivity|]. split; [reflexivity|]. fold E. lia.
  - exists (Pos.iter xO m d), E. split; [reflexivity|]. split.
    + unfold val. rewrite iter_xO, mult_IZR.
      replace e with (Zpos d + E) by lia. rewrite P2_add, (P2_Z (Zpos d)) by lia. lra.
    + rewrite digits2_pos_shift.
      replace (Zpos (digits2_pos m) + Zpos d + E) with (Zpos (digits2_pos m) + e) by lia.
      fold E. lia.
Qed.

Lemma binary_round_low (m : positive) (e : Z) (f : spec_float) :
  nonneg_finite f -> (B2R f <= val m e)%R ->
  let r := binary_round prec emax false m e in
  r = S754_infinity false \/ (nonneg_finite r /\ (B2R f <= B2R r)%R).
Proof.
  intros Hf Hle. destruct (binary_round_reduce m e) as (m' & e' & -> & Hv & HE).
  apply round_aux_low; [exact HE | exact Hf | rewrite Hv; exact Hle].
Qed.

Lemma binary_round_high (m : positive) (e : Z) (f : spec_float) :
  nonneg_finite f -> (val m e <= B2R f)%R ->
  let r := binary_round prec emax false m e in
  nonneg_finite r /\ (B2R r <= B2R f)%R.
Proof.
  intros Hf Hle. destruct (binary_round_reduce m e) as (m' & e' & -> & Hv & HE).
  apply round_aux_high; [exact HE | exact Hf | rewrite Hv; exact Hle].
Qed.

(** The product of two canonical mantissas is not below its format. *)
Lemma mul_exponent (mx my : positive) (ex ey : Z) :
  canonical_mantissa prec emax mx ex = true ->
  canonical_mantissa prec emax my ey = true ->
  ex + ey <= fexp prec emax (Zpos (digits2_pos (mx * my)) + (ex + ey)).
Proof.
  rewrite !canonical_spec, fexp_spec. intros (Hdx & Hex & Hnx) (Hdy & Hey & Hny).
  destruct (digits2_pos_spec mx) as [Hlx _]. destruct (digits2_pos_spec my) as [Hly _].
  assert (Hd : Zpos (digits2_pos mx) + Zpos (digits2_pos my) - 1
               <= Zpos (digits2_pos (mx * my))).
  { pose proof (digits2_pos_lower (mx * my)
                  (Zpos (digits2_pos mx) - 1 + (Zpos (digits2_pos my) - 1))) as H.
    rewrite Z.pow_add_r, Pos2Z.inj_mul in H by lia.
    assert (0 < 2 ^ (Zpos (digits2_pos mx) - 1)) by (apply Z.pow_pos_nonneg; lia).
    assert (0 < 2 ^ (Zpos (digits2_pos my) - 1)) by (apply Z.pow_pos_nonneg; lia).
    specialize (H ltac:(lia) ltac:(apply Z.mul_le_mono_nonneg; lia)). lia. }
  lia.
Qed.

Lemma SFmul_finite (mx my : positive) (ex ey : Z) :
  SFmul prec emax (S754_finite false mx ex) (S754_finite false my ey)
  = binary_round_aux prec emax false (Zpos (mx * my)) (ex + ey) loc_Exact.
Proof. reflexivity. Qed.

Lemma val_mul (mx my : positive) (ex ey : Z) :
  val (mx * my) (ex + ey) = (val mx ex * val my ey)%R.
Proof. unfold val. rewrite P2_add, Pos2Z.inj_mul, mult_IZR. lra. Qed.

Lemma SFmul_low (x y f : spec_float) :
  nonneg_finite x -> nonneg_finite y -> nonneg_finite f ->
  (B2R f <= B2R x * B2R y)%R ->
  SFmul prec emax x y = S754_infinity false
  \/ (nonneg_finite (SFmul prec emax x y) /\ (B2R f <= B2R (SFmul prec emax x y))%R).
Proof.
  intros Hx Hy Hf Hle.
  destruct x as [sx|sx| |[|] mx ex]; try contradiction;
    destruct y as [sy|sy| |[|] my ey]; try contradiction;
    try (right; split; [exact I | simpl in *; lra]).
  simpl in Hx, Hy. rewrite !B2R_finite, <- val_mul in Hle. rewrite SFmul_finite.
  apply bounded_spec in Hx, Hy. destruct Hx as [Hx _], Hy as [Hy _].
  apply round_aux_low; [apply mul_exponent; assumption | exact Hf | exact Hle].
Qed.

Lemma SFmul_high (x y f : spec_float) :
  nonneg_finite x -> nonneg_finite y -> nonneg_finite f ->
  (B2R x * B2R y <= B2R f)%R ->
  nonneg_finite (SFmul prec emax x y) /\ (B2R (SFmul prec emax x y) <= B2R f)%R.
Proof.
  intros Hx Hy Hf Hle. pose proof (nonneg_finite_B2R f Hf) as Hf0.
  destruct x as [sx|sx| |[|] mx ex]; try contradiction;
    destruct y as [sy|sy| |[|] my ey]; try contradiction;
    try (split; [exact I | simpl in *; lra]).
  simpl in Hx, Hy. rewrite !B2R_finite, <- val_mul in Hle. rewrite SFmul_finite.
  apply bounded_spec in Hx, Hy. destruct Hx as [Hx _], Hy as [Hy _].
  apply round_aux_high; [apply mul_exponent; assumption | exact Hf | exact Hle].
Qed.

Lemma SFadd_finite (mx my : positive) (ex ey : Z) :
  exists s : positive,
    SFadd prec emax (S754_finite false mx ex) (S754_finite false my ey)
    = binary_round prec emax false s (Z.min ex ey)
    /\ val s (Z.min ex ey) = (val mx ex + val my ey)%R.
Proof.
  destruct (shl_align_val mx ex (Z.min ex ey) ltac:(lia)) as [_ Hvx].
  destruct (shl_align_val my ey (Z.min ex ey) ltac:(lia)) as [_ Hvy].
  exists (fst (shl_align mx ex (Z.min ex ey)) + fst (shl_align my ey (Z.min ex ey)))%positive.
  split; [reflexivity|].
  rewrite <- Hvx, <- Hvy. unfold val. rewrite Pos2Z.inj_add, plus_IZR. lra.
Qed.

Lemma SFadd_low (x y f : spec_float) :
  nonneg_finite x -> nonneg_finite y -> nonneg_finite f ->
  (B2R f <= B2R x + B2R y)%R ->
  SFadd prec emax x y = S754_infinity false
  \/ (nonneg_finite (SFadd prec emax x y) /\ (B2R f <= B2R (SFadd prec emax x y))%R).
Proof.
  intros Hx Hy Hf Hle.
  destruct x as [sx|sx| |[|] mx ex]; try contradiction;
    destruct y as [sy|sy| |[|] my ey]; try contradiction.
  - right. destruct sx, sy; simpl in *; (split; [exact I | lra]).
  - right. split; [exact Hy|]. simpl in *. lra.
  - right. split; [exact Hx|]. simpl in *. lra.
  - destruct (SFadd_finite mx my ex ey) as (s & -> & Hv).
    rewrite !B2R_finite, <- Hv in Hle. apply binary_round_low; assumption.
Qed.

Lemma SFadd_high (x y f : spec_float) :
  nonneg_finite x -> nonneg_finite y -> nonneg_finite f ->
  (B2R x + B2R y <= B2R f)%R ->
  nonneg_finite (SFadd prec emax x y) /\ (B2R (SFadd prec emax x y) <= B2R f)%R.
Proof.
  intros Hx Hy Hf Hle.
  destruct x as [sx|sx| |[|] mx ex]; try contradiction;
    destruct y as [sy|sy| |[|] my ey]; try contradiction.
  - destruct sx, sy; simpl in *; (split; [exact I | lra]).
  - split; [exact Hy|]. simpl in *. lra.
  - split; [exact Hx|]. simpl in *. lra.
  - destruct (SFadd_finite mx my ex ey) as (s & -> & Hv).
    rewrite !B2R_finite, <- Hv in Hle. apply binary_round_high; assumption.
Qed.

Lemma nonneg_finite_valid (x : spec_float) : nonneg_finite x -> valid_binary x = true.
Proof. destruct x as [s|s| |[|] m e]; simpl; try contradiction; auto. Qed.

Lemma is_nonneg_SF2Prim (x : spec_float) :
  nonneg_finite x -> is_nonneg (SF2Prim x) /\ to_R (SF2Prim x) = B2R x.
Proof.
  intros H. unfold is_nonneg, to_R.
  rewrite (Prim2SF_SF2Prim x (nonneg_finite_valid x H)). split; [exact H | reflexivity].
Qed.

Lemma to_R_nonneg (x : float) : is_nonneg x -> (0 <= to_R x)%R.
Proof. apply nonneg_finite_B2R. Qed.

Lemma mul_high (x y : float) (f : spec_float) :
  is_nonneg x -> is_nonneg y -> nonneg_finite f -> (to_R x * to_R y <= B2R f)%R ->
  is_nonneg (PrimFloat.mul x y) /\ (to_R (PrimFloat.mul x y) <= B2R f)%R.
Proof.
  unfold is_nonneg, to_R. rewrite mul_spec. apply SFmul_high.
Qed.

Lemma mul_low (x y : float) (f : spec_float) :
  is_nonneg x -> is_nonneg y -> nonneg_finite f -> (B2R f <= to_R x * to_R y)%R ->
  is_nonneg (PrimFloat.mul x y) -> (B2R f <= to_R (PrimFloat.mul x y))%R.
Proof.
  unfold is_nonneg, to_R. rewrite mul_spec. intros Hx Hy Hf Hle Hr.
  destruct (SFmul_low _ _ f Hx Hy Hf Hle) as [Hi|[_ H]]; [|exact H].
  unfold SF64mul in Hr. rewrite Hi in Hr. contradiction.
Qed.

Lemma add_high (x y : float) (f : spec_float) :
  is_nonneg x -> is_nonneg y -> nonneg_finite f -> (to_R x + to_R y <= B2R f)%R ->
  is_nonneg (PrimFloat.add x y) /\ (to_R (PrimFloat.add x y) <= B2R f)%R.
Proof.
  unfold is_nonneg, to_R. rewrite add_spec. apply SFadd_high.
Qed.

Lemma add_low (x y : float) (f : spec_float) :
  is_nonneg x -> is_nonneg y -> nonneg_finite f -> (B2R f <= to_R x + to_R y)%R ->
  is_nonneg (PrimFloat.add x y) -> (B2R f <= to_R (PrimFloat.add x y))%R.
Proof.
  unfold is_nonneg, to_R. rewrite add_spec. intros Hx Hy Hf Hle Hr.
  destruct (SFadd_low _ _ f Hx Hy Hf Hle) as [Hi|[_ H]]; [|exact H].
  unfold SF64add in Hr. rewrite Hi in Hr. contradiction.
Qed.

Lemma ltb_to_R (x y : float) :
  is_nonneg x -> is_nonneg y -> (PrimFloat.ltb x y = true <-> (to_R x < to_R y)%R).
Proof. unfold is_nonneg, to_R. rewrite ltb_spec. apply SFltb_nonneg. Qed.

Lemma P2_inv (e : Z) : (P2 e * P2 (- e))%R = 1%R.
Proof. rewrite <- P2_add. replace (e + - e) with 0 by lia. reflexivity. Qed.

Lemma one_value : is_nonneg 1%float /\ to_R 1%float = 1%R.
Proof.
  split; [reflexivity|]. unfold to_R.
  change (Prim2SF 1) with (S754_finite false 4503599627370496 (-52)).
  rewrite B2R_finite. unfold val. change (Z.pos 4503599627370496) with (2 ^ 52).
  rewrite <- P2_Z by lia. apply (P2_inv 52).
Qed.

Lemma tenth_value : is_nonneg retry.tenth /\ (to_R retry.tenth <= 1)%R.
Proof.
  assert (H : is_nonneg retry.tenth) by reflexivity. split; [exact H|].
  destruct one_value as [H1 <-]. apply SFleb_nonneg; [exact H | exact H1 | reflexivity].
Qed.

(** What [rand.Float64] returns: a double in [0, 1). *)
Lemma unit_draw (r : float) :
  PrimFloat.leb 0 r = true -> PrimFloat.ltb r 1 = true ->
  is_nonneg r /\ (to_R r < 1)%R.
Proof.
  rewrite leb_spec, ltb_spec. intros H0 H1.
  assert (Hn : is_nonneg r).
  { unfold is_nonneg. pose proof (Prim2SF_valid r) as Hv.
    change (Prim2SF 0) with (S754_zero false) in H0.
    change (Prim2SF 1) with (S754_finite false 4503599627370496 (-52)) in H1.
    destruct (Prim2SF r) as [s|[|]| |[|] m e]; simpl in *; try discriminate;
      try exact I; exact Hv. }
  split; [exact Hn|]. destruct one_value as [Ho <-].
  apply SFltb_nonneg; assumption.
Qed.

Lemma pow2_value (j : Z) :
  0 <= j <= 1023 -> is_nonneg (pow2 j) /\ to_R (pow2 j) = P2 j.
Proof.
  intros Hj. unfold pow2.
  assert (Hb : nonneg_finite (S754_finite false 4503599627370496 (j - 52))).
  { simpl. apply bounded_spec. split; [|lia]. apply canonical_spec. simpl. lia. }
  destruct (is_nonneg_SF2Prim _ Hb) as [H1 H2]. split; [exact H1|].
  rewrite H2, B2R_finite. unfold val. change (Z.pos 4503599627370496) with (2 ^ 52).
  rewrite <- P2_Z, <- P2_add by lia. f_equal. lia.
Qed.

(** A double between 1 and [2^64] times a power of two up to [2^960]
    is a double. *)
Lemma scale_representable (x : spec_float) (j : Z) :
  nonneg_finite x -> (1 <= B2R x < P2 64)%R -> 0 <= j <= 960 ->
  exists f : spec_float, nonneg_finite f /\ B2R f = (B2R x * P2 j)%R.
Proof.
  intros Hx [Hl Hu] Hj.
  destruct x as [s|s| |[|] m e]; try contradiction; [simpl in Hl; lra|].
  simpl in Hx. rewrite B2R_finite in *. apply bounded_spec in Hx. destruct Hx as [Hc He].
  pose proof Hc as Hc'. apply canonical_spec in Hc'. destruct Hc' as (Hd & He1 & Hn).
  pose proof (val_upper m e) as Hvu. pose proof (val_lower m e) as Hvl.
  assert (Hd53 : Zpos (digits2_pos m) = 53).
  { destruct Hn as [Hn|Hn]; [exact Hn|].
    destruct (Z.eq_dec (Zpos (digits2_pos m)) 53) as [|Hne]; [assumption|exfalso].
    pose proof (P2_le (Zpos (digits2_pos m) + e) 0 ltac:(lia)) as H.
    change (P2 0) with 1%R in H. lra. }
  assert (He11 : e <= 11).
  { destruct (Z.le_gt_cases e 11) as [|Hgt]; [assumption|exfalso].
    pose proof (P2_le 64 (Zpos (digits2_pos m) - 1 + e) ltac:(lia)). lra. }
  exists (S754_finite false m (e + j)). split.
  - simpl. apply bounded_spec. split; [|lia]. apply canonical_spec. lia.
  - rewrite B2R_finite. unfold val. rewrite P2_add. lra.
Qed.

(** The integers up to [2^53] are doubles. *)
Lemma int_representable (n : Z) :
  1 <= n <= 2 ^ 53 ->
  exists f : spec_float, nonneg_finite f /\ B2R f = IZR n.
Proof.
  intros Hn. destruct n as [|p|p]; try lia.
  destruct (Z.eq_dec (Zpos p) (2 ^ 53)) as [Htop|Htop].
  - exists (S754_finite false 4503599627370496 1). split; [reflexivity|].
    rewrite B2R_finite, Htop. unfold val. change (Z.pos 4503599627370496) with (2 ^ 52).
    rewrite <- !P2_Z, <- P2_add by lia. reflexivity.
  - assert (Hlt : Zpos p < 2 ^ 53) by lia.
    pose proof (digits2_pos_upper p 53 ltac:(lia) Hlt) as Hd.
    destruct (Z.eq_dec (Zpos (digits2_pos p)) 53) as [H53|H53].
    + exists (S754_finite false p 0). split.
      * simpl. apply bounded_spec. split; [|lia]. apply canonical_spec. lia.
      * rewrite B2R_finite. unfold val. change (P2 0) with 1%R. lra.
    + destruct (53 - Zpos (digits2_pos p)) as [|k|k] eqn:Hk; try lia.
      exists (S754_finite false (Pos.iter xO p k) (- Zpos k)). split.
      * simpl. apply bounded_spec. split; [|lia]. apply canonical_spec.
        rewrite digits2_pos_shift. lia.
      * rewrite B2R_finite. unfold val. rewrite iter_xO, mult_IZR, <- P2_Z by lia.
        rewrite Rmult_assoc, P2_inv. lra.
Qed.

Lemma float64_of_int_zero : retry.float64_of_int 0 = 0%float.
Proof. reflexivity. Qed.

Lemma float64_of_int_bounds (n : Z) :
  1 <= n <= Go.max_int ->
  is_nonneg (retry.float64_of_int n)
  /\ (1 <= to_R (retry.float64_of_int n) < P2 64)%R.
Proof.
  intros Hn. unfold retry.float64_of_int. destruct n as [|p|p]; try lia.
  cbn [binary_normalize].
  assert (Hv : val p 0 = IZR (Zpos p)) by (unfold val; change (P2 0) with 1%R; lra).
  pose (top := S754_finite false 4503599627370496 11).
  assert (Htop : nonneg_finite top) by reflexivity.
  assert (Htv : B2R top = P2 63).
  { unfold top. rewrite B2R_finite. unfold val. change (Z.pos 4503599627370496) with (2 ^ 52).
    rewrite <- P2_Z, <- P2_add by lia. reflexivity. }
  destruct (binary_round_high p 0 top Htop) as [Hnn Hhi].
  { rewrite Hv, Htv, P2_Z by lia. apply IZR_le. unfold Go.max_int in Hn. lia. }
  destruct (is_nonneg_SF2Prim _ Hnn) as [H1 H2]. split; [exact H1|]. rewrite H2. split.
  - destruct one_value as [Ho Hov]. unfold is_nonneg, to_R in Ho, Hov. rewrite <- Hov.
    destruct (binary_round_low p 0 (Prim2SF 1) Ho) as [Hi|[_ H]]; [| |exact H].
    + rewrite Hv, Hov. apply IZR_le. lia.
    + rewrite Hi in Hnn. contradiction.
  - pose proof (P2_lt 63 64 ltac:(lia)). lra.
Qed.

Lemma float64_of_int_exact (n : Z) :
  1 <= n <= 2 ^ 53 ->
  is_nonneg (retry.float64_of_int n) /\ to_R (retry.float64_of_int n) = IZR n.
Proof.
  intros Hn. destruct (int_representable n Hn) as (f & Hf & Hfv).
  unfold retry.float64_of_int. destruct n as [|p|p]; try lia. cbn [binary_normalize].
  assert (Hv : val p 0 = IZR (Zpos p)) by (unfold val; change (P2 0) with 1%R; lra).
  destruct (binary_round_high p 0 f Hf) as [Hnn Hhi]; [rewrite Hv, Hfv; lra|].
  destruct (is_nonneg_SF2Prim _ Hnn) as [H1 H2]. split; [exact H1|]. rewrite H2.
  destruct (binary_round_low p 0 f Hf) as [Hi|[_ H]]; [rewrite Hv, Hfv; lra | |].
  - rewrite Hi in Hnn. contradiction.
  - rewrite Hfv in *. lra.
Qed.

(** [time.Duration(f)] truncates. *)
Lemma Duration_of_float64_floor (x : float) (M : Z) :
  is_nonneg x -> (to_R x <= IZR M)%R -> M <= Go.max_int ->
  exists d : Z,
    retry.Duration_of_float64 x = Some d /\ 0 <= d <= M
    /\ (IZR d <= to_R x < IZR d + 1)%R.
Proof.
  unfold is_nonneg, to_R, retry.Duration_of_float64. intros Hx Hle HM.
  destruct (Prim2SF x) as [s|s| |[|] m e]; try contradiction.
  - exists 0. simpl in Hle. apply le_IZR in Hle. simpl. repeat split; try lia; lra.
  - rewrite B2R_finite in *. cbv zeta.
    set (mag := match e with Z0 => Zpos m | Zpos p => Zpos m * 2 ^ Zpos p
                           | Zneg p => Zpos m / 2 ^ Zpos p end).
    assert (Hmag : 0 <= mag /\ (IZR mag <= val m e < IZR mag + 1)%R).
    { unfold mag, val. destruct e as [|p|p].
      - change (P2 0) with 1%R. split; [lia | lra].
      - rewrite (P2_Z (Zpos p)), <- mult_IZR by lia. split; [lia | lra].
      - assert (Hpow : 0 < 2 ^ Zpos p) by (apply Z.pow_pos_nonneg; lia).
        pose proof (Z.div_mod (Zpos m) (2 ^ Zpos p) ltac:(lia)) as Hdm.
        pose proof (Z.mod_pos_bound (Zpos m) (2 ^ Zpos p) Hpow) as Hmod.
        set (q := Zpos m / 2 ^ Zpos p) in *.
        split; [apply Z.div_pos; lia|].
        pose proof (P2_inv (Zpos p)) as Hinv. rewrite (P2_Z (Zpos p)) in Hinv by lia.
        change (- Zpos p) with (Zneg p) in Hinv.
        pose proof (P2_pos (Zneg p)) as Hpp.
        assert (H1 : (IZR q * IZR (2 ^ Zpos p) <= IZR (Zpos m))%R)
          by (rewrite <- mult_IZR; apply IZR_le; lia).
        assert (H2 : (IZR (Zpos m) < (IZR q + 1) * IZR (2 ^ Zpos p))%R).
        { rewrite <- (plus_IZR q 1), <- mult_IZR. apply IZR_lt. lia. }
        split.
        + replace (IZR q) with (IZR q * IZR (2 ^ Zpos p) * P2 (Zneg p))%R
            by (rewrite Rmult_assoc, Hinv; lra).
          apply Rmult_le_compat_r; lra.
        + replace (IZR q + 1)%R with ((IZR q + 1) * IZR (2 ^ Zpos p) * P2 (Zneg p))%R
            by (rewrite Rmult_assoc, Hinv; lra).
          apply Rmult_lt_compat_r; lra. }
    destruct Hmag as [Hm0 [Hm1 Hm2]].
    assert (HmM : mag <= M).
    { apply le_IZR. lra. }
    exists mag. split.
    + destruct (Z.leb_spec Go.min_int mag) as [_|H]; [|unfold Go.min_int in H; lia].
      destruct (Z.leb_spec mag Go.max_int) as [_|H]; [reflexivity | lia].
    + split; [lia | split; assumption].
Qed.

End Float64.

(** ** Retry helper *)

Section RetryProps.

Import retry float64.

Context {Err : Type}.
Variable errors_Is : Err -> Err -> bool.
Variable math_Pow : float -> float -> float.

Local Abbreviation retryable config e :=
  (isRetryableError errors_Is e (RetryableErrors config) = true).

Lemma delays_from_S (config : @RetryConfig Err) (rnd : Z -> float) (a : Z) (m : nat) :
  delays_from math_Pow config rnd a (S m)
  = calculateDelay math_Pow (rnd a) a config :: delays_from math_Pow config rnd (a + 1) m.
Proof.
  unfold delays_from. rewrite <- cons_seq, <- seq_shift. simpl.
  rewrite Z.add_0_r. f_equal. rewrite map_map. apply map_ext.
  intros j. replace (a + 1 + Z.of_nat j) with (a + Z.of_nat (S j)) by lia. reflexivity.
Qed.

Lemma delays_from_length (config : @RetryConfig Err) (rnd : Z -> float) (a : Z) (m : nat) :
  length (delays_from math_Pow config rnd a m) = m.
Proof. unfold delays_from. rewrite length_map, length_seq. reflexivity. Qed.

(** [m] retryable failures in a row, with attempts to spare: the loop
    goes round [m] times, invoking the operation and sleeping the
    computed delay each time. *)
Lemma loop_retries (ctx : @Ctx Err) (config : @RetryConfig Err) (fn : nat -> option Err)
    (rnd : Z -> float) (m : nat) :
  uncancelled ctx -> MaxAttempts config <= Go.max_int ->
  forall (fuel : nat) (attempt : Z) (lastErr : option Err) (calls : nat)
         (sl : list (option Go.Duration)) (hk : list (Z * Err)),
    1 <= attempt -> attempt + Z.of_nat m <= MaxAttempts config ->
    (forall j, (j < m)%nat -> exists e, fn (calls + j)%nat = Some e /\ retryable config e) ->
    (0 < m)%nat ->
    exists (e : Err) (hk' : list (Z * Err)),
      fn (calls + m - 1)%nat = Some e
      /\ length hk' = (length hk + m)%nat
      /\ loop errors_Is math_Pow ctx config fn rnd (m + fuel) attempt lastErr calls sl hk
         = loop errors_Is math_Pow ctx config fn rnd fuel (attempt + Z.of_nat m) (Some e)
             (calls + m) (sl ++ delays_from math_Pow config rnd attempt m) hk'.
Proof.
  intros Hctx Hmax. induction m as [|m IH];
    intros fuel attempt lastErr calls sl hk Ha Hm Hfn Hpos; [lia|].
  destruct (Hfn 0%nat ltac:(lia)) as (e & He & Hre). rewrite Nat.add_0_r in He.
  assert (Hstep :
    loop errors_Is math_Pow ctx config fn rnd (S m + fuel) attempt lastErr calls sl hk
    = loop errors_Is math_Pow ctx config fn rnd (m + fuel) (attempt + 1) (Some e) (S calls)
        (sl ++ [calculateDelay math_Pow (rnd attempt) attempt config])
        (hk ++ [(attempt, e)])).
  { simpl. destruct (Hctx attempt) as [Hb Hd].
    destruct (Z.leb_spec attempt (MaxAttempts config)); [|lia].
    rewrite Hb, He, Hre. simpl.
    destruct (Z.eqb_spec attempt (MaxAttempts config)); [lia|].
    rewrite Hd. unfold Go.incr. rewrite wrap_id; [reflexivity|].
    unfold Go.in_int, Go.min_int, Go.max_int in *. lia. }
  rewrite Hstep. destruct m as [|m'].
  - exists e, (hk ++ [(attempt, e)]). repeat split.
    + replace (calls + 1 - 1)%nat with calls by lia. exact He.
    + rewrite length_app. simpl. lia.
    + simpl. replace (calls + 1)%nat with (S calls) by lia.
      unfold delays_from. simpl. rewrite Z.add_0_r. reflexivity.
  - destruct (IH fuel (attempt + 1) (Some e) (S calls)
                (sl ++ [calculateDelay math_Pow (rnd attempt) attempt config])
                (hk ++ [(attempt, e)])) as (e' & hk' & He' & Hlen & Hloop);
      try lia.
    { intros j Hj. destruct (Hfn (S j) ltac:(lia)) as (x & Hx & Hrx).
      exists x. split; [|exact Hrx].
      replace (S calls + j)%nat with (calls + S j)%nat by lia. exact Hx. }
    exists e', hk'. repeat split.
    + replace (calls + S (S m') - 1)%nat with (S calls + S m' - 1)%nat by lia. exact He'.
    + rewrite Hlen, length_app. simpl. lia.
    + rewrite Hloop, (delays_from_S config rnd attempt (S m')), <- app_assoc.
      replace (attempt + 1 + Z.of_nat (S m')) with (attempt + Z.of_nat (S (S m'))) by lia.
      replace (S calls + S m')%nat with (calls + S (S m'))%nat by lia. reflexivity.
Qed.

(** The same with [m = 0] allowed: the loop reaches the attempt
    [attempt + m] having invoked the operation [m] times more. *)
Lemma loop_reaches (ctx : @Ctx Err) (config : @RetryConfig Err) (fn : nat -> option Err)
    (rnd : Z -> float) (m fuel : nat) :
  uncancelled ctx -> MaxAttempts config <= Go.max_int ->
  1 + Z.of_nat m <= MaxAttempts config ->
  (forall j, (j < m)%nat -> exists e, fn j = Some e /\ retryable config e) ->
  exists (lastErr : option Err) (hk : list (Z * Err)),
    length hk = m
    /\ loop errors_Is math_Pow ctx config fn rnd (m + fuel) 1 None 0 [] []
       = loop errors_Is math_Pow ctx config fn rnd fuel (1 + Z.of_nat m) lastErr m
           (delays_from math_Pow config rnd 1 m) hk.
Proof.
  intros Hctx Hmax Hm Hfn. destruct m as [|m].
  - exists None, []. split; [reflexivity|]. simpl. reflexivity.
  - destruct (loop_retries ctx config fn rnd (S m) Hctx Hmax fuel 1 None 0%nat [] [])
      as (e & hk & _ & Hlen & Hloop); try lia.
    { intros j Hj. simpl. apply Hfn. exact Hj. }
    exists (Some e), hk. split; [exact Hlen|]. rewrite Hloop. reflexivity.
Qed.

(** [Retry] returns: the fuel of the model is never used up. *)
Lemma loop_total (ctx : @Ctx Err) (config : @RetryConfig Err) (fn : nat -> option Err)
    (rnd : Z -> float) :
  MaxAttempts config <= Go.max_int ->
  forall (fuel : nat) (attempt : Z) (lastErr : option Err) (calls : nat)
         (sl : list (option Go.Duration)) (hk : list (Z * Err)),
    1 <= attempt ->
    (Z.to_nat (MaxAttempts config - attempt + 1) < fuel)%nat ->
    exists run,
      loop errors_Is math_Pow ctx config fn rnd fuel attempt lastErr calls sl hk = Some run.
Proof.
  intros Hmax. induction fuel as [|fuel IH]; intros attempt lastErr calls sl hk Ha Hf; [lia|].
  simpl. destruct (Z.leb_spec attempt (MaxAttempts config)); [|eauto].
  destruct (done_before ctx attempt); [eauto|].
  destruct (fn calls) as [e|]; [|eauto].
  destruct (negb _); [eauto|].
  destruct (Z.eqb_spec attempt (MaxAttempts config)); [eauto|].
  destruct (done_during ctx attempt); [eauto|].
  assert (Hi : Go.incr attempt = attempt + 1).
  { unfold Go.incr. apply wrap_id. unfold Go.in_int, Go.min_int, Go.max_int in *. lia. }
  rewrite Hi. apply IH; lia.
Qed.

Lemma Retry_total (ctx : @Ctx Err) (config : @RetryConfig Err) (fn : nat -> option Err)
    (rnd : Z -> float) :
  MaxAttempts config <= Go.max_int ->
  exists run, Retry errors_Is math_Pow ctx config fn rnd = Some run.
Proof. intros Hmax. unfold Retry. apply loop_total; [assumption | lia | lia]. Qed.

(** The cap of [calculateDelay]: the float it converts is the cap
    itself or is not greater than the cap. *)
Lemma delay_float_capped (config : @RetryConfig Err) (r : float) (attempt : Z) :
  delay_float math_Pow r attempt config = float64_of_int (MaxDelay config)
  \/ PrimFloat.ltb (float64_of_int (MaxDelay config))
       (delay_float math_Pow r attempt config) = false.
Proof.
  unfold delay_float.
  destruct (PrimFloat.ltb (float64_of_int (MaxDelay config)) _) eqn:H; [left | right].
  - reflexivity.
  - exact H.
Qed.

(** A backoff factor of 1 without jitter: every attempt computes the
    same delay, given that [math.Pow(1, y)] is 1 for every [y]. *)
Lemma fixed_delay_constant (config : @RetryConfig Err) (r r' : float) (attempt attempt' : Z) :
  (forall y, math_Pow 1%float y = 1%float) ->
  BackoffFactor config = 1%float -> Jitter config = false ->
  calculateDelay math_Pow r attempt config = calculateDelay math_Pow r' attempt' config.
Proof.
  intros HP HB HJ. unfold calculateDelay, delay_float. rewrite HB, HJ, !HP. reflexivity.
Qed.

Lemma P2_succ (k : Z) : P2 k = (2 * P2 (k - 1))%R.
Proof.
  replace k with (1 + (k - 1)) at 1 by lia. rewrite P2_add.
  assert (H : P2 1 = 2%R) by (unfold P2; simpl; lra). rewrite H. reflexivity.
Qed.

(** Doubling backoff.  The double that [calculateDelay] converts in
    attempt [k] lies between the backoff of this attempt and the
    backoff of the next, both capped: the jitter adds between nothing
    and a tenth, rounding included. *)
Lemma delay_float_bounds (config : @RetryConfig Err) (r : float) (k : Z) :
  BackoffFactor config = 2%float ->
  math_Pow 2 (float64_of_int (k - 1)) = pow2 (k - 1) ->
  1 <= InitialDelay config <= Go.max_int -> 1 <= MaxDelay config <= 2 ^ 53 ->
  1 <= k <= 960 ->
  PrimFloat.leb 0 r = true -> PrimFloat.ltb r 1 = true ->
  let x := delay_float math_Pow r k config in
  let I := to_R (float64_of_int (InitialDelay config)) in
  is_nonneg x
  /\ (Rmin (I * P2 (k - 1)) (IZR (MaxDelay config)) <= to_R x)%R
  /\ (to_R x <= Rmin (I * P2 k) (IZR (MaxDelay config)))%R.
Proof.
  intros HB HP HI HD Hk Hr0 Hr1 x I. unfold x, delay_float.
  rewrite HB, wrap_id, HP by (unfold Go.in_int, Go.min_int, Go.max_int; lia).
  destruct (float64_of_int_bounds (InitialDelay config) HI) as [HIn HIv]. fold I in HIv.
  destruct (pow2_value (k - 1) ltac:(lia)) as [Hpn Hpv].
  destruct (scale_representable _ (k - 1) HIn HIv ltac:(lia)) as (f1 & Hf1 & Hf1v).
  destruct (scale_representable _ k HIn HIv ltac:(lia)) as (f2 & Hf2 & Hf2v).
  fold (to_R (float64_of_int (InitialDelay config))) in Hf1v, Hf2v. fold I in Hf1v, Hf2v.
  set (b := PrimFloat.mul (float64_of_int (InitialDelay config)) (pow2 (k - 1))).
  assert (Hb : is_nonneg b /\ to_R b = (I * P2 (k - 1))%R).
  { destruct (mul_high _ _ f1 HIn Hpn Hf1) as [Hbn Hbh]; [fold I; rewrite Hpv, Hf1v; lra|].
    split; [exact Hbn|].
    pose proof (mul_low _ _ f1 HIn Hpn Hf1 ltac:(fold I; rewrite Hpv, Hf1v; lra) Hbn) as Hbl.
    fold b in Hbh, Hbl. lra. }
  destruct Hb as [Hbn Hbv].
  pose proof (P2_pos (k - 1)) as Hpp. pose proof (P2_succ k) as Hps.
  assert (HB0 : (0 < I * P2 (k - 1))%R) by (apply Rmult_lt_0_compat; lra).
  assert (HBk : (I * P2 k = 2 * (I * P2 (k - 1)))%R) by (rewrite Hps; ring).
  set (d := if Jitter config
            then PrimFloat.add b (PrimFloat.mul (PrimFloat.mul r tenth) b) else b).
  assert (Hd : is_nonneg d /\ (I * P2 (k - 1) <= to_R d <= I * P2 k)%R).
  { unfold d. destruct (Jitter config).
    - destruct (unit_draw r Hr0 Hr1) as [Hrn Hrv].
      destruct tenth_value as [Htn Htv].
      pose proof (to_R_nonneg r Hrn) as Hr0'. pose proof (to_R_nonneg tenth Htn) as Ht0.
      destruct (mul_high r tenth (Prim2SF tenth) Hrn Htn Htn) as [Hun Huv];
        [fold (to_R tenth); nra|]. fold (to_R tenth) in Huv.
      pose proof (to_R_nonneg _ Hun) as Hu0.
      destruct (mul_high (PrimFloat.mul r tenth) b (Prim2SF b) Hun Hbn Hbn) as [Hjn Hjv];
        [fold (to_R b); nra|]. fold (to_R b) in Hjv.
      pose proof (to_R_nonneg _ Hjn) as Hj0.
      destruct (add_high b _ f2 Hbn Hjn Hf2) as [Hdn Hdh]; [rewrite Hf2v; lra|].
      split; [exact Hdn|].
      pose proof (add_low b _ (Prim2SF b) Hbn Hjn Hbn ltac:(fold (to_R b); lra) Hdn) as Hdl.
      fold (to_R b) in Hdl. rewrite Hf2v in Hdh. lra.
    - split; [exact Hbn|]. lra. }
  destruct Hd as [Hdn [Hdl Hdh]].
  destruct (float64_of_int_exact (MaxDelay config) HD) as [HDn HDv].
  destruct (PrimFloat.ltb (float64_of_int (MaxDelay config)) d) eqn:Hcap.
  - apply ltb_to_R in Hcap; [|assumption..]. split; [exact HDn|]. rewrite HDv in *.
    unfold Rmin. repeat destruct Rle_dec; lra.
  - assert (Hle : (to_R d <= IZR (MaxDelay config))%R).
    { rewrite <- HDv. apply Rnot_lt_le. intros Hlt.
      apply (ltb_to_R _ _ HDn Hdn) in Hlt. congruence. }
    split; [exact Hdn|]. unfold Rmin. repeat destruct Rle_dec; lra.
Qed.

(** Doubling backoff: [calculateDelay] returns a duration, not above
    [MaxDelay], and a later attempt does not get a shorter one. *)
Lemma doubling_delays (config : @RetryConfig Err) (rnd : Z -> float) (k k' : Z) :
  BackoffFactor config = 2%float ->
  (forall j, 0 <= j < k' -> math_Pow 2 (float64_of_int j) = pow2 j) ->
  1 <= InitialDelay config <= Go.max_int -> 1 <= MaxDelay config <= 2 ^ 53 ->
  (forall a, PrimFloat.leb 0 (rnd a) = true /\ PrimFloat.ltb (rnd a) 1 = true) ->
  1 <= k <= k' -> k' <= 960 ->
  exists d d' : Go.Duration,
    calculateDelay math_Pow (rnd k) k config = Some d
    /\ calculateDelay math_Pow (rnd k') k' config = Some d'
    /\ 0 <= d <= d' /\ d' <= MaxDelay config.
Proof.
  intros HB HP HI HD Hr Hk Hk'.
  destruct (Z.eq_dec k k') as [<-|Hne].
  - destruct (delay_float_bounds config (rnd k) k HB (HP (k - 1) ltac:(lia)) HI HD
                ltac:(lia) (proj1 (Hr k)) (proj2 (Hr k))) as (Hn & Hl & Hh).
    destruct (Duration_of_float64_floor _ (MaxDelay config) Hn) as (d & Hd & Hd0 & _).
    { pose proof (Rmin_r (to_R (float64_of_int (InitialDelay config)) * P2 k)
                    (IZR (MaxDelay config))). lra. }
    { unfold Go.max_int. lia. }
    exists d, d. unfold calculateDelay. repeat split; try assumption; lia.
  - destruct (delay_float_bounds config (rnd k) k HB (HP (k - 1) ltac:(lia)) HI HD
                ltac:(lia) (proj1 (Hr k)) (proj2 (Hr k))) as (Hn & Hl & Hh).
    destruct (delay_float_bounds config (rnd k') k' HB (HP (k' - 1) ltac:(lia)) HI HD
                ltac:(lia) (proj1 (Hr k')) (proj2 (Hr k'))) as (Hn' & Hl' & Hh').
    set (I := to_R (float64_of_int (InitialDelay config))) in *.
    pose proof (Rmin_r (I * P2 k) (IZR (MaxDelay config))) as Hm.
    pose proof (Rmin_r (I * P2 k') (IZR (MaxDelay config))) as Hm'.
    destruct (Duration_of_float64_floor _ (MaxDelay config) Hn) as (d & Hd & Hd0 & Hdv);
      [lra | unfold Go.max_int; lia |].
    destruct (Duration_of_float64_floor _ (MaxDelay config) Hn') as (d' & Hd' & Hd0' & Hdv');
      [lra | unfold Go.max_int; lia |].
    exists d, d'. unfold calculateDelay. split; [exact Hd|]. split; [exact Hd'|].
    split; [|lia]. split; [lia|].
    assert (Hstep : (Rmin (I * P2 k) (IZR (MaxDelay config))
                     <= Rmin (I * P2 (k' - 1)) (IZR (MaxDelay config)))%R).
    { destruct (float64_of_int_bounds (InitialDelay config) HI) as [_ HIv]. fold I in HIv.
      pose proof (P2_le k (k' - 1) ltac:(lia)).
      assert (I * P2 k <= I * P2 (k' - 1))%R by (apply Rmult_le_compat_l; lra).
      unfold Rmin. repeat destruct Rle_dec; lra. }
    assert (Hlt : (IZR d < IZR d' + 1)%R) by lra.
    rewrite <- (plus_IZR d' 1) in Hlt. apply lt_IZR in Hlt. lia.
Qed.

Lemma delays_from_lookup (config : @RetryConfig Err) (rnd : Z -> float) (m : nat) :
  forall (a : Z) (i : nat), (i < m)%nat ->
    delays_from math_Pow config rnd a m !! i
    = Some (calculateDelay math_Pow (rnd (a + Z.of_nat i)) (a + Z.of_nat i) config).
Proof.
  unfold delays_from. intros a i Hi.
  change (map ?f ?l) with (f <$> l). rewrite list_lookup_fmap, lookup_seq_lt by exact Hi.
  reflexivity.
Qed.

(** The cap, for every configuration and whatever [math.Pow] returns:
    a delay that [calculateDelay] returns is not above [MaxDelay]. *)
Lemma delay_at_most_MaxDelay (config : @RetryConfig Err) (r : float) (k : Z)
    (d : Go.Duration) :
  1 <= MaxDelay config <= 2 ^ 53 ->
  calculateDelay math_Pow r k config = Some d -> d <= MaxDelay config.
Proof.
  intros HD. unfold calculateDelay, delay_float.
  set (x := if Jitter config then _ else _).
  destruct (float64_of_int_exact (MaxDelay config) HD) as [HDn HDv].
  assert (Hfloor : forall y, is_nonneg y -> (to_R y <= IZR (MaxDelay config))%R ->
                     Duration_of_float64 y = Some d -> d <= MaxDelay config).
  { intros y Hy Hle Hd.
    destruct (Duration_of_float64_floor y (MaxDelay config) Hy Hle) as (d0 & Hd0 & Hb & _);
      [unfold Go.max_int; lia|].
    rewrite Hd in Hd0. injection Hd0 as <-. lia. }
  destruct (PrimFloat.ltb (float64_of_int (MaxDelay config)) x) eqn:Hcap.
  - apply Hfloor; [exact HDn | rewrite HDv; lra].
  - intros Hd. pose proof (Prim2SF_valid x) as Hv.
    destruct (Prim2SF x) as [s|s| |[|] m e] eqn:Hx.
    + unfold Duration_of_float64 in Hd. rewrite Hx in Hd. injection Hd as <-. lia.
    + unfold Duration_of_float64 in Hd. rewrite Hx in Hd. discriminate.
    + unfold Duration_of_float64 in Hd. rewrite Hx in Hd. discriminate.
    + unfold Duration_of_float64 in Hd. rewrite Hx in Hd. cbv zeta in Hd.
      set (mag := match e with Z0 => Zpos m | Zpos p => Zpos m * 2 ^ Zpos p
                             | Zneg p => Zpos m / 2 ^ Zpos p end) in Hd.
      assert (Hmag : 0 <= mag).
      { unfold mag. destruct e as [|p|p]; [lia | |].
        - assert (0 < 2 ^ Zpos p) by (apply Z.pow_pos_nonneg; lia). lia.
        - apply Z.div_pos; [lia | apply Z.pow_pos_nonneg; lia]. }
      destruct ((Go.min_int <=? - mag) && (- mag <=? Go.max_int)); [|discriminate].
      injection Hd as <-. lia.
    + assert (Hn : is_nonneg x) by (unfold is_nonneg; rewrite Hx; exact Hv).
      apply (Hfloor x Hn); [|exact Hd].
      rewrite <- HDv. apply Rnot_lt_le. intros Hlt.
      apply (ltb_to_R _ _ HDn Hn) in Hlt. congruence.
Qed.

(** C7, as the code has it.  [MaxAttempts = n >= 1], the context is
    not cancelled and the first [n - 1] invocations fail with
    retryable errors.  If the [n]-th invocation succeeds, [Retry]
    returns nil; if it fails, [Retry] returns that last error; both
    after exactly [n] invocations and [n - 1] sleeps, the sleep after
    attempt [k] being [calculateDelay(k, config)].  No delay is above
    [MaxDelay], for every configuration with a [MaxDelay] from 1 to
    [2^53] ns, which [float64] holds exactly.  With a backoff factor
    of 2, as in [DefaultConfig], the delays are non-decreasing, with
    or without jitter and whatever [rand.Float64] draws in [0, 1):
    here [math.Pow(2, j)] is the double [2^j], [InitialDelay] is
    positive and there are at most 960 attempts, so that no backoff
    overflows.  With a backoff factor of 1 and no jitter all delays
    are equal. *)
Theorem retry_attempts (ctx : @Ctx Err) (config : @RetryConfig Err)
    (fn : nat -> option Err) (rnd : Z -> float) (n : nat) :
  MaxAttempts config = Z.of_nat n -> (1 <= n)%nat -> Z.of_nat n <= Go.max_int ->
  uncancelled ctx ->
  (forall j, (j < n - 1)%nat -> exists e, fn j = Some e /\ retryable config e) ->
  (exists hk : list (Z * Err),
      length hk = (n - 1)%nat
      /\ Retry errors_Is math_Pow ctx config fn rnd
         = Some {| returned := fn (n - 1)%nat; invocations := n;
                   slept := delays_from math_Pow config rnd 1 (n - 1);
                   retried := hk |})
  /\ length (delays_from math_Pow config rnd 1 (n - 1)) = (n - 1)%nat
  /\ (1 <= MaxDelay config <= 2 ^ 53 ->
      forall (r : float) (k : Z) (d : Go.Duration),
        calculateDelay math_Pow r k config = Some d -> d <= MaxDelay config)
  /\ (BackoffFactor config = 2%float ->
      (forall j, 0 <= j < Z.of_nat n - 1 -> math_Pow 2 (float64_of_int j) = pow2 j) ->
      1 <= InitialDelay config <= Go.max_int -> 1 <= MaxDelay config <= 2 ^ 53 ->
      (forall a, PrimFloat.leb 0 (rnd a) = true /\ PrimFloat.ltb (rnd a) 1 = true) ->
      (n <= 960)%nat ->
      forall i j : nat, (i <= j < n - 1)%nat ->
        exists d d' : Go.Duration,
          delays_from math_Pow config rnd 1 (n - 1) !! i = Some (Some d)
          /\ delays_from math_Pow config rnd 1 (n - 1) !! j = Some (Some d')
          /\ 0 <= d <= d' /\ d' <= MaxDelay config)
  /\ ((forall y, math_Pow 1%float y = 1%float) ->
      BackoffFactor config = 1%float -> Jitter config = false ->
      forall (r r' : float) (k k' : Z),
        calculateDelay math_Pow r k config = calculateDelay math_Pow r' k' config).
Proof.
  intros HM Hn Hmax Hctx Hfn. split; [|split; [|split; [|split]]].
  - destruct (loop_reaches ctx config fn rnd (n - 1) 2 Hctx) as (lastErr & hk & Hlen & Hloop);
      try lia; [exact Hfn|].
    exists hk. split; [exact Hlen|].
    unfold Retry. rewrite HM, Nat2Z.id.
    replace (S n) with (n - 1 + 2)%nat by lia. rewrite Hloop.
    replace (1 + Z.of_nat (n - 1)) with (MaxAttempts config) by lia.
    simpl. rewrite Z.leb_refl. destruct (Hctx (MaxAttempts config)) as [Hb _]. rewrite Hb.
    replace (S (n - 1)) with n by lia.
    destruct (fn (n - 1)%nat) as [e|]; [|reflexivity].
    destruct (negb _); [reflexivity|]. rewrite Z.eqb_refl. reflexivity.
  - apply delays_from_length.
  - intros HD r k d. apply delay_at_most_MaxDelay. exact HD.
  - intros HB HP HI HD Hr Hn960 i j Hij.
    rewrite !delays_from_lookup by lia.
    destruct (doubling_delays config rnd (1 + Z.of_nat i) (1 + Z.of_nat j) HB)
      as (d & d' & H1 & H2 & H3 & H4); try assumption; try lia.
    { intros j0 Hj0. apply HP. lia. }
    exists d, d'. rewrite H1, H2. repeat split; try reflexivity; lia.
  - intros HP HB HJ r r' k k'. apply fixed_delay_constant; assumption.
Qed.

End RetryProps.

Lemma retry_attempts_witness :
  let config : @retry.RetryConfig nat :=
    {| retry.MaxAttempts := 3; retry.InitialDelay := 100000000;
       retry.MaxDelay := 30000000000; retry.BackoffFactor := 2%float;
       retry.Jitter := true; retry.RetryableErrors := [] |} in
  let ctx := {| retry.done_before := fun _ => false; retry.done_during := fun _ => false;
                retry.ctx_Err := 0%nat |} in
  let fn := fun k : nat => if (k <? 2)%nat then Some (S k) else None in
  let pow := fun x y : float => if PrimFloat.eqb y 1 then x else 1%float in
  let rnd := fun _ : Z => 0.5%float in
  (exists hk : list (Z * nat),
      length hk = 2%nat
      /\ retry.Retry Nat.eqb pow ctx config fn rnd
         = Some {| retry.returned := None; retry.invocations := 3;
                   retry.slept := [Some 105000000; Some 210000000];
                   retry.retried := hk |})
  /\ (exists d d' : Go.Duration,
        retry.delays_from pow config rnd 1 2 !! 0%nat = Some (Some d)
        /\ retry.delays_from pow config rnd 1 2 !! 1%nat = Some (Some d')
        /\ 0 <= d <= d' /\ d' <= 30000000000).
Proof.
  intros config ctx fn pow rnd.
  destruct (retry_attempts Nat.eqb pow ctx config fn rnd 3) as (Hrun & _ & _ & Hmono & _).
  - reflexivity.
  - lia.
  - vm_compute. discriminate.
  - intros k. split; reflexivity.
  - intros j Hj. exists (S j). split; [|reflexivity].
    destruct j as [|[|j]]; [reflexivity | reflexivity | simpl in Hj; lia].
  - split; [exact Hrun|]. apply Hmono.
    + reflexivity.
    + intros j Hj. assert (Hj' : j = 0 \/ j = 1) by lia.
      destruct Hj' as [-> | ->]; vm_compute; reflexivity.
    + vm_compute. split; discriminate.
    + vm_compute. split; discriminate.
    + intros a. split; reflexivity.
    + lia.
    + lia.
Defined.

(** C7, as the specification states it, does not hold, twice.  With an allow-list of
    retryable errors, an operation that fails once with an error not on
    the list and would succeed next makes [Retry], with two attempts
    allowed, return that error after one invocation.  And with jitter on
    and a backoff factor of 1 the delay after attempt 1 (jitter draw
    0.5) is 105 ms and the delay after attempt 2 (jitter draw 0) is
    100 ms: the delays decrease, whatever [math.Pow] does away from
    [Pow(1, y) = 1]. *)
Lemma retry_claim_fails :
  (forall (pow : float -> float -> float) (rnd : Z -> float),
      retry.Retry Nat.eqb pow
        {| retry.done_before := fun _ => false; retry.done_during := fun _ => false;
           retry.ctx_Err := 0%nat |}
        {| retry.MaxAttempts := 2; retry.InitialDelay := 100000000;
           retry.MaxDelay := 30000000000; retry.BackoffFactor := 2%float;
           retry.Jitter := true; retry.RetryableErrors := [1%nat] |}
        (fun k : nat => match k with O => Some 7%nat | S _ => None end) rnd
      = Some {| retry.returned := Some 7%nat; retry.invocations := 1;
                retry.slept := []; retry.retried := [] |})
  /\ (forall pow : float -> float -> float,
        (forall y, pow 1%float y = 1%float) ->
        retry.Retry Nat.eqb pow
          {| retry.done_before := fun _ => false; retry.done_during := fun _ => false;
             retry.ctx_Err := 0%nat |}
          {| retry.MaxAttempts := 3; retry.InitialDelay := 100000000;
             retry.MaxDelay := 30000000000; retry.BackoffFactor := 1%float;
             retry.Jitter := true; retry.RetryableErrors := [] |}
          (fun k : nat => Some k)
          (fun attempt => if attempt =? 1 then 0.5%float else 0%float)
        = Some {| retry.returned := Some 2%nat; retry.invocations := 3;
                  retry.slept := [Some 105000000; Some 100000000];
                  retry.retried := [(1, 0%nat); (2, 1%nat)] |}).
Proof.
  split.
  - intros pow rnd. reflexivity.
  - intros pow Hpow. unfold retry.Retry. simpl.
    unfold retry.calculateDelay, retry.delay_float. simpl.
    rewrite !Hpow. vm_compute. reflexivity.
Qed.

(** ** Circuit breaker: the counters, the sweep and the manager *)

Section BreakerMore.

Import circuitbreaker.

Lemma updateState_keeps (now snow : Go.Time) (cb : CircuitBreaker) :
  config (updateState now snow cb) = config cb
  /\ semaphore (updateState now snow cb) = semaphore cb
  /\ lastFailure (updateState now snow cb) = lastFailure cb.
Proof.
  unfold updateState. rewrite !transitionTo_fields.
  destruct (state cb);
    repeat match goal with |- context [if ?b then _ else _] => destruct b end;
    simpl; auto.
Qed.

(** One call keeps the configuration and gives the probe slot back. *)
Lemma Execute_keeps (c : Call) (cb : CircuitBreaker) :
  config (snd (Execute c cb)) = config cb
  /\ semaphore (snd (Execute c cb)) = semaphore cb.
Proof.
  unfold Execute. destruct (negb (canExecute (t_can c) cb)); [auto|].
  unfold recordResult.
  destruct (state cb) eqn:Hs; simpl;
    try (destruct (semaphore cb <? MaxConcurrent (config cb)); [|auto]; simpl);
    match goal with
    | |- context [updateState ?a ?b ?x] =>
        destruct (updateState_keeps a b x) as (H1 & H2 & _); rewrite ?H1, ?H2
    end;
    destruct (fn_result c); simpl; split; auto; lia.
Qed.

Lemma updateState_closed_below (now snow : Go.Time) (cb : CircuitBreaker) :
  state cb = StateClosed -> failures cb < FailureThreshold (config cb) ->
  updateState now snow cb = cb.
Proof.
  intros Hs Hf. unfold updateState. rewrite Hs.
  destruct (Z.leb_spec (FailureThreshold (config cb)) (failures cb)); [lia | reflexivity].
Qed.

Lemma updateState_halfopen_below (now snow : Go.Time) (cb : CircuitBreaker) :
  state cb = StateHalfOpen ->
  successes cb < SuccessThreshold (config cb) ->
  failures cb < FailureThreshold (config cb) ->
  updateState now snow cb = cb.
Proof.
  intros Hs Hsu Hf. unfold updateState. rewrite Hs.
  destruct (Z.leb_spec (SuccessThreshold (config cb)) (successes cb)); [lia|].
  destruct (Z.leb_spec (FailureThreshold (config cb)) (failures cb)); [lia | reflexivity].
Qed.

(** [updateState] keeps the bounds, whatever the clock says. *)
Lemma updateState_bounded (now snow : Go.Time) (cb : CircuitBreaker) :
  1 <= FailureThreshold (config cb) -> 1 <= SuccessThreshold (config cb) ->
  match state cb with
  | StateClosed => 0 <= failures cb <= FailureThreshold (config cb)
  | StateOpen => True
  | StateHalfOpen =>
      0 <= failures cb <= FailureThreshold (config cb)
      /\ 0 <= successes cb <= SuccessThreshold (config cb)
  end ->
  counters_bounded (updateState now snow cb).
Proof.
  intros HF HS H. unfold updateState, counters_bounded.
  destruct (state cb) eqn:Hs.
  - destruct (Z.leb_spec (FailureThreshold (config cb)) (failures cb)).
    + rewrite transitionTo_fields. simpl. exact I.
    + rewrite Hs. lia.
  - destruct (Z.leb_spec (Timeout (config cb)) (Go.Since snow (lastStateChange cb))).
    + rewrite transitionTo_fields. simpl. lia.
    + rewrite Hs. exact I.
  - destruct (Z.leb_spec (SuccessThreshold (config cb)) (successes cb)).
    + rewrite transitionTo_fields. simpl. lia.
    + destruct (Z.leb_spec (FailureThreshold (config cb)) (failures cb)).
      * rewrite transitionTo_fields. simpl. exact I.
      * rewrite Hs. lia.
Qed.

(** Counting one outcome takes the bounded counters to at most the
    thresholds. *)
Lemma counted_bounded (c : Call) (cb : CircuitBreaker) :
  FailureThreshold (config cb) <= Go.max_int ->
  SuccessThreshold (config cb) <= Go.max_int ->
  counters_bounded cb ->
  match state (counted c cb) with
  | StateClosed => 0 <= failures (counted c cb) <= FailureThreshold (config (counted c cb))
  | StateOpen => True
  | StateHalfOpen =>
      0 <= failures (counted c cb) <= FailureThreshold (config (counted c cb))
      /\ 0 <= successes (counted c cb) <= SuccessThreshold (config (counted c cb))
  end.
Proof.
  intros HF HS H. unfold counters_bounded in H. unfold counted.
  destruct (fn_result c); simpl; destruct (state cb); auto.
  - rewrite (incr_below _ (FailureThreshold (config cb))) by lia. lia.
  - rewrite (incr_below _ (FailureThreshold (config cb))) by lia. lia.
  - lia.
  - rewrite (incr_below _ (SuccessThreshold (config cb))) by lia. lia.
Qed.

Lemma counters_bounded_semaphore (n : Z) (cb : CircuitBreaker) :
  counters_bounded (set_semaphore n cb) <-> counters_bounded cb.
Proof. unfold counters_bounded. simpl. reflexivity. Qed.

Lemma Execute_bounded (c : Call) (cb : CircuitBreaker) :
  1 <= FailureThreshold (config cb) <= Go.max_int ->
  1 <= SuccessThreshold (config cb) <= Go.max_int ->
  counters_bounded cb -> counters_bounded (snd (Execute c cb)).
Proof.
  intros HF HS H. unfold Execute.
  destruct (negb (canExecute (t_can c) cb)); [exact H|].
  assert (Hrec : forall cb0, config cb0 = config cb -> counters_bounded cb0 ->
            counters_bounded
              (recordResult (t_record c) (t_update c) (t_since c) (fn_result c) cb0)).
  { intros cb0 Hc H0. rewrite recordResult_counted.
    assert (Hcc : config (counted c cb0) = config cb0)
      by (unfold counted; destruct (fn_result c); reflexivity).
    apply updateState_bounded; rewrite ?Hcc, ?Hc; try lia.
    pose proof (counted_bounded c cb0) as Hb. rewrite Hcc, Hc in Hb.
    apply Hb; try lia. exact H0. }
  destruct (state cb) eqn:Hs; simpl.
  - apply Hrec; auto.
  - apply Hrec; auto.
  - destruct (semaphore cb <? MaxConcurrent (config cb)); [|exact H]. simpl.
    apply counters_bounded_semaphore. apply Hrec; [reflexivity|].
    apply counters_bounded_semaphore. exact H.
Qed.

Lemma tick_keeps (now snow wnow : Go.Time) (cb : CircuitBreaker) :
  config (stateManager_tick now snow wnow cb) = config cb
  /\ semaphore (stateManager_tick now snow wnow cb) = semaphore cb.
Proof.
  unfold stateManager_tick.
  destruct (updateState_keeps now snow cb) as (H1 & H2 & _).
  destruct (state (updateState now snow cb));
    repeat match goal with |- context [if ?b then _ else _] => destruct b end;
    simpl; auto.
Qed.

Lemma tick_bounded (now snow wnow : Go.Time) (cb : CircuitBreaker) :
  1 <= FailureThreshold (config cb) -> 1 <= SuccessThreshold (config cb) ->
  counters_bounded cb -> counters_bounded (stateManager_tick now snow wnow cb).
Proof.
  intros HF HS H.
  assert (Hu : counters_bounded (updateState now snow cb)).
  { apply updateState_bounded; auto. unfold counters_bounded in H.
    destruct (state cb); auto; lia. }
  destruct (updateState_keeps now snow cb) as (Hc & _ & _).
  unfold stateManager_tick.
  destruct (state (updateState now snow cb)) eqn:Hs; auto.
  destruct (_ && _); [|exact Hu].
  unfold counters_bounded. simpl. rewrite Hs, Hc. lia.
Qed.

(** X1.  Whatever calls and sweeps a new breaker goes through, and
    whatever the clock reads: while it is Closed fewer than
    [FailureThreshold] failures are counted, while it is HalfOpen fewer
    than [FailureThreshold] failures and fewer than [SuccessThreshold]
    successes are; the configuration and the probe semaphore are as
    at the start. *)
Theorem counters_stay_bounded (cfg : Config) (es : list Event) :
  1 <= FailureThreshold cfg <= Go.max_int ->
  1 <= SuccessThreshold cfg <= Go.max_int ->
  counters_bounded (history es (NewCircuitBreaker cfg))
  /\ config (history es (NewCircuitBreaker cfg)) = cfg
  /\ semaphore (history es (NewCircuitBreaker cfg)) = 0.
Proof.
  intros HF HS.
  assert (Hgen : forall cb, counters_bounded cb -> config cb = cfg ->
            counters_bounded (history es cb)
            /\ config (history es cb) = cfg
            /\ semaphore (history es cb) = semaphore cb).
  { induction es as [|e es IH]; intros cb Hb Hc; simpl; [auto|].
    assert (Hstep : counters_bounded (apply_event cb e)
                    /\ config (apply_event cb e) = config cb
                    /\ semaphore (apply_event cb e) = semaphore cb).
    { destruct e as [c|now snow wnow]; simpl.
      - split; [apply Execute_bounded; rewrite ?Hc; auto | apply Execute_keeps].
      - split; [apply tick_bounded; rewrite ?Hc; auto; lia | apply tick_keeps]. }
    destruct Hstep as (H1 & H2 & H3).
    destruct (IH (apply_event cb e) H1 ltac:(congruence)) as (I1 & I2 & I3).
    repeat split; auto. congruence. }
  apply Hgen; [|reflexivity]. unfold counters_bounded. simpl. lia.
Qed.

Lemma counters_stay_bounded_witness :
  let c t r := {| t_can := t; t_record := t; t_update := t; t_since := t; fn_result := r |} in
  let es := [Called (c 1 (Some "e"%string)); Tick 2 2 2; Called (c 3 None);
             Called (c 4 (Some "e"%string))] in
  counters_bounded (history es (NewCircuitBreaker DefaultConfig))
  /\ config (history es (NewCircuitBreaker DefaultConfig)) = DefaultConfig
  /\ semaphore (history es (NewCircuitBreaker DefaultConfig)) = 0.
Proof.
  intros c es. apply (counters_stay_bounded DefaultConfig es).
  - vm_compute. split; discriminate.
  - vm_compute. split; discriminate.
Defined.

Lemma updateState_semaphore (n : Z) (now snow : Go.Time) (cb : CircuitBreaker) :
  updateState now snow (set_semaphore n cb) = set_semaphore n (updateState now snow cb).
Proof.
  unfold updateState. simpl. rewrite !transitionTo_fields.
  destruct (state cb);
    repeat match goal with |- context [if ?b then _ else _] => destruct b end;
    reflexivity.
Qed.

Lemma recordResult_semaphore (n : Z) (rnow unow snow : Go.Time) (err : Go.error)
    (cb : CircuitBreaker) :
  recordResult rnow unow snow err (set_semaphore n cb)
  = set_semaphore n (recordResult rnow unow snow err cb).
Proof.
  unfold recordResult. destruct err; simpl;
    match goal with
    | |- updateState ?a ?b ?x = _ =>
        change x with (set_semaphore n
          ltac:(match x with
                | context [Go.incr (failures cb)] =>
                    exact (set_failures (Go.incr (failures cb)) rnow cb)
                | _ => exact (set_successes (Go.incr (successes cb)) cb)
                end))
    end; apply updateState_semaphore.
Qed.

(** X2.  A call is turned away in two cases only: the breaker is Open
    and the timeout has not elapsed, or it is HalfOpen and every probe
    slot is taken.  Then the function does not run, the circuit-open
    error is returned and the breaker is exactly as before.  In every
    other case the function runs, its own error (or nil) is returned
    unchanged, and the breaker is what [recordResult] makes of it. *)
Theorem Execute_runs_or_rejects (c : Call) (cb : CircuitBreaker) :
  let blocked :=
    (state cb = StateOpen
     /\ Go.Since (t_can c) (lastStateChange cb) < Timeout (config cb))
    \/ (state cb = StateHalfOpen /\ MaxConcurrent (config cb) <= semaphore cb) in
  (blocked /\ Execute c cb = (rejected, cb))
  \/ (~ blocked
      /\ Execute c cb
         = ({| returned := fn_result c; ran := true |},
            recordResult (t_record c) (t_update c) (t_since c) (fn_result c) cb)).
Proof.
  cbv zeta. unfold Execute, canExecute. destruct (state cb) eqn:Hs; simpl.
  - right. split; [intros [[H _]|[H _]]; discriminate H | reflexivity].
  - destruct (Z.leb_spec (Timeout (config cb)) (Go.Since (t_can c) (lastStateChange cb)));
      simpl.
    + right. split; [intros [[_ H']|[H' _]]; [lia | discriminate H'] | reflexivity].
    + left. split; [left; split; [reflexivity | assumption] | reflexivity].
  - destruct (Z.ltb_spec (semaphore cb) (MaxConcurrent (config cb))).
    + right. split; [intros [[H' _]|[_ H']]; [discriminate H' | lia]|].
      f_equal. rewrite recordResult_semaphore.
      set (R := recordResult _ _ _ _ cb).
      assert (HR : semaphore R = semaphore cb).
      { subst R. rewrite recordResult_counted.
        destruct (updateState_keeps (t_update c) (t_since c) (counted c cb)) as (_ & H2 & _).
        rewrite H2. unfold counted. destruct (fn_result c); reflexivity. }
      destruct R. unfold set_semaphore. simpl in *. f_equal. lia.
    + left. split; [right; split; [reflexivity | assumption] | reflexivity].
Qed.

(** HalfOpen with a free probe slot: the call is admitted. *)
Lemma Execute_halfopen_admitted (c : Call) (cb : CircuitBreaker) :
  state cb = StateHalfOpen -> semaphore cb < MaxConcurrent (config cb) ->
  Execute c cb
  = (admitted c, recordResult (t_record c) (t_update c) (t_since c) (fn_result c) cb).
Proof.
  intros Hs Hsem. unfold Execute, canExecute. rewrite Hs. simpl.
  destruct (Z.ltb_spec (semaphore cb) (MaxConcurrent (config cb))); [|lia].
  unfold admitted. f_equal. rewrite recordResult_semaphore.
  set (R := recordResult _ _ _ _ cb).
  assert (HR : semaphore R = semaphore cb).
  { subst R. rewrite recordResult_counted.
    destruct (updateState_keeps (t_update c) (t_since c) (counted c cb)) as (_ & H2 & _).
    rewrite H2. unfold counted. destruct (fn_result c); reflexivity. }
  destruct R. unfold set_semaphore. simpl in *. f_equal. lia.
Qed.

Lemma run_halfopen_failures (cs : list Call) : forall cb : CircuitBreaker,
  state cb = StateHalfOpen -> Forall failing cs ->
  semaphore cb < MaxConcurrent (config cb) ->
  0 <= successes cb < SuccessThreshold (config cb) ->
  0 <= failures cb ->
  failures cb + Z.of_nat (length cs) = FailureThreshold (config cb) ->
  cs <> [] ->
  FailureThreshold (config cb) <= Go.max_int ->
  exists cb', run cs cb = (map admitted cs, cb')
    /\ state cb' = StateOpen
    /\ failures cb' = FailureThreshold (config cb)
    /\ successes cb' = successes cb.
Proof.
  induction cs as [|c cs IH]; intros cb Hs Hall Hsem Hsu H0 Hlen Hne Hmax; [congruence|].
  inversion Hall as [|? ? Hc Hcs]; subst. simpl in Hlen.
  rewrite run_cons, Execute_halfopen_admitted by assumption. cbn [fst snd].
  unfold failing in Hc. unfold recordResult.
  destruct (fn_result c) as [e|] eqn:He; [|congruence].
  rewrite (incr_below _ (FailureThreshold (config cb))) by lia.
  set (cb1 := set_failures (failures cb + 1) (t_record c) cb).
  destruct cs as [|c' cs'].
  - simpl in *. unfold updateState. simpl. rewrite Hs.
    destruct (Z.leb_spec (SuccessThreshold (config cb)) (successes cb)); [lia|].
    destruct (Z.leb_spec (FailureThreshold (config cb)) (failures cb + 1)); [|lia].
    eexists; split; [reflexivity|]. rewrite transitionTo_fields. simpl.
    repeat split; lia.
  - rewrite (updateState_halfopen_below _ _ cb1)
      by (subst cb1; simpl in *; auto; lia).
    destruct (IH cb1) as (cb' & Hrun & Hst & Hf & Hsu');
      try (subst cb1; simpl in *; auto; lia); try congruence.
    rewrite Hrun. exists cb'. split; [reflexivity|]. subst cb1; simpl in *. auto.
Qed.

(** X3.  HalfOpen, a free probe slot, fewer successes counted than
    [SuccessThreshold]: the failing calls that bring the failure count
    to [FailureThreshold] all run, and the last of them opens the
    breaker again; the counters are not cleared by that transition. *)
Theorem halfopen_failures_reopen (cb : CircuitBreaker) (cs : list Call) :
  state cb = StateHalfOpen ->
  semaphore cb < MaxConcurrent (config cb) ->
  0 <= successes cb < SuccessThreshold (config cb) ->
  0 <= failures cb ->
  failures cb + Z.of_nat (length cs) = FailureThreshold (config cb) ->
  FailureThreshold (config cb) <= Go.max_int ->
  cs <> [] -> Forall failing cs ->
  fst (run cs cb) = map admitted cs
  /\ state (snd (run cs cb)) = StateOpen
  /\ failures (snd (run cs cb)) = FailureThreshold (config cb)
  /\ successes (snd (run cs cb)) = successes cb.
Proof.
  intros Hs Hsem Hsu H0 Hlen Hmax Hne Hall.
  destruct (run_halfopen_failures cs cb) as (cb' & Hrun & H1 & H2 & H3); auto.
  rewrite Hrun. auto.
Qed.

Lemma halfopen_failures_reopen_witness :
  let cb := {| config := DefaultConfig; state := StateHalfOpen; failures := 3;
               successes := 2; lastFailure := 7; lastStateChange := 9; semaphore := 0 |} in
  let c t := {| t_can := t; t_record := t; t_update := t; t_since := t;
                fn_result := Some "down"%string |} in
  fst (run [c 10; c 11] cb) = map admitted [c 10; c 11]
  /\ state (snd (run [c 10; c 11] cb)) = StateOpen
  /\ failures (snd (run [c 10; c 11] cb)) = FailureThreshold (config cb)
  /\ successes (snd (run [c 10; c 11] cb)) = successes cb.
Proof.
  intros cb c. apply (halfopen_failures_reopen cb [c 10; c 11]).
  - reflexivity.
  - reflexivity.
  - vm_compute. split; [discriminate | reflexivity].
  - vm_compute. discriminate.
  - reflexivity.
  - vm_compute. discriminate.
  - discriminate.
  - repeat constructor; discriminate.
Defined.

(** X4.  The sweep finds the breaker Open with the timeout elapsed: it
    moves it to HalfOpen with both counters at zero, without any call.
    Every call after that goes through the probe semaphore and is
    counted, so [SuccessThreshold] successful calls close the
    breaker. *)
Theorem sweep_opens_probing (cb : CircuitBreaker) (now snow wnow : Go.Time)
    (succs : list Call) :
  let cb1 := stateManager_tick now snow wnow cb in
  state cb = StateOpen ->
  Timeout (config cb) <= Go.Since snow (lastStateChange cb) ->
  semaphore cb < MaxConcurrent (config cb) ->
  1 <= FailureThreshold (config cb) ->
  1 <= SuccessThreshold (config cb) <= Go.max_int ->
  Z.of_nat (length succs) = SuccessThreshold (config cb) -> Forall succeeding succs ->
  cb1 = transitionTo StateHalfOpen now cb
  /\ (state cb1 = StateHalfOpen /\ failures cb1 = 0 /\ successes cb1 = 0)
  /\ fst (run succs cb1) = map admitted succs
  /\ state (snd (run succs cb1)) = StateClosed.
Proof.
  intros cb1 Hs Ht Hsem HF HS Hlen Hall.
  assert (H1 : cb1 = transitionTo StateHalfOpen now cb).
  { subst cb1. unfold stateManager_tick, updateState. rewrite Hs.
    destruct (Z.leb_spec (Timeout (config cb)) (Go.Since snow (lastStateChange cb)));
      [reflexivity | lia]. }
  split; [exact H1|]. rewrite H1. split; [repeat split|].
  destruct (run_halfopen_successes succs (transitionTo StateHalfOpen now cb))
    as (cb' & Hrun & Hst & _ & _); auto; try (simpl; lia).
  { intros ->. simpl in Hlen. lia. }
  rewrite Hrun. auto.
Qed.

Lemma sweep_opens_probing_witness :
  let cb := {| config := DefaultConfig; state := StateOpen; failures := 5;
               successes := 0; lastFailure := 10; lastStateChange := 10;
               semaphore := 0 |} in
  let ok t := {| t_can := t; t_record := t; t_update := t; t_since := t;
                 fn_result := None |} in
  let t := 10 + 30 * second in
  let succs := [ok (t + 1); ok (t + 2); ok (t + 3)] in
  let cb1 := stateManager_tick t t t cb in
  cb1 = transitionTo StateHalfOpen t cb
  /\ (state cb1 = StateHalfOpen /\ failures cb1 = 0 /\ successes cb1 = 0)
  /\ fst (run succs cb1) = map admitted succs
  /\ state (snd (run succs cb1)) = StateClosed.
Proof.
  intros cb ok t succs.
  apply (sweep_opens_probing cb t t t succs).
  - reflexivity.
  - vm_compute. discriminate.
  - reflexivity.
  - vm_compute. discriminate.
  - vm_compute. split; discriminate.
  - reflexivity.
  - repeat constructor.
Defined.

(** X5.  Failures that lie further apart than the failure window do
    not add up: when after each failing call the sweep finds the last
    failure older than [WindowSize], it clears the failure count, and
    the breaker is Closed with no failure counted after any number of
    such rounds (for a threshold of 2 or more). *)
Theorem stale_failures_never_open
    (rounds : list (Call * (Go.Time * Go.Time * Go.Time))) : forall cb : CircuitBreaker,
  state cb = StateClosed -> failures cb = 0 ->
  2 <= FailureThreshold (config cb) <= Go.max_int ->
  Forall (fun r => failing (fst r)
                   /\ WindowSize (config cb) < Go.Since (snd (snd r)) (t_record (fst r)))
         rounds ->
  state (history (flat_map (fun r => [Called (fst r);
                                      Tick (fst (fst (snd r))) (snd (fst (snd r)))
                                           (snd (snd r))]) rounds) cb) = StateClosed
  /\ failures (history (flat_map (fun r => [Called (fst r);
                                            Tick (fst (fst (snd r))) (snd (fst (snd r)))
                                                 (snd (snd r))]) rounds) cb) = 0.
Proof.
  induction rounds as [|[c [[now snow] wnow]] rounds IH]; intros cb Hs Hf HF Hall;
    [simpl; auto|].
  inversion Hall as [|? ? [Hc Hw] Hrest]; subst. simpl in Hc, Hw.
  cbn [flat_map app fst snd history foldl apply_event].
  rewrite Execute_closed_failure by (auto; lia). cbn [snd].
  rewrite Hf. change (0 + 1) with 1.
  set (cb1 := set_failures 1 (t_record c) cb).
  assert (Htick : stateManager_tick now snow wnow cb1 = set_failures 0 (t_record c) cb1).
  { unfold stateManager_tick.
    rewrite (updateState_closed_below now snow cb1) by (subst cb1; simpl; auto; lia).
    subst cb1. simpl. rewrite Hs.
    destruct (Z.ltb_spec (WindowSize (config cb)) (Go.Since wnow (t_record c)));
      [reflexivity | lia]. }
  rewrite Htick. apply IH; subst cb1; simpl; auto.
Qed.

Lemma stale_failures_never_open_witness :
  let c t := {| t_can := t; t_record := t; t_update := t; t_since := t;
                fn_result := Some "down"%string |} in
  let w t := t + 2 * minute in
  let rounds := [(c 0, (w 0, w 0, w 0)); (c (3 * minute), (w (3 * minute), w (3 * minute), w (3 * minute)))] in
  state (history (flat_map (fun r => [Called (fst r);
                                      Tick (fst (fst (snd r))) (snd (fst (snd r)))
                                           (snd (snd r))]) rounds)
           (NewCircuitBreaker DefaultConfig)) = StateClosed
  /\ failures (history (flat_map (fun r => [Called (fst r);
                                            Tick (fst (fst (snd r))) (snd (fst (snd r)))
                                                 (snd (snd r))]) rounds)
                 (NewCircuitBreaker DefaultConfig)) = 0.
Proof.
  intros c w rounds.
  apply (stale_failures_never_open rounds (NewCircuitBreaker DefaultConfig)).
  - reflexivity.
  - reflexivity.
  - vm_compute. split; discriminate.
  - constructor; [split; [discriminate | vm_compute; reflexivity]|].
    constructor; [split; [discriminate | vm_compute; reflexivity]|]. constructor.
Defined.

(** X6.  The manager: [GetOrCreate] of a name it knows returns the
    breaker it has and ignores the configuration passed; of a new name
    it makes a breaker with the configuration passed, at a fresh
    address.  [Get] finds what [GetOrCreate] registered; after [Remove]
    the name is unknown; other names are not affected by either; and
    [GetAll] is a map with exactly the manager's entries. *)
Theorem manager_names (m : CircuitBreakerManager) (name other : string) (cfg cfg2 : Config) :
  let r := GetOrCreate name cfg m in
  GetOrCreate name cfg2 (snd r) = r
  /\ Manager_Get name (snd r) = Some (fst r)
  /\ match Manager_Get name m with
     | Some cb => r = (cb, m)
     | None => fst r = next_object m
               /\ objects (snd r) !! fst r = Some (NewCircuitBreaker cfg)
     end
  /\ Manager_Get name (Remove name (snd r)) = None
  /\ (other <> name ->
      Manager_Get other (snd r) = Manager_Get other m
      /\ Manager_Get other (Remove name m) = Manager_Get other m)
  /\ GetAll m = circuitBreakers m.
Proof.
  cbv zeta. unfold GetOrCreate, Manager_Get, Remove.
  destruct (circuitBreakers m !! name) as [cb|] eqn:Hn; simpl.
  - rewrite Hn. repeat split; auto.
    + apply lookup_delete_eq.
    + apply lookup_delete_ne. congruence.
    + unfold GetAll.
      apply (map_fold_weak_ind (fun r m => r = m)); [reflexivity|].
      intros i x m0 r _ ->. reflexivity.
  - rewrite lookup_insert_eq. repeat split; auto.
    + apply lookup_insert_eq.
    + apply lookup_delete_eq.
    + apply lookup_insert_ne. congruence.
    + apply lookup_delete_ne. congruence.
    + unfold GetAll.
      apply (map_fold_weak_ind (fun r m => r = m)); [reflexivity|].
      intros i x m0 r _ ->. reflexivity.
Qed.

End BreakerMore.

(** ** Connection pool: reuse, cancellation, sweep and closing *)

Section PoolMore.

Import pool.

(** X7.  In every state a new pool reaches, by any schedule of [Get],
    resumed and cancelled waiters, [Put], [Close] and sweeps, the
    queued channels are distinct, open and empty; so the send in [Put]
    completes at once: [Put] never blocks, and never sends on a closed
    channel. *)
Theorem put_never_blocks (maxOpen maxIdle : Z) (os : list Op)
    (rs : list (option GetResult)) (p : ConnectionPool) (valid : bool) (conn : nat) :
  exec os (NewConnectionPool maxOpen maxIdle) = Some (rs, p) ->
  waiters_ok p /\ exists p', Put valid conn p = Some p'.
Proof.
  intros He.
  apply (Put_never_blocks os (NewConnectionPool maxOpen maxIdle) rs p valid conn);
    [apply waiters_ok_new | exact He].
Qed.

Lemma put_never_blocks_witness :
  let os := [OpGet true (Some 1%nat, None); OpGet true (Some 2%nat, None);
             OpGet true (Some 3%nat, None)] in
  let p := {| maxOpen := 1; maxIdle := 1; connections := [Some 1%nat]; idle := [];
              waiting := [0%nat; 1%nat]; closed := false;
              chans := <[1%nat := make_chan]> (<[0%nat := make_chan]> ∅);
              next_chan := 2; conn_closed := [] |} in
  waiters_ok p /\ exists p', Put true 1%nat p = Some p'.
Proof.
  intros os p.
  apply (put_never_blocks 1 1 os
           [Some (Returned (Some 1%nat) None); Some (Blocked 0); Some (Blocked 1)]).
  reflexivity.
Defined.

Lemma exec_cons (o : Op) (os : list Op) (p : ConnectionPool) :
  exec (o :: os) p =
  match step o p with
  | Some (r, p1) =>
      match exec os p1 with
      | Some (rs, p2) => Some (r :: rs, p2)
      | None => None
      end
  | None => None
  end.
Proof. reflexivity. Qed.

(** One step on a closed pool. *)
Lemma step_closed (o : Op) (p : ConnectionPool) :
  closed p = true -> is_receive o = false ->
  exists p', step o p = Some (closed_answer o, p')
    /\ closed p' = true
    /\ connections p' = connections p /\ idle p' = idle p
    /\ conn_closed p' = conn_closed p ++ put_conns [o].
Proof.
  intros Hc Hr. destruct o as [valid made|wait|wait e|valid conn| |valid]; simpl in *;
    try discriminate Hr.
  - unfold Get. rewrite Hc. eexists; split; [reflexivity|].
    rewrite app_nil_r. auto.
  - eexists; split; [reflexivity|]. simpl. rewrite app_nil_r. auto.
  - unfold Put. rewrite Hc. eexists; split; [reflexivity|]. simpl. auto.
  - unfold Close. rewrite Hc. eexists; split; [reflexivity|]. rewrite app_nil_r. auto.
  - unfold cleanup. rewrite Hc. eexists; split; [reflexivity|]. rewrite app_nil_r. auto.
Qed.

(** One step of any kind on a closed pool. *)
Lemma step_on_closed (o : Op) (p p' : ConnectionPool) (r : option GetResult) :
  closed p = true -> step o p = Some (r, p') ->
  closed p' = true /\ idle p' = idle p
  /\ conn_closed p' = conn_closed p ++ put_conns [o]
  /\ connections p' = connections p ++ resumed [o] [r]
  /\ (is_receive o = false -> r = closed_answer o).
Proof.
  intros Hc Hs.
  destruct o as [valid made|wait|wait e|valid conn| |valid]; simpl in Hs.
  - unfold Get in Hs. rewrite Hc in Hs. injection Hs as <- <-.
    simpl. rewrite !app_nil_r. auto.
  - unfold Get_receive in Hs.
    destruct (chans p !! wait) as [[[conn|] [|]]|]; try discriminate Hs;
      injection Hs as <- <-; simpl; rewrite app_nil_r;
      (repeat split; [assumption | discriminate]).
  - injection Hs as <- <-. simpl. rewrite !app_nil_r. auto.
  - unfold Put in Hs. rewrite Hc in Hs. injection Hs as <- <-.
    simpl. rewrite !app_nil_r. auto.
  - injection Hs as <- <-. unfold Close. rewrite Hc. simpl. rewrite !app_nil_r. auto.
  - injection Hs as <- <-. unfold cleanup. rewrite Hc. simpl. rewrite !app_nil_r. auto.
Qed.

Lemma put_conns_cons (o : Op) (os : list Op) :
  put_conns (o :: os) = put_conns [o] ++ put_conns os.
Proof. unfold put_conns. simpl. rewrite app_nil_r. reflexivity. Qed.

Lemma resumed_cons (o : Op) (os : list Op) (r : option GetResult)
    (rs : list (option GetResult)) :
  resumed (o :: os) (r :: rs) = resumed [o] [r] ++ resumed os rs.
Proof. destruct o; try reflexivity. destruct r as [[conn err|w]|]; reflexivity. Qed.

(** X8.  A closed pool stays closed, whatever steps follow.  Every
    [Get] called on it returns the pool-closed error with a nil
    connection, every connection handed to [Put] is closed and not
    stored, and nothing changes the idle list.  The active list
    changes in one way only: a [Get] that was parked before the pool
    was closed and resumes appends what it receives, the nil of its
    closed channel included.  Without such resumed calls every
    schedule runs and the active list is as it was. *)
Theorem closed_pool_stays_closed (os : list Op) : forall p : ConnectionPool,
  closed p = true ->
  (forall rs p', exec os p = Some (rs, p') ->
     closed p' = true /\ idle p' = idle p
     /\ conn_closed p' = conn_closed p ++ put_conns os
     /\ connections p' = connections p ++ resumed os rs
     /\ Forall2 (fun o r => is_receive o = false -> r = closed_answer o) os rs)
  /\ (Forall (fun o => is_receive o = false) os ->
      exists p', exec os p = Some (map closed_answer os, p')
                 /\ connections p' = connections p).
Proof.
  induction os as [|o os IH]; intros p Hc.
  - split.
    + intros rs p' H. injection H as <- <-. simpl. rewrite !app_nil_r.
      repeat split; auto.
    + intros _. exists p. split; reflexivity.
  - split.
    + intros rs p' H. rewrite exec_cons in H.
      destruct (step o p) as [[r p1]|] eqn:Hs; [|discriminate H].
      destruct (exec os p1) as [[rs1 p2]|] eqn:He; [|discriminate H].
      injection H as <- <-.
      destruct (step_on_closed o p p1 r Hc Hs) as (Hc1 & Hi1 & Hcl1 & Hco1 & Ha1).
      destruct (proj1 (IH p1 Hc1) rs1 p2 He) as (Hc2 & Hi2 & Hcl2 & Hco2 & Ha2).
      split; [exact Hc2|]. split; [congruence|].
      split; [rewrite Hcl2, Hcl1, <- app_assoc, (put_conns_cons o os); reflexivity|].
      split; [rewrite Hco2, Hco1, <- app_assoc, (resumed_cons o os r rs1); reflexivity|].
      constructor; assumption.
    + intros Hall. inversion Hall as [|? ? Ho Hos]; subst.
      destruct (step_closed o p Hc Ho) as (p1 & Hs & Hc1 & Hcon1 & _).
      destruct (proj2 (IH p1 Hc1) Hos) as (p2 & He & Hcon2).
      exists p2. rewrite exec_cons, Hs, He. split; [reflexivity | congruence].
Qed.

Lemma closed_pool_stays_closed_witness :
  let p := snd (Get true (Some 2%nat, None)
                  (snd (Get true (Some 1%nat, None) (NewConnectionPool 1 1)))) in
  let os := [OpClose; OpGet true (Some 3%nat, None); OpReceive 0; OpPut true 1%nat] in
  let q := Close p in
  exec os q
  = Some ([None; Some (Returned None (Some ErrPoolClosed)); Some (Returned None None); None],
          with_connections [None] (close_conns [Some 1%nat] q))
  /\ closed (with_connections [None] (close_conns [Some 1%nat] q)) = true
  /\ connections (with_connections [None] (close_conns [Some 1%nat] q))
     = connections q ++ [None].
Proof.
  intros p os q.
  assert (He : exec os q
               = Some ([None; Some (Returned None (Some ErrPoolClosed));
                        Some (Returned None None); None],
                       with_connections [None] (close_conns [Some 1%nat] q)))
    by (vm_compute; reflexivity).
  destruct (proj1 (closed_pool_stays_closed os q eq_refl) _ _ He) as (Hc & _ & _ & Hco & _).
  split; [exact He|]. split; [exact Hc | exact Hco].
Defined.

(** X9.  Reuse.  On an open pool with no waiter queued and room in the
    idle list, a valid connection that is put back is the one the next
    [Get] returns, without a call of the factory; afterwards the idle
    list is as before the [Put] and the connection is the newest of
    the active list. *)
Theorem put_then_get_reuses (p : ConnectionPool) (conn : nat)
    (made : Connection * Go.error) :
  closed p = false -> waiting p = [] -> len (idle p) < maxIdle p ->
  exists p1 p2,
    Put true conn p = Some p1
    /\ Get true made p1 = (Returned (Some conn) None, p2)
    /\ idle p2 = idle p
    /\ connections p2 = remove_first (Some conn) (connections p) ++ [Some conn]
    /\ conn_closed p2 = conn_closed p
    /\ waiting p2 = [].
Proof.
  intros Hc Hw Hi. unfold Put. rewrite Hc. cbn [negb].
  cbv zeta. simpl.
  destruct (Z.ltb_spec (len (idle p)) (maxIdle p)); [|lia]. simpl. rewrite Hw.
  eexists _, _. split; [reflexivity|].
  unfold Get. simpl. rewrite Hc, last_snoc. simpl.
  split; [reflexivity|]. simpl. rewrite removelast_last. auto.
Qed.

Lemma put_then_get_reuses_witness :
  let p := {| maxOpen := 2; maxIdle := 2; connections := [Some 4%nat; Some 5%nat];
              idle := []; waiting := []; closed := false; chans := ∅;
              next_chan := 0; conn_closed := [] |} in
  exists p1 p2,
    Put true 4%nat p = Some p1
    /\ Get true (Some 9%nat, None) p1 = (Returned (Some 4%nat) None, p2)
    /\ idle p2 = idle p
    /\ connections p2 = remove_first (Some 4%nat) (connections p) ++ [Some 4%nat]
    /\ conn_closed p2 = conn_closed p
    /\ waiting p2 = [].
Proof.
  intros p. apply (put_then_get_reuses p 4%nat (Some 9%nat, None)).
  - reflexivity.
  - reflexivity.
  - reflexivity.
Defined.

Lemma remove_first_snoc_fresh (w : nat) (l : list nat) :
  w ∉ l -> remove_first w (l ++ [w]) = l.
Proof.
  induction l as [|y l IH]; intros Hn; simpl.
  - destruct (decide (w = w)); [reflexivity | congruence].
  - destruct (decide (y = w)) as [->|Hne].
    + exfalso. apply Hn. apply elem_of_cons. auto.
    + f_equal. apply IH. intros H. apply Hn. apply elem_of_cons. auto.
Qed.

(** X10.  Waiting and giving up.  An open pool reached from a new one,
    with no idle connection and [maxOpen] or more active ones: [Get]
    does not call the factory and parks at the back of the queue; when
    its context is cancelled it returns the context's error, and the
    queue, the active list and the idle list are as before the call:
    nothing was taken and nothing is left behind. *)
Theorem cancelled_waiter_leaves_no_trace (p : ConnectionPool) (valid : bool)
    (made : Connection * Go.error) (ctx_err : string) :
  waiters_ok p -> closed p = false -> idle p = [] ->
  maxOpen p <= len (connections p) ->
  exists wait p1 p2,
    Get valid made p = (Blocked wait, p1)
    /\ waiting p1 = waiting p ++ [wait]
    /\ Get_cancel wait ctx_err p1 = (Returned None (Some ctx_err), p2)
    /\ waiting p2 = waiting p
    /\ connections p2 = connections p /\ idle p2 = idle p
    /\ conn_closed p2 = conn_closed p.
Proof.
  intros [_ Hw] Hc Hi Hm. unfold Get. rewrite Hc, Hi. simpl.
  destruct (Z.ltb_spec (len (connections p)) (maxOpen p)); [lia|].
  eexists _, _, _. split; [reflexivity|]. simpl. split; [reflexivity|].
  unfold Get_cancel. simpl. split; [reflexivity|]. simpl.
  repeat split; auto.
  apply remove_first_snoc_fresh. intros Hin. destruct (Hw _ Hin). lia.
Qed.

Lemma cancelled_waiter_leaves_no_trace_witness :
  let p := {| maxOpen := 1; maxIdle := 1; connections := [Some 1%nat]; idle := [];
              waiting := [0%nat]; closed := false;
              chans := <[0%nat := make_chan]> ∅;
              next_chan := 1; conn_closed := [] |} in
  exists wait p1 p2,
    Get true (Some 2%nat, None) p = (Blocked wait, p1)
    /\ waiting p1 = waiting p ++ [wait]
    /\ Get_cancel wait "context canceled" p1 = (Returned None (Some "context canceled"%string), p2)
    /\ waiting p2 = waiting p
    /\ connections p2 = connections p /\ idle p2 = idle p
    /\ conn_closed p2 = conn_closed p.
Proof.
  intros p.
  apply (cancelled_waiter_leaves_no_trace p true (Some 2%nat, None) "context canceled").
  - split; [apply NoDup_singleton|].
    intros w Hw. apply list_elem_of_singleton in Hw. subst w.
    split; [simpl; lia | reflexivity].
  - reflexivity.
  - reflexivity.
  - vm_compute. discriminate.
Defined.

Lemma filter_idem (v : Connection -> bool) (l : list Connection) :
  filter (fun c => v c = true) (filter (fun c => v c = true) l)
  = filter (fun c => v c = true) l.
Proof.
  induction l as [|x l IH]; [reflexivity|].
  rewrite filter_cons. destruct (decide (v x = true)) as [Hx|Hx].
  - rewrite filter_cons. destruct (decide (v x = true)); [|contradiction].
    f_equal. exact IH.
  - exact IH.
Qed.

Lemma filter_none_left (v : Connection -> bool) (l : list Connection) :
  filter (fun c => v c = false) (filter (fun c => v c = true) l) = [].
Proof.
  induction l as [|x l IH]; [reflexivity|].
  rewrite filter_cons. destruct (decide (v x = true)) as [Hx|Hx]; [|exact IH].
  rewrite filter_cons. destruct (decide (v x = false)); [congruence | exact IH].
Qed.

Lemma filter_all_valid (v : Connection -> bool) (l : list Connection) :
  Forall (fun c => v c = true) (filter (fun c => v c = true) l).
Proof.
  induction l as [|x l IH]; [constructor|].
  rewrite filter_cons. destruct (decide (v x = true)); [constructor|]; assumption.
Qed.

(** The sweep of an open pool, field by field. *)
Lemma cleanup_open (valid : Connection -> bool) (p : ConnectionPool) :
  closed p = false ->
  cleanup valid p
  = {| maxOpen := maxOpen p; maxIdle := maxIdle p;
       connections := filter (fun c => valid c = true) (connections p);
       idle := filter (fun c => valid c = true) (idle p);
       waiting := waiting p; closed := false; chans := chans p;
       next_chan := next_chan p;
       conn_closed := (conn_closed p ++ filter (fun c => valid c = false) (idle p))
                        ++ filter (fun c => valid c = false) (connections p) |}.
Proof.
  destruct p as [mo mi cs ids w cl ch nc cc]. cbn [closed]. intros ->.
  reflexivity.
Qed.

(** X11.  The sweep of an open pool keeps exactly the connections that
    answer valid, idle and active, in their order, and closes each of
    the others once; a second sweep with the same answers changes
    nothing and closes nothing.  On a closed pool the sweep does
    nothing. *)
Theorem cleanup_keeps_the_valid (valid : Connection -> bool) (p : ConnectionPool) :
  cleanup valid (cleanup valid p) = cleanup valid p
  /\ (closed p = true -> cleanup valid p = p)
  /\ (closed p = false ->
      idle (cleanup valid p) = filter (fun c => valid c = true) (idle p)
      /\ connections (cleanup valid p) = filter (fun c => valid c = true) (connections p)
      /\ Forall (fun c => valid c = true) (idle (cleanup valid p))
      /\ Forall (fun c => valid c = true) (connections (cleanup valid p))
      /\ conn_closed (cleanup valid p)
         = conn_closed p ++ filter (fun c => valid c = false) (idle p)
                         ++ filter (fun c => valid c = false) (connections p)
      /\ waiting (cleanup valid p) = waiting p).
Proof.
  assert (Hclosed : closed p = true -> cleanup valid p = p).
  { intros H. unfold cleanup. rewrite H. reflexivity. }
  destruct (closed p) eqn:Hc.
  - rewrite (Hclosed eq_refl), (Hclosed eq_refl).
    split; [reflexivity|]. split; [reflexivity | discriminate].
  - rewrite (cleanup_open valid p Hc).
    split; [|split; [discriminate|]].
    + rewrite cleanup_open by reflexivity. cbn [maxOpen maxIdle connections idle waiting
        closed chans next_chan conn_closed].
      rewrite !filter_idem, !filter_none_left, !app_nil_r. reflexivity.
    + intros _. cbn [connections idle waiting conn_closed].
      split; [reflexivity|]. split; [reflexivity|].
      split; [apply filter_all_valid|]. split; [apply filter_all_valid|].
      split; [rewrite app_assoc; reflexivity | reflexivity].
Qed.

End PoolMore.

(** ** Retry helper: bounds, first decision, cancellation, results *)

Section RetryMore.

Import retry.

Context {Err : Type}.
Variable errors_Is : Err -> Err -> bool.
Variable math_Pow : float -> float -> float.

Local Abbreviation retryable' config e :=
  (isRetryableError errors_Is e (RetryableErrors config) = true).

(** [m] retryable failures in a row with no cancellation at their
    checks: the loop goes round [m] times. *)
Lemma loop_retries_until (ctx : @Ctx Err) (config : @RetryConfig Err)
    (fn : nat -> option Err) (rnd : Z -> float) (m : nat) :
  MaxAttempts config <= Go.max_int ->
  forall (fuel : nat) (attempt : Z) (lastErr : option Err) (calls : nat)
         (sl : list (option Go.Duration)) (hk : list (Z * Err)),
    1 <= attempt -> attempt + Z.of_nat m <= MaxAttempts config ->
    uncancelled_before ctx (attempt + Z.of_nat m) ->
    (forall j, (j < m)%nat -> exists e, fn (calls + j)%nat = Some e /\ retryable' config e) ->
    exists (lastErr' : option Err) (hk' : list (Z * Err)),
      length hk' = (length hk + m)%nat
      /\ loop errors_Is math_Pow ctx config fn rnd (m + fuel) attempt lastErr calls sl hk
         = loop errors_Is math_Pow ctx config fn rnd fuel (attempt + Z.of_nat m) lastErr'
             (calls + m) (sl ++ delays_from math_Pow config rnd attempt m) hk'.
Proof.
  intros Hmax. induction m as [|m IH];
    intros fuel attempt lastErr calls sl hk Ha Hm Hctx Hfn.
  - exists lastErr, hk. split; [lia|].
    rewrite Z.add_0_r, Nat.add_0_r. unfold delays_from. simpl.
    rewrite app_nil_r. reflexivity.
  - destruct (Hfn 0%nat ltac:(lia)) as (e & He & Hre). rewrite Nat.add_0_r in He.
    assert (Hstep :
      loop errors_Is math_Pow ctx config fn rnd (S m + fuel) attempt lastErr calls sl hk
      = loop errors_Is math_Pow ctx config fn rnd (m + fuel) (attempt + 1) (Some e) (S calls)
          (sl ++ [calculateDelay math_Pow (rnd attempt) attempt config])
          (hk ++ [(attempt, e)])).
    { simpl. destruct (Hctx attempt ltac:(lia)) as [Hb Hd].
      destruct (Z.leb_spec attempt (MaxAttempts config)); [|lia].
      rewrite Hb, He, Hre. simpl.
      destruct (Z.eqb_spec attempt (MaxAttempts config)); [lia|].
      rewrite Hd. unfold Go.incr. rewrite wrap_id; [reflexivity|].
      unfold Go.in_int, Go.min_int, Go.max_int in *. lia. }
    rewrite Hstep.
    destruct (IH fuel (attempt + 1) (Some e) (S calls)
                (sl ++ [calculateDelay math_Pow (rnd attempt) attempt config])
                (hk ++ [(attempt, e)])) as (last' & hk' & Hlen & Hloop); try lia.
    { intros j Hj. apply Hctx. lia. }
    { intros j Hj. destruct (Hfn (S j) ltac:(lia)) as (x & Hx & Hrx).
      exists x. split; [|exact Hrx].
      replace (S calls + j)%nat with (calls + S j)%nat by lia. exact Hx. }
    exists last', hk'. split.
    + rewrite Hlen, length_app. simpl. lia.
    + rewrite Hloop, (delays_from_S math_Pow config rnd attempt m), <- app_assoc.
      replace (attempt + 1 + Z.of_nat m) with (attempt + Z.of_nat (S m)) by lia.
      replace (S calls + m)%nat with (calls + S m)%nat by lia. reflexivity.
Qed.

(** X12.  The first invocation that settles the matter ends [Retry]:
    after [m] retryable failures, with an attempt left and no
    cancellation so far, an invocation that succeeds, or fails with an
    error that is not retryable, makes [Retry] return its outcome at
    once: [m + 1] invocations, [m] sleeps, [m] calls of the hook. *)
Theorem retry_stops_at_first_decision (ctx : @Ctx Err) (config : @RetryConfig Err)
    (fn : nat -> option Err) (rnd : Z -> float) (m : nat) :
  MaxAttempts config <= Go.max_int ->
  1 + Z.of_nat m <= MaxAttempts config ->
  uncancelled_before ctx (1 + Z.of_nat m) ->
  done_before ctx (1 + Z.of_nat m) = false ->
  (forall j, (j < m)%nat -> exists e, fn j = Some e /\ retryable' config e) ->
  match fn m with
  | None => True
  | Some e => isRetryableError errors_Is e (RetryableErrors config) = false
  end ->
  exists hk : list (Z * Err),
    length hk = m
    /\ Retry errors_Is math_Pow ctx config fn rnd
       = Some {| returned := fn m; invocations := S m;
                 slept := delays_from math_Pow config rnd 1 m; retried := hk |}.
Proof.
  intros Hmax Hm Hctx Hb Hfn Hdec.
  destruct (loop_retries_until ctx config fn rnd m Hmax
              (S (Z.to_nat (MaxAttempts config)) - m) 1 None 0%nat [] [])
    as (last' & hk & Hlen & Hloop); try lia; auto.
  exists hk. split; [exact Hlen|]. unfold Retry.
  replace (S (Z.to_nat (MaxAttempts config)))
    with (m + (S (Z.to_nat (MaxAttempts config)) - m))%nat by lia.
  rewrite Hloop.
  destruct (S (Z.to_nat (MaxAttempts config)) - m)%nat as [|fuel] eqn:Hfuel; [lia|].
  simpl. destruct (Z.leb_spec (1 + Z.of_nat m) (MaxAttempts config)); [|lia].
  rewrite Hb. destruct (fn m) as [e|]; [|reflexivity].
  rewrite Hdec. reflexivity.
Qed.


(** X13.  Cancellation.  After [m] retryable failures, with an attempt
    left: if the context is done at the check before the next attempt,
    [Retry] returns the context's error and the operation is not
    invoked again; if it becomes done during the sleep after a further
    retryable failure (not the last attempt), [Retry] returns the
    context's error after that invocation, the hook having been called
    and the sleep not completed. *)
Theorem retry_cancelled (ctx : @Ctx Err) (config : @RetryConfig Err)
    (fn : nat -> option Err) (rnd : Z -> float) (m : nat) :
  MaxAttempts config <= Go.max_int ->
  1 + Z.of_nat m <= MaxAttempts config ->
  uncancelled_before ctx (1 + Z.of_nat m) ->
  (forall j, (j < m)%nat -> exists e, fn j = Some e /\ retryable' config e) ->
  exists hk : list (Z * Err),
    length hk = m
    /\ (done_before ctx (1 + Z.of_nat m) = true ->
        Retry errors_Is math_Pow ctx config fn rnd
        = Some {| returned := Some (ctx_Err ctx); invocations := m;
                  slept := delays_from math_Pow config rnd 1 m; retried := hk |})
    /\ (forall e, done_before ctx (1 + Z.of_nat m) = false ->
          fn m = Some e -> retryable' config e ->
          1 + Z.of_nat m < MaxAttempts config ->
          done_during ctx (1 + Z.of_nat m) = true ->
          Retry errors_Is math_Pow ctx config fn rnd
          = Some {| returned := Some (ctx_Err ctx); invocations := S m;
                    slept := delays_from math_Pow config rnd 1 m;
                    retried := hk ++ [(1 + Z.of_nat m, e)] |}).
Proof.
  intros Hmax Hm Hctx Hfn.
  destruct (loop_retries_until ctx config fn rnd m Hmax
              (S (Z.to_nat (MaxAttempts config)) - m) 1 None 0%nat [] [])
    as (last' & hk & Hlen & Hloop); try lia; auto.
  exists hk. split; [exact Hlen|].
  assert (Heq : Retry errors_Is math_Pow ctx config fn rnd
                = loop errors_Is math_Pow ctx config fn rnd
                    (S (Z.to_nat (MaxAttempts config)) - m) (1 + Z.of_nat m) last' m
                    (delays_from math_Pow config rnd 1 m) hk).
  { unfold Retry.
    replace (S (Z.to_nat (MaxAttempts config)))
      with (m + (S (Z.to_nat (MaxAttempts config)) - m))%nat at 1 by lia.
    exact Hloop. }
  rewrite Heq.
  destruct (S (Z.to_nat (MaxAttempts config)) - m)%nat as [|fuel] eqn:Hfuel; [lia|].
  simpl. destruct (Z.leb_spec (1 + Z.of_nat m) (MaxAttempts config)); [|lia].
  split.
  - intros Hb. rewrite Hb. reflexivity.
  - intros e Hb He Hre Hlt Hd. rewrite Hb, He, Hre. simpl.
    destruct (Z.eqb_spec (1 + Z.of_nat m) (MaxAttempts config)); [lia|].
    rewrite Hd. reflexivity.
Qed.


(** The loop ends within its fuel, and its counts stay together. *)
Lemma loop_bounded (ctx : @Ctx Err) (config : @RetryConfig Err) (fn : nat -> option Err)
    (rnd : Z -> float) :
  MaxAttempts config <= Go.max_int ->
  forall (fuel : nat) (attempt : Z) (lastErr : option Err) (calls : nat)
         (sl : list (option Go.Duration)) (hk : list (Z * Err)),
    1 <= attempt -> Z.of_nat calls = attempt - 1 ->
    length sl = calls -> length hk = calls ->
    (Z.to_nat (MaxAttempts config - attempt + 1) < fuel)%nat ->
    exists run,
      loop errors_Is math_Pow ctx config fn rnd fuel attempt lastErr calls sl hk = Some run
      /\ Z.of_nat (invocations run) <= Z.max (attempt - 1) (MaxAttempts config)
      /\ (length (slept run) <= invocations run <= S (length (slept run)))%nat
      /\ (length (slept run) <= length (retried run) <= S (length (slept run)))%nat.
Proof.
  intros Hmax. induction fuel as [|fuel IH];
    intros attempt lastErr calls sl hk Ha Hc Hsl Hhk Hf; [lia|].
  simpl. destruct (Z.leb_spec attempt (MaxAttempts config)).
  2:{ eexists; split; [reflexivity|]. simpl. lia. }
  destruct (done_before ctx attempt).
  { eexists; split; [reflexivity|]. simpl. lia. }
  destruct (fn calls) as [e|].
  2:{ eexists; split; [reflexivity|]. simpl. lia. }
  destruct (negb _).
  { eexists; split; [reflexivity|]. simpl. lia. }
  destruct (Z.eqb_spec attempt (MaxAttempts config)).
  { eexists; split; [reflexivity|]. simpl. lia. }
  destruct (done_during ctx attempt).
  { eexists; split; [reflexivity|]. simpl. rewrite length_app. simpl. lia. }
  assert (Hi : Go.incr attempt = attempt + 1).
  { unfold Go.incr. apply wrap_id. unfold Go.in_int, Go.min_int, Go.max_int in *. lia. }
  rewrite Hi.
  destruct (IH (attempt + 1) (Some e) (S calls)
              (sl ++ [calculateDelay math_Pow (rnd attempt) attempt config])
              (hk ++ [(attempt, e)])) as (run & Hrun & Hb & Hs & Hh);
    try lia; try (rewrite length_app; simpl; lia).
  exists run. split; [exact Hrun|]. repeat split; lia.
Qed.

(** X14.  [Retry] always returns, and never invokes the operation more
    than [MaxAttempts] times; it sleeps only between invocations (the
    sleeps completed are the invocations or one less) and calls the
    hook once before each sleep it starts.  With [MaxAttempts] of zero
    or less it returns nil without invoking the operation at all. *)
Theorem Retry_bounded (ctx : @Ctx Err) (config : @RetryConfig Err) (fn : nat -> option Err)
    (rnd : Z -> float) :
  MaxAttempts config <= Go.max_int ->
  exists run,
    Retry errors_Is math_Pow ctx config fn rnd = Some run
    /\ Z.of_nat (invocations run) <= Z.max 0 (MaxAttempts config)
    /\ (length (slept run) <= invocations run <= S (length (slept run)))%nat
    /\ (length (slept run) <= length (retried run) <= S (length (slept run)))%nat
    /\ (MaxAttempts config <= 0 ->
        run = {| returned := None; invocations := 0; slept := []; retried := [] |}).
Proof.
  intros Hmax.
  destruct (loop_bounded ctx config fn rnd Hmax (S (Z.to_nat (MaxAttempts config)))
              1 None 0%nat [] []) as (run & Hrun & Hb & Hs & Hh); try lia; try reflexivity.
  exists run. unfold Retry. split; [exact Hrun|]. repeat split; try lia.
  intros H0. replace (Z.to_nat (MaxAttempts config)) with 0%nat in Hrun by lia.
  simpl in Hrun. destruct (Z.leb_spec 1 (MaxAttempts config)); [lia|].
  congruence.
Qed.


(** [RetryWithResult] goes the way of [Retry] on the errors of the
    operation. *)
Lemma loop_with_result_eq {T : Type} (zero : T) (ctx : @Ctx Err) (config : @RetryConfig Err)
    (fn : nat -> T * option Err) (rnd : Z -> float) :
  forall (fuel : nat) (attempt : Z) (lastErr : option Err) (calls : nat)
         (sl : list (option Go.Duration)) (hk : list (Z * Err)),
    (lastErr = None -> calls = 0%nat) ->
    loop_with_result errors_Is math_Pow zero ctx config fn rnd fuel attempt lastErr calls sl hk
    = option_map
        (fun run => (match returned run, invocations run with
                     | None, S k => fst (fn k)
                     | _, _ => zero
                     end, run))
        (loop errors_Is math_Pow ctx config (fun k => snd (fn k)) rnd fuel attempt lastErr
           calls sl hk).
Proof.
  induction fuel as [|fuel IH]; intros attempt lastErr calls sl hk Hl; [reflexivity|].
  simpl. destruct (attempt <=? MaxAttempts config).
  2:{ simpl. destruct lastErr; [reflexivity|]. rewrite (Hl eq_refl). reflexivity. }
  destruct (done_before ctx attempt); [reflexivity|].
  destruct (fn calls) as [result [e|]] eqn:Hfn; simpl; [|rewrite Hfn; reflexivity].
  destruct (negb _); [reflexivity|].
  destruct (attempt =? MaxAttempts config); [reflexivity|].
  destruct (done_during ctx attempt); [reflexivity|].
  apply IH. discriminate.
Qed.

(** X15.  [RetryWithResult] is [Retry] with a value: it returns in the
    same cases, with the same error, invocations, sleeps and hook
    calls as [Retry] run on the operation's errors; its value is the
    value of the invocation that succeeded when the error is nil, and
    the zero value in every other case. *)
Theorem RetryWithResult_is_Retry {T : Type} (zero : T) (ctx : @Ctx Err)
    (config : @RetryConfig Err) (fn : nat -> T * option Err) (rnd : Z -> float) :
  RetryWithResult errors_Is math_Pow zero ctx config fn rnd
  = option_map
      (fun run => (match returned run, invocations run with
                   | None, S k => fst (fn k)
                   | _, _ => zero
                   end, run))
      (Retry errors_Is math_Pow ctx config (fun k => snd (fn k)) rnd).
Proof. unfold RetryWithResult, Retry. apply loop_with_result_eq. reflexivity. Qed.

End RetryMore.

(** The retry theorems at a concrete configuration. *)

Section RetryExamples.

Import retry.

Lemma retry_stops_at_first_decision_witness :
  let config : @RetryConfig nat :=
    {| MaxAttempts := 5; InitialDelay := 100000000; MaxDelay := 30000000000;
       BackoffFactor := 1%float; Jitter := false; RetryableErrors := [1%nat] |} in
  let ctx := {| done_before := fun _ => false; done_during := fun _ => false;
                ctx_Err := 0%nat |} in
  let fn := fun k : nat => if (k <? 2)%nat then Some 1%nat else Some 7%nat in
  let pow := fun x y : float => if PrimFloat.eqb x 1 then 1%float else nan in
  exists hk : list (Z * nat),
    length hk = 2%nat
    /\ Retry Nat.eqb pow ctx config fn (fun _ => 0%float)
       = Some {| returned := Some 7%nat; invocations := 3;
                 slept := [Some 100000000; Some 100000000]; retried := hk |}.
Proof.
  intros config ctx fn pow.
  refine (retry_stops_at_first_decision Nat.eqb pow ctx config fn (fun _ => 0%float) 2
            _ _ _ _ _ _).
  - vm_compute. discriminate.
  - vm_compute. discriminate.
  - intros j _. split; reflexivity.
  - reflexivity.
  - intros j Hj. exists 1%nat. split; [|reflexivity].
    destruct j as [|[|j]]; [reflexivity | reflexivity | lia].
  - reflexivity.
Defined.

Lemma retry_cancelled_witness :
  let config : @RetryConfig nat :=
    {| MaxAttempts := 5; InitialDelay := 100000000; MaxDelay := 30000000000;
       BackoffFactor := 1%float; Jitter := false; RetryableErrors := [] |} in
  let ctx := {| done_before := fun k => 3 <=? k; done_during := fun k => 3 <=? k;
                ctx_Err := 0%nat |} in
  let fn := fun k : nat => Some (S k) in
  let pow := fun x y : float => if PrimFloat.eqb x 1 then 1%float else nan in
  exists hk : list (Z * nat),
    length hk = 2%nat
    /\ Retry Nat.eqb pow ctx config fn (fun _ => 0%float)
       = Some {| returned := Some 0%nat; invocations := 2;
                 slept := [Some 100000000; Some 100000000]; retried := hk |}.
Proof.
  intros config ctx fn pow.
  destruct (retry_cancelled Nat.eqb pow ctx config fn (fun _ => 0%float) 2)
    as (hk & Hlen & Hbefore & _).
  - vm_compute. discriminate.
  - vm_compute. discriminate.
  - intros j Hj. simpl. destruct (Z.leb_spec 3 j); [lia | auto].
  - intros j Hj. exists (S j). split; reflexivity.
  - exists hk. split; [exact Hlen|]. apply Hbefore. reflexivity.
Defined.

Lemma Retry_bounded_witness :
  let config : @RetryConfig nat :=
    {| MaxAttempts := 0; InitialDelay := 100000000; MaxDelay := 30000000000;
       BackoffFactor := 2%float; Jitter := true; RetryableErrors := [] |} in
  let ctx := {| done_before := fun _ => false; done_during := fun _ => false;
                ctx_Err := 0%nat |} in
  let pow := fun x y : float => if PrimFloat.eqb x 1 then 1%float else nan in
  exists run,
    Retry Nat.eqb pow ctx config (fun k => Some k) (fun _ => 0%float) = Some run
    /\ Z.of_nat (invocations run) <= Z.max 0 (MaxAttempts config)
    /\ (length (slept run) <= invocations run <= S (length (slept run)))%nat
    /\ (length (slept run) <= length (retried run) <= S (length (slept run)))%nat
    /\ (MaxAttempts config <= 0 ->
        run = {| returned := None; invocations := 0; slept := []; retried := [] |}).
Proof.
  intros config ctx pow.
  apply (Retry_bounded Nat.eqb pow ctx config (fun k => Some k) (fun _ => 0%float)).
  vm_compute. discriminate.
Defined.

End RetryExamples.

(** ** OTP service: replacement, expiry, failures, separation *)

Section OTPMore.

Import redis.

Lemma string_app_assoc (a b c : string) : ((a ++ b) ++ c = a ++ (b ++ c))%string.
Proof.
  induction a as [|x a IH]; [reflexivity|].
  exact (f_equal (String x) IH).
Qed.

Lemma string_app_inv_head (p a b : string) : (p ++ a = p ++ b)%string -> a = b.
Proof.
  induction p as [|x p IH]; intros H; [exact H|].
  change (String x (p ++ a) = String x (p ++ b))%string in H.
  injection H as H. exact (IH H).
Qed.

(** Different phone numbers have different keys. *)
Lemma otpKey_inj (cfg : OTPConfig) (a b : string) : otpKey cfg a = otpKey cfg b -> a = b.
Proof.
  unfold otpKey. intros H. apply string_app_inv_head in H.
  exact (string_app_inv_head _ _ _ H).
Qed.

Lemma get_In (s : string) : forall (n : nat) (b : ascii),
  String.get n s = Some b -> In b (bytes s).
Proof.
  induction s as [|a s IH]; intros n b H; simpl in H; [discriminate|].
  destruct n as [|n]; simpl.
  - injection H as ->. left. reflexivity.
  - right. exact (IH n b H).
Qed.

Lemma bytes_app (a b : string) : bytes (a ++ b) = (bytes a ++ bytes b)%list.
Proof.
  induction a as [|x a IH]; [reflexivity|].
  exact (f_equal (cons x) IH).
Qed.

(** Over a charset of bytes below 128 every round adds one byte of
    the charset. *)
Lemma generate_loop_shape (r : Reader) (charset : string) (n : nat) :
  ascii_charset charset ->
  forall (i : nat) (code out : string),
    generate_loop r charset n i code = (out, None) ->
    exists suffix, out = (code ++ suffix)%string
                   /\ String.length suffix = n
                   /\ Forall (fun b => In b (bytes charset)) (bytes suffix).
Proof.
  intros Hc. induction n as [|n IH]; intros i code out H; simpl in H.
  - injection H as <-. exists EmptyString. split; [|split; [reflexivity | constructor]].
    clear. induction code as [|x c IH]; [reflexivity|].
    exact (f_equal (String x) IH).
  - destruct (rand_Int r i (N.of_nat (String.length charset))) as [num|e];
      [|discriminate H].
    destruct (String.get (N.to_nat num) charset) as [b|] eqn:Hb; [|discriminate H].
    pose proof (get_In _ _ _ Hb) as Hin.
    assert (Hs : string_of_byte b = String b EmptyString).
    { unfold string_of_byte. unfold ascii_charset in Hc.
      rewrite List.Forall_forall in Hc. specialize (Hc b Hin).
      destruct (N.ltb_spec (N_of_ascii b) 128); [reflexivity | lia]. }
    rewrite Hs in H. destruct (IH _ _ _ H) as (suffix & -> & Hlen & Hall).
    exists (String b suffix).
    split; [exact (string_app_assoc code (String b EmptyString) suffix)|].
    split; [simpl; rewrite Hlen; reflexivity|].
    simpl. constructor; assumption.
Qed.

(** X16.  Over a charset of bytes below 128, a code that
    [generateRandomCode] returns has exactly [length] bytes ([0] for a
    negative [length]), each of them a byte of the charset in use (the
    ten digits when the configured charset is empty). *)
Theorem generated_code_shape (cfg : OTPConfig) (r : Reader) (length : Z) (code : string) :
  ascii_charset (charset_of cfg) ->
  generateRandomCode cfg r length = (code, None) ->
  String.length code = Z.to_nat length
  /\ Forall (fun b => In b (bytes (charset_of cfg))) (bytes code).
Proof.
  intros Hc H. unfold generateRandomCode in H.
  destruct (generate_loop_shape r (charset_of cfg) (Z.to_nat length) Hc _ _ _ H)
    as (suffix & -> & Hlen & Hall).
  simpl. split; assumption.
Qed.

Lemma generated_code_shape_witness :
  let cfg := {| Expiry := 120 * 1000000000; Length := 6;
                RedisKeyPrefix := "otp"; CodeCharset := EmptyString |} in
  let r : Reader := fun i => inl (N.of_nat (7 * i + 3)) in
  String.length "307418" = Z.to_nat 6
  /\ Forall (fun b => In b (bytes (charset_of cfg))) (bytes "307418").
Proof.
  intros cfg r. apply (generated_code_shape cfg r 6 "307418").
  - unfold ascii_charset. simpl. repeat constructor.
  - reflexivity.
Defined.

(** What [GenerateOTP] leaves in the store when it succeeds. *)
Lemma GenerateOTP_stores (cfg : OTPConfig) (r : Reader) (now : Go.Time)
    (st st' : gmap string Entry) (phoneNumber code : string) :
  0 < Expiry cfg ->
  GenerateOTP cfg r None now st phoneNumber = ((code, None), st') ->
  generateRandomCode cfg r (Length cfg) = (code, None)
  /\ st' = <[otpKey cfg phoneNumber :=
              {| value := code; deadline := Some (now + Expiry cfg) |}]> st.
Proof.
  intros HE H. unfold GenerateOTP in H.
  destruct (generateRandomCode cfg r (Length cfg)) as [c [e|]]; [discriminate H|].
  unfold Set_ in H. destruct (Z.ltb_spec 0 (Expiry cfg)); [|lia].
  injection H as -> <-. split; reflexivity.
Qed.

(** X17.  [GenerateOTP] replaces whatever was pending for the number.
    After a successful [GenerateOTP], and before the expiry, the code
    it returned validates and is deleted by that; every other code, in
    particular a code issued earlier for the same number, is rejected
    as invalid and changes nothing; and the time to live is the full
    expiry again. *)
Theorem new_code_replaces_pending (cfg : OTPConfig) (r : Reader) (now now1 : Go.Time)
    (st st' : gmap string Entry) (phoneNumber code : string) :
  1 <= Length cfg -> 0 < Expiry cfg ->
  GenerateOTP cfg r None now st phoneNumber = ((code, None), st') ->
  now1 < now + Expiry cfg ->
  ValidateOTP cfg None None now1 st' phoneNumber code
    = (None, delete (otpKey cfg phoneNumber) st')
  /\ (forall (other : string) (fdel : Go.error),
        other <> code ->
        ValidateOTP cfg None fdel now1 st' phoneNumber other = (Some ErrInvalid, st'))
  /\ remaining now st' (otpKey cfg phoneNumber) = Some (Expiry cfg).
Proof.
  intros HL HE Hgen Hnow.
  destruct (GenerateOTP_stores _ _ _ _ _ _ _ HE Hgen) as [Hcode ->].
  set (e := {| value := code; deadline := Some (now + Expiry cfg) |}).
  assert (Hne : code <> EmptyString).
  { intros ->. unfold generateRandomCode in Hcode.
    apply generate_loop_length in Hcode. simpl in Hcode. lia. }
  assert (Hf : forall t, t < now + Expiry cfg ->
             fetch t (<[otpKey cfg phoneNumber := e]> st) (otpKey cfg phoneNumber) = Some e).
  { intros t Ht. unfold fetch. rewrite lookup_insert_eq. unfold live. simpl.
    destruct (Z.ltb_spec t (now + Expiry cfg)); [reflexivity | lia]. }
  split; [|split].
  - exact (ValidateOTP_match cfg now1 _ phoneNumber e (Hf now1 Hnow) Hne).
  - intros other fdel Ho. unfold ValidateOTP. rewrite (Get_live _ _ _ _ (Hf now1 Hnow)).
    rewrite bool_decide_eq_false_2 by (intros H; apply H; reflexivity).
    rewrite bool_decide_eq_false_2 by exact Hne. simpl.
    rewrite bool_decide_eq_true_2 by congruence. reflexivity.
  - unfold remaining. rewrite (Hf now ltac:(lia)). simpl. f_equal. lia.
Qed.

Lemma new_code_replaces_pending_witness :
  let cfg := {| Expiry := 120; Length := 6; RedisKeyPrefix := "otp";
                CodeCharset := "0123456789" |} in
  let r : Reader := fun i => inl (N.of_nat (7 * i + 3)) in
  let st : gmap string Entry :=
    {[ "otp:+1234567890"%string := {| value := "555555"; deadline := Some 100 |} ]} in
  let st' := snd (GenerateOTP cfg r None 50 st "+1234567890") in
  ValidateOTP cfg None None 60 st' "+1234567890" "307418"
    = (None, delete (otpKey cfg "+1234567890") st')
  /\ (forall (other : string) (fdel : Go.error),
        other <> "307418"%string ->
        ValidateOTP cfg None fdel 60 st' "+1234567890" other = (Some ErrInvalid, st'))
  /\ remaining 50 st' (otpKey cfg "+1234567890") = Some 120.
Proof.
  intros cfg r st st'.
  apply (new_code_replaces_pending cfg r 50 60 st st' "+1234567890" "307418").
  - simpl. lia.
  - simpl. lia.
  - reflexivity.
  - simpl. lia.
Defined.

(** X18.  From the expiry on the code is gone: every validation, with
    the code that was issued or any other, fails as not found or
    expired and changes nothing, and [IsOTPValid] says false. *)
Theorem expired_code_not_found (cfg : OTPConfig) (r : Reader) (now now1 : Go.Time)
    (st st' : gmap string Entry) (phoneNumber code : string) :
  0 < Expiry cfg ->
  GenerateOTP cfg r None now st phoneNumber = ((code, None), st') ->
  now + Expiry cfg <= now1 ->
  (forall (fget fdel : Go.error) (c : string),
      ValidateOTP cfg fget fdel now1 st' phoneNumber c = (Some ErrNotFound, st'))
  /\ (forall fget : Go.error, IsOTPValid cfg fget now1 st' phoneNumber = false).
Proof.
  intros HE Hgen Hnow.
  destruct (GenerateOTP_stores _ _ _ _ _ _ _ HE Hgen) as [_ ->].
  assert (Hg : forall fget, exists e,
             Get fget now1 (<[otpKey cfg phoneNumber :=
                               {| value := code; deadline := Some (now + Expiry cfg) |}]> st)
               (otpKey cfg phoneNumber) = (EmptyString, Some e)).
  { intros fget. unfold Get, fetch. rewrite lookup_insert_eq. unfold live. simpl.
    destruct (Z.ltb_spec now1 (now + Expiry cfg)); [lia|].
    destruct fget; eauto. }
  split.
  - intros fget fdel c. unfold ValidateOTP. destruct (Hg fget) as [e ->].
    rewrite bool_decide_eq_true_2 by discriminate. reflexivity.
  - intros fget. unfold IsOTPValid. destruct (Hg fget) as [e ->].
    rewrite bool_decide_eq_false_2 by discriminate. reflexivity.
Qed.

Lemma expired_code_not_found_witness :
  let cfg := {| Expiry := 120; Length := 6; RedisKeyPrefix := "otp";
                CodeCharset := "0123456789" |} in
  let r : Reader := fun i => inl (N.of_nat (7 * i + 3)) in
  let st' := snd (GenerateOTP cfg r None 50 ∅ "+1234567890") in
  (forall (fget fdel : Go.error) (c : string),
      ValidateOTP cfg fget fdel 170 st' "+1234567890" c = (Some ErrNotFound, st'))
  /\ (forall fget : Go.error, IsOTPValid cfg fget 170 st' "+1234567890" = false).
Proof.
  intros cfg r st'.
  apply (expired_code_not_found cfg r 50 170 ∅ st' "+1234567890" "307418").
  - simpl. lia.
  - reflexivity.
  - simpl. lia.
Defined.

(** X19.  Store failures during validation, a code pending.  When the
    read fails, [ValidateOTP] answers not found or expired, whatever
    code is offered.  When the code matches and the delete fails,
    [ValidateOTP] returns the error of the delete, and the code is
    still there: the same code validates when the store is back. *)
Theorem validation_store_failures (cfg : OTPConfig) (now : Go.Time)
    (st : gmap string Entry) (phoneNumber : string) (e : Entry) (err : string) :
  fetch now st (otpKey cfg phoneNumber) = Some e ->
  value e <> EmptyString ->
  (forall (fdel : Go.error) (code : string),
      ValidateOTP cfg (Some err) fdel now st phoneNumber code = (Some ErrNotFound, st))
  /\ ValidateOTP cfg None (Some err) now st phoneNumber (value e) = (Some err, st)
  /\ ValidateOTP cfg None None now st phoneNumber (value e)
     = (None, delete (otpKey cfg phoneNumber) st).
Proof.
  intros Hf Hne. split; [|split].
  - intros fdel code. reflexivity.
  - unfold ValidateOTP. rewrite (Get_live _ _ _ _ Hf).
    rewrite bool_decide_eq_false_2 by (intros H; apply H; reflexivity).
    rewrite bool_decide_eq_false_2 by assumption. simpl.
    rewrite bool_decide_eq_false_2 by (intros H; apply H; reflexivity).
    reflexivity.
  - exact (ValidateOTP_match cfg now st phoneNumber e Hf Hne).
Qed.

Lemma validation_store_failures_witness :
  let cfg := {| Expiry := 120; Length := 6; RedisKeyPrefix := "otp";
                CodeCharset := "0123456789" |} in
  let e := {| value := "307418"; deadline := Some 120 |} in
  let st : gmap string Entry := {[ "otp:+1234567890"%string := e ]} in
  (forall (fdel : Go.error) (code : string),
      ValidateOTP cfg (Some "i/o timeout"%string) fdel 10 st "+1234567890" code
      = (Some ErrNotFound, st))
  /\ ValidateOTP cfg None (Some "i/o timeout"%string) 10 st "+1234567890" (value e)
     = (Some "i/o timeout"%string, st)
  /\ ValidateOTP cfg None None 10 st "+1234567890" (value e)
     = (None, delete (otpKey cfg "+1234567890") st).
Proof.
  intros cfg e st.
  apply (validation_store_failures cfg 10 st "+1234567890" e "i/o timeout").
  - reflexivity.
  - discriminate.
Defined.

(** X20.  [IsOTPValid] agrees with [ValidateOTP]: with the store
    reachable it says true exactly when some code would validate now;
    with the store unreachable it says false. *)
Theorem IsOTPValid_iff (cfg : OTPConfig) (now : Go.Time) (st : gmap string Entry)
    (phoneNumber : string) :
  (IsOTPValid cfg None now st phoneNumber = true
   <-> exists code, fst (ValidateOTP cfg None None now st phoneNumber code) = None)
  /\ (forall e : string, IsOTPValid cfg (Some e) now st phoneNumber = false).
Proof.
  split; [|reflexivity].
  unfold IsOTPValid, ValidateOTP, Get.
  destruct (fetch now st (otpKey cfg phoneNumber)) as [e|].
  - destruct (decide (value e = EmptyString)) as [He|He].
    + rewrite (bool_decide_eq_false_2 (value e <> EmptyString)) by (intros H; exact (H He)).
      rewrite (bool_decide_eq_true_2 (value e = EmptyString)) by exact He.
      rewrite andb_false_r, orb_true_r.
      split; [discriminate | intros [code H]; discriminate H].
    + rewrite (bool_decide_eq_true_2 (value e <> EmptyString)) by exact He.
      rewrite (bool_decide_eq_false_2 (value e = EmptyString)) by exact He.
      rewrite (bool_decide_eq_true_2 (@None string = None)) by reflexivity.
      rewrite (bool_decide_eq_false_2 (@None string <> None)) by (intros H; exact (H eq_refl)).
      split; [|reflexivity]. intros _. exists (value e). cbn [orb].
      rewrite (bool_decide_eq_false_2 (value e <> value e)) by (intros H; exact (H eq_refl)).
      reflexivity.
  - rewrite (bool_decide_eq_false_2 (Some Nil = None)) by discriminate.
    rewrite (bool_decide_eq_true_2 (Some Nil <> None)) by discriminate.
    split; [discriminate | intros [code H]; discriminate H].
Qed.

(** What an operation on one number leaves of the other keys. *)
Lemma GenerateOTP_other_key (cfg : OTPConfig) (r : Reader) (fault : Go.error)
    (now : Go.Time) (st : gmap string Entry) (phoneNumber key : string) :
  key <> otpKey cfg phoneNumber ->
  snd (GenerateOTP cfg r fault now st phoneNumber) !! key = st !! key.
Proof.
  intros Hk. unfold GenerateOTP.
  destruct (generateRandomCode cfg r (Length cfg)) as [c [e|]]; [reflexivity|].
  unfold Set_. destruct fault; simpl; [reflexivity|].
  apply lookup_insert_ne. congruence.
Qed.

Lemma ValidateOTP_other_key (cfg : OTPConfig) (fget fdel : Go.error) (now : Go.Time)
    (st : gmap string Entry) (phoneNumber code key : string) :
  key <> otpKey cfg phoneNumber ->
  snd (ValidateOTP cfg fget fdel now st phoneNumber code) !! key = st !! key.
Proof.
  intros Hk. unfold ValidateOTP.
  destruct (Get fget now st (otpKey cfg phoneNumber)) as [s e].
  destruct (_ || _); [reflexivity|].
  destruct (bool_decide _); [reflexivity|].
  unfold Del. destruct fdel; simpl; [reflexivity|].
  apply lookup_delete_ne. congruence.
Qed.

(** The answer of [ValidateOTP] depends on the store through the key
    of the number only. *)
Lemma ValidateOTP_same_key (cfg : OTPConfig) (fget fdel : Go.error) (now : Go.Time)
    (st1 st2 : gmap string Entry) (phoneNumber code : string) :
  st1 !! otpKey cfg phoneNumber = st2 !! otpKey cfg phoneNumber ->
  fst (ValidateOTP cfg fget fdel now st1 phoneNumber code)
  = fst (ValidateOTP cfg fget fdel now st2 phoneNumber code).
Proof.
  intros H. unfold ValidateOTP, Get, fetch. rewrite H.
  destruct fget; [reflexivity|].
  destruct (st2 !! otpKey cfg phoneNumber) as [e|]; [|reflexivity].
  destruct (live now e); [|reflexivity].
  destruct (_ || _); [reflexivity|].
  destruct (bool_decide _); [reflexivity|].
  unfold Del. destruct fdel; reflexivity.
Qed.

(** X21.  Phone numbers are kept apart.  Generating or validating a
    code for one number does not change what a validation for another
    number answers, now or later, whatever the outcome of the first
    operation and whatever the state of the store. *)
Theorem numbers_are_separate (cfg : OTPConfig) (phoneA phoneB : string) :
  phoneA <> phoneB ->
  forall (r : Reader) (fault fget fdel fget' fdel' : Go.error) (now now' : Go.Time)
         (st : gmap string Entry) (codeA codeB : string),
    fst (ValidateOTP cfg fget' fdel' now'
           (snd (GenerateOTP cfg r fault now st phoneA)) phoneB codeB)
    = fst (ValidateOTP cfg fget' fdel' now' st phoneB codeB)
    /\ fst (ValidateOTP cfg fget' fdel' now'
              (snd (ValidateOTP cfg fget fdel now st phoneA codeA)) phoneB codeB)
       = fst (ValidateOTP cfg fget' fdel' now' st phoneB codeB).
Proof.
  intros Hab r fault fget fdel fget' fdel' now now' st codeA codeB.
  assert (Hk : otpKey cfg phoneB <> otpKey cfg phoneA).
  { intros H. apply Hab. symmetry. exact (otpKey_inj cfg _ _ H). }
  split; apply ValidateOTP_same_key.
  - apply GenerateOTP_other_key. exact Hk.
  - apply ValidateOTP_other_key. exact Hk.
Qed.

Lemma numbers_are_separate_witness :
  let cfg := {| Expiry := 120; Length := 6; RedisKeyPrefix := "otp";
                CodeCharset := "0123456789" |} in
  let st : gmap string Entry :=
    {[ "otp:+1234567891"%string := {| value := "555555"; deadline := Some 100 |} ]} in
  let r : Reader := fun i => inl (N.of_nat (7 * i + 3)) in
  fst (ValidateOTP cfg None None 60
         (snd (GenerateOTP cfg r None 50 st "+1234567890")) "+1234567891" "555555")
  = fst (ValidateOTP cfg None None 60 st "+1234567891" "555555")
  /\ fst (ValidateOTP cfg None None 60
            (snd (ValidateOTP cfg None None 50 st "+1234567890" "555555"))
            "+1234567891" "555555")
     = fst (ValidateOTP cfg None None 60 st "+1234567891" "555555").
Proof.
  intros cfg st r.
  apply (numbers_are_separate cfg "+1234567890" "+1234567891").
  discriminate.
Defined.

End OTPMore.

(** ** Authentication service: the phone number format *)

Section AuthService.

Import services.

Lemma digits_only_spec (s : string) :
  digits_only s = true
  <-> Forall (fun c => (48 <= N_of_ascii c <= 57)%N) (redis.bytes s).
Proof.
  induction s as [|c s IH]; simpl.
  - split; [constructor | reflexivity].
  - destruct (N.ltb_spec (N_of_ascii c) 48) as [Hlo|Hlo]; simpl.
    + split; [discriminate|]. intros HF. inversion HF; subst. lia.
    + destruct (N.ltb_spec 57 (N_of_ascii c)) as [Hhi|Hhi].
      * split; [discriminate|]. intros HF. inversion HF; subst. lia.
      * rewrite IH. split.
        -- intros HF. constructor; [lia | exact HF].
        -- intros HF. inversion HF; subst. assumption.
Qed.

(** The numbers [isValidPhoneNumber] accepts. *)
Lemma isValidPhoneNumber_spec (phoneNumber : string) :
  isValidPhoneNumber phoneNumber = true
  <-> exists ds : string,
        phoneNumber = String "+" ds
        /\ (9 <= String.length ds <= 14)%nat
        /\ Forall (fun c => (48 <= N_of_ascii c <= 57)%N) (redis.bytes ds).
Proof.
  unfold isValidPhoneNumber. split.
  - intros H.
    destruct (Z.ltb_spec (Z.of_nat (String.length phoneNumber)) 10); [discriminate H|].
    destruct (Z.ltb_spec 15 (Z.of_nat (String.length phoneNumber))); [discriminate H|].
    simpl in H. destruct phoneNumber as [|c rest]; [discriminate H|].
    destruct (Ascii.eqb_spec c "+"); [|discriminate H]. subst c.
    exists rest. split; [reflexivity|]. simpl in *.
    split; [lia|]. apply digits_only_spec. exact H.
  - intros (ds & -> & Hlen & Hd). simpl String.length.
    destruct (Z.ltb_spec (Z.of_nat (S (String.length ds))) 10); [lia|].
    destruct (Z.ltb_spec 15 (Z.of_nat (S (String.length ds)))); [lia|].
    simpl. apply digits_only_spec. exact Hd.
Qed.

(** X22.  [SendOTP] issues codes for numbers of one format only: a
    plus sign followed by 9 to 14 decimal digits (10 to 15 bytes in
    all).  For any other number it returns the format error and the
    store is untouched; for a number of the format its error and its
    store are those of [GenerateOTP]. *)
Theorem SendOTP_phone_format (cfg : redis.OTPConfig) (r : redis.Reader) (fault : Go.error)
    (now : Go.Time) (st : gmap string redis.Entry) (phoneNumber : string) :
  (isValidPhoneNumber phoneNumber = true
   <-> exists ds : string,
         phoneNumber = String "+" ds
         /\ (9 <= String.length ds <= 14)%nat
         /\ Forall (fun c => (48 <= N_of_ascii c <= 57)%N) (redis.bytes ds))
  /\ (isValidPhoneNumber phoneNumber = false ->
      SendOTP cfg r fault now st phoneNumber = (Some ErrInvalidPhone, st))
  /\ (isValidPhoneNumber phoneNumber = true ->
      SendOTP cfg r fault now st phoneNumber
      = (snd (fst (redis.GenerateOTP cfg r fault now st phoneNumber)),
         snd (redis.GenerateOTP cfg r fault now st phoneNumber))).
Proof.
  split; [apply isValidPhoneNumber_spec|]. split.
  - intros H. unfold SendOTP. rewrite H. reflexivity.
  - intros H. unfold SendOTP. rewrite H. simpl.
    destruct (redis.GenerateOTP cfg r fault now st phoneNumber) as [[c [e|]] st'];
      reflexivity.
Qed.

End AuthService.

(** ** Rate limiter: the quota, the headers and the scopes *)

Section RateLimiterMore.

Import middleware.

Lemma Itoa_not_empty (c : Z) : Go.in_int c -> strconv.Itoa c <> EmptyString.
Proof.
  intros Hc He. pose proof (Atoi_Itoa c Hc) as H. rewrite He in H.
  assert (Hz : strconv.Atoi EmptyString = (0, true)) by reflexivity.
  congruence.
Qed.

(** The count read from a key that holds a count and is live. *)
Lemma current_count_stored (now : Go.Time) (st : gmap string redis.Entry) (key : string)
    (c : Z) (d : Go.Time) :
  st !! key = Some {| redis.value := strconv.Itoa c; redis.deadline := Some d |} ->
  Go.in_int c -> now < d ->
  current_count None now st key = c.
Proof.
  intros Hs Hc Hd. unfold current_count, redis.Get, redis.fetch, redis.live.
  rewrite Hs. simpl. destruct (Z.ltb_spec now d); [|lia]. simpl.
  destruct (decide (strconv.Itoa c = EmptyString)) as [He|_].
  - destruct (Itoa_not_empty c Hc He).
  - rewrite (Atoi_Itoa c Hc). reflexivity.
Qed.

(** The count read when the key is missing or has expired. *)
Lemma current_count_gone (now : Go.Time) (st : gmap string redis.Entry) (key : string) :
  redis.fetch now st key = None -> current_count None now st key = 0.
Proof. intros H. unfold current_count, redis.Get. rewrite H. reflexivity. Qed.

(** An allowed request, the store reachable. *)
Lemma allowed_step (now : Go.Time) (st : gmap string redis.Entry) (key : string)
    (limit : Z) (window : Go.Duration) (c : Z) :
  current_count None now st key = c -> c < limit -> limit <= Go.max_int -> 0 < window ->
  checkRateLimit None None now st key limit window
  = (None, <[key := {| redis.value := strconv.Itoa (c + 1);
                       redis.deadline := Some (now + window) |}]> st).
Proof.
  intros Hc Hlt Hmax Hw. rewrite checkRateLimit_eq, Hc.
  pose proof (current_count_in_int None now st key) as Hi. rewrite Hc in Hi.
  destruct (Z.leb_spec limit c); [lia|].
  unfold Go.incr. rewrite wrap_id by (unfold Go.in_int in *; lia).
  unfold redis.Set_. destruct (Z.ltb_spec 0 window); [reflexivity | lia].
Qed.

Lemma serve_app (ts1 ts2 : list Go.Time) (key : string) (limit : Z) (window : Go.Duration) :
  forall st : gmap string redis.Entry,
    serve (ts1 ++ ts2) st key limit window
    = (fst (serve ts1 st key limit window)
         ++ fst (serve ts2 (snd (serve ts1 st key limit window)) key limit window),
       snd (serve ts2 (snd (serve ts1 st key limit window)) key limit window)).
Proof.
  induction ts1 as [|t ts1 IH]; intros st; simpl.
  - destruct (serve ts2 st key limit window); reflexivity.
  - destruct (checkRateLimit None None t st key limit window) as [r st1].
    rewrite IH.
    destruct (serve ts1 st1 key limit window) as [rs st2]. simpl.
    destruct (serve ts2 st2 key limit window); reflexivity.
Qed.

Lemma last_cons_default (x d : Go.Time) (l : list Go.Time) :
  List.last (x :: l) d = List.last l x.
Proof.
  revert x d. induction l as [|y l IH]; intros x d; [reflexivity|].
  change (List.last (y :: l) d = List.last (y :: l) x).
  rewrite !IH. reflexivity.
Qed.

(** Requests that follow one another within the window, below the
    limit: all allowed, each raising the count by one. *)
Lemma serve_allowed (key : string) (limit : Z) (window : Go.Duration) :
  limit <= Go.max_int -> 0 < window ->
  forall (ts : list Go.Time) (t : Go.Time) (c : Z) (st : gmap string redis.Entry),
    st !! key = Some {| redis.value := strconv.Itoa c;
                        redis.deadline := Some (t + window) |} ->
    0 <= c -> c + Z.of_nat (length ts) <= limit ->
    spaced window t ts ->
    exists st',
      serve ts st key limit window = (repeat true (length ts), st')
      /\ st' !! key = Some {| redis.value := strconv.Itoa (c + Z.of_nat (length ts));
                              redis.deadline := Some (List.last ts t + window) |}.
Proof.
  intros Hmax Hw. induction ts as [|t1 ts IH]; intros t c st Hs Hc Hlen Hsp.
  - exists st. split; [reflexivity|]. simpl. rewrite Z.add_0_r. exact Hs.
  - destruct Hsp as [Ht1 Hsp]. cbn [length] in Hlen.
    assert (Hcount : current_count None t1 st key = c).
    { apply (current_count_stored t1 st key c (t + window) Hs);
        [unfold Go.in_int, Go.min_int, Go.max_int in *; lia | exact Ht1]. }
    pose proof (allowed_step t1 st key limit window c Hcount ltac:(lia) Hmax Hw) as Hstep.
    destruct (IH t1 (c + 1) _ (lookup_insert_eq st key _) ltac:(lia) ltac:(lia) Hsp)
      as (st' & Hserve & Hst').
    exists st'. split.
    + cbn [serve]. rewrite Hstep, Hserve. reflexivity.
    + rewrite Hst', (last_cons_default t1 t ts).
      replace (c + Z.of_nat (length (t1 :: ts))) with (c + 1 + Z.of_nat (length ts))
        by (cbn [length]; lia).
      reflexivity.
Qed.

(** Requests while the count stands at the limit: all denied, the
    store untouched. *)
Lemma serve_denied (key : string) (limit : Z) (window : Go.Duration) (d : Go.Time)
    (st : gmap string redis.Entry) :
  Go.in_int limit ->
  st !! key = Some {| redis.value := strconv.Itoa limit; redis.deadline := Some d |} ->
  forall ts : list Go.Time,
    Forall (fun t => t < d) ts ->
    serve ts st key limit window = (repeat false (length ts), st).
Proof.
  intros Hl Hs. induction ts as [|t ts IH]; intros Hts; [reflexivity|].
  inversion Hts as [|? ? Ht Hts']; subst. cbn [serve].
  rewrite (denied_request_keeps_store None None t st key limit window)
    by (rewrite (current_count_stored t st key limit d Hs Hl Ht); lia).
  rewrite (IH Hts'). reflexivity.
Qed.

(** X23.  The quota.  Starting with no live count for the key, and
    with requests that each come before the window of the one before
    ends: exactly the first [limit] requests are allowed; every
    further request that comes before the window of the last allowed
    one ends is denied; the first request at or after that instant is
    allowed again and starts a new count at 1. *)
Theorem quota_enforced (st : gmap string redis.Entry) (key : string) (limit : Z)
    (window : Go.Duration) (t1 : Go.Time) (ts more : list Go.Time) (t_late : Go.Time) :
  1 <= limit <= Go.max_int -> 0 < window ->
  redis.fetch t1 st key = None ->
  length (t1 :: ts) = Z.to_nat limit ->
  spaced window t1 ts ->
  Forall (fun t => t < List.last ts t1 + window) more ->
  List.last ts t1 + window <= t_late ->
  exists st',
    serve (t1 :: ts ++ more) st key limit window
    = (repeat true (Z.to_nat limit) ++ repeat false (length more), st')
    /\ checkRateLimit None None t_late st' key limit window
       = (None, <[key := {| redis.value := strconv.Itoa 1;
                            redis.deadline := Some (t_late + window) |}]> st').
Proof.
  intros Hl Hw Hf Hlen Hsp Hmore Hlate.
  pose proof (allowed_step t1 st key limit window 0
                (current_count_gone t1 st key Hf) ltac:(lia) ltac:(lia) Hw) as Hfirst.
  change (0 + 1) with 1 in Hfirst.
  cbn [length] in Hlen.
  destruct (serve_allowed key limit window ltac:(lia) Hw ts t1 1 _
              (lookup_insert_eq st key _) ltac:(lia) ltac:(lia) Hsp)
    as (st' & Hserve & Hst').
  replace (1 + Z.of_nat (length ts)) with limit in Hst' by lia.
  assert (Hin : Go.in_int limit).
  { unfold Go.in_int, Go.min_int, Go.max_int in *. lia. }
  exists st'. split.
  - cbn [serve]. rewrite Hfirst. rewrite serve_app, Hserve. cbn [fst snd].
    rewrite (serve_denied key limit window _ st' Hin Hst' more Hmore). cbn [fst snd].
    rewrite <- Hlen. reflexivity.
  - apply (allowed_step t_late st' key limit window 0); [|lia|lia|exact Hw].
    apply current_count_gone. unfold redis.fetch, redis.live. rewrite Hst'. simpl.
    destruct (Z.ltb_spec t_late (List.last ts t1 + window)); [lia | reflexivity].
Qed.

Lemma quota_enforced_witness :
  let key := "rate_limit:otp:+1234567890"%string in
  exists st',
    serve (100 :: [300; 800] ++ [900; 1300]) ∅ key 3 600
    = (repeat true (Z.to_nat 3) ++ repeat false (length [900; 1300]), st')
    /\ checkRateLimit None None 1400 st' key 3 600
       = (None, <[key := {| redis.value := strconv.Itoa 1;
                            redis.deadline := Some (1400 + 600) |}]> st').
Proof.
  intros key.
  apply (quota_enforced ∅ key 3 600 100 [300; 800] [900; 1300] 1400).
  - unfold Go.max_int. lia.
  - lia.
  - reflexivity.
  - reflexivity.
  - simpl. lia.
  - repeat constructor.
  - simpl. lia.
Defined.

(** X24.  The remaining-requests figure agrees with the limiter.  For
    a limit that is a non-negative [int] and a count that is not
    negative, [getRemainingRequests] is the limit minus the count the
    limiter reads, or 0 when that is negative; it is 0 exactly when
    the limiter denies the next request; and an allowed request
    lowers it by one. *)
Theorem remaining_agrees_with_limiter (fget fset : Go.error) (now : Go.Time)
    (st : gmap string redis.Entry) (key : string) (limit : Z) (window : Go.Duration) :
  0 <= limit <= Go.max_int -> 0 < window ->
  0 <= current_count fget now st key ->
  getRemainingRequests fget now st key limit
    = Z.max 0 (limit - current_count fget now st key)
  /\ (getRemainingRequests fget now st key limit = 0
      <-> fst (checkRateLimit fget fset now st key limit window) <> None)
  /\ (current_count fget now st key < limit ->
      getRemainingRequests None now
        (snd (checkRateLimit fget None now st key limit window)) key limit
      = getRemainingRequests fget now st key limit - 1).
Proof.
  intros Hl Hw Hc.
  assert (Hrem : forall fg st0, 0 <= current_count fg now st0 key ->
            getRemainingRequests fg now st0 key limit
            = Z.max 0 (limit - current_count fg now st0 key)).
  { intros fg st0 H0. pose proof (current_count_in_int fg now st0 key) as Hi.
    unfold getRemainingRequests, current_count in *.
    destruct (redis.Get fg now st0 key) as [current err] eqn:Hg. simpl in *.
    assert (Herr : err <> None -> current = EmptyString).
    { unfold redis.Get in Hg. destruct fg; [injection Hg as <- <-; reflexivity|].
      destruct (redis.fetch now st0 key); injection Hg as <- <-; congruence. }
    destruct (decide (current = EmptyString)) as [He|He].
    - rewrite (bool_decide_eq_true_2 (current = EmptyString)) by exact He.
      rewrite orb_true_r. lia.
    - rewrite (bool_decide_eq_false_2 (current = EmptyString)) by exact He.
      rewrite bool_decide_eq_false_2 by (intros H; exact (He (Herr H))). simpl.
      rewrite wrap_id by (unfold Go.in_int, Go.min_int, Go.max_int in *; lia).
      destruct (Z.ltb_spec (limit - fst (strconv.Atoi current)) 0); lia. }
  split; [exact (Hrem fget st Hc)|]. split.
  - rewrite (Hrem fget st Hc), checkRateLimit_eq.
    destruct (Z.leb_spec limit (current_count fget now st key)) as [Hle|Hgt]; simpl.
    + split; [discriminate | lia].
    + split; [lia | intros Hne; destruct Hne; reflexivity].
  - intros Hlt. rewrite (Hrem fget st Hc).
    pose proof (current_count_in_int fget now st key) as Hi.
    set (c := current_count fget now st key) in *.
    assert (Hst : snd (checkRateLimit fget None now st key limit window)
                  = <[key := {| redis.value := strconv.Itoa (c + 1);
                                redis.deadline := Some (now + window) |}]> st).
    { rewrite checkRateLimit_eq. fold c. destruct (Z.leb_spec limit c); [lia|].
      unfold Go.incr. rewrite wrap_id by (unfold Go.in_int in *; lia).
      unfold redis.Set_. destruct (Z.ltb_spec 0 window); [reflexivity | lia]. }
    rewrite Hst.
    assert (Hc' : current_count None now
                    (<[key := {| redis.value := strconv.Itoa (c + 1);
                                 redis.deadline := Some (now + window) |}]> st) key
                  = c + 1).
    { apply (current_count_stored now _ key (c + 1) (now + window));
        [apply lookup_insert_eq | unfold Go.in_int in *; lia | lia]. }
    rewrite Hrem by (rewrite Hc'; lia). rewrite Hc'. lia.
Qed.

Lemma remaining_agrees_with_limiter_witness :
  let key := "rate_limit:otp:+1234567890"%string in
  let st : gmap string redis.Entry :=
    {[ key := {| redis.value := "1"; redis.deadline := Some 110 |} ]} in
  getRemainingRequests None 100 st key 3 = Z.max 0 (3 - current_count None 100 st key)
  /\ (getRemainingRequests None 100 st key 3 = 0
      <-> fst (checkRateLimit None None 100 st key 3 600) <> None)
  /\ (current_count None 100 st key < 3 ->
      getRemainingRequests None 100
        (snd (checkRateLimit None None 100 st key 3 600)) key 3
      = getRemainingRequests None 100 st key 3 - 1).
Proof.
  intros key st.
  apply (remaining_agrees_with_limiter None None 100 st key 3 600).
  - unfold Go.max_int. lia.
  - lia.
  - vm_compute. discriminate.
Defined.

End RateLimiterMore.

(** ** Rate limiter: the four handlers *)

Section Handlers.

Import middleware.

(** The limiter reads the store through its key only. *)
Lemma current_count_same_key (fget : Go.error) (now : Go.Time)
    (st1 st2 : gmap string redis.Entry) (key : string) :
  st1 !! key = st2 !! key ->
  current_count fget now st1 key = current_count fget now st2 key.
Proof.
  intros H. unfold current_count, redis.Get, redis.fetch. rewrite H. reflexivity.
Qed.

Lemma checkRateLimit_same_key (fget fset : Go.error) (now : Go.Time)
    (st1 st2 : gmap string redis.Entry) (key : string) (limit : Z) (window : Go.Duration) :
  st1 !! key = st2 !! key ->
  fst (checkRateLimit fget fset now st1 key limit window)
  = fst (checkRateLimit fget fset now st2 key limit window).
Proof.
  intros H. rewrite !checkRateLimit_eq, (current_count_same_key fget now st1 st2 key H).
  destruct (limit <=? current_count fget now st2 key); reflexivity.
Qed.

(** The limiter writes its key only. *)
Lemma checkRateLimit_other_key (fget fset : Go.error) (now : Go.Time)
    (st : gmap string redis.Entry) (key k : string) (limit : Z) (window : Go.Duration) :
  k <> key ->
  snd (checkRateLimit fget fset now st key limit window) !! k = st !! k.
Proof.
  intros Hk. rewrite checkRateLimit_eq.
  destruct (limit <=? current_count fget now st key); [reflexivity|].
  unfold redis.Set_. destruct fset; simpl; [reflexivity|].
  apply lookup_insert_ne. congruence.
Qed.

Lemma limited_same_key (fget fset : Go.error) (now : Go.Time)
    (st1 st2 : gmap string redis.Entry) (key : string) (c : RateLimitConfig) :
  st1 !! key = st2 !! key ->
  fst (limited fget fset now st1 key c) = fst (limited fget fset now st2 key c).
Proof.
  intros H. unfold limited.
  pose proof (checkRateLimit_same_key fget fset now st1 st2 key (Requests c) (Duration c) H)
    as Hc.
  destruct (checkRateLimit fget fset now st1 key (Requests c) (Duration c)) as [r1 s1].
  destruct (checkRateLimit fget fset now st2 key (Requests c) (Duration c)) as [r2 s2].
  simpl in Hc. subst r2. destruct r1; reflexivity.
Qed.

Lemma limited_other_key (fget fset : Go.error) (now : Go.Time)
    (st : gmap string redis.Entry) (key k : string) (c : RateLimitConfig) :
  k <> key ->
  snd (limited fget fset now st key c) !! k = st !! k.
Proof.
  intros Hk. unfold limited.
  pose proof (checkRateLimit_other_key fget fset now st key k (Requests c) (Duration c) Hk)
    as Hc.
  destruct (checkRateLimit fget fset now st key (Requests c) (Duration c)) as [r1 s1].
  destruct r1; exact Hc.
Qed.

(** What a handler does, by the key it counts under. *)
Lemma handler_cases (s : Scope) (config : option RateLimitingConfig) (fget fset : Go.error)
    (now : Go.Time) (st : gmap string redis.Entry) (req : Request) :
  match key_of s req, config with
  | None, _ => handler s config fget fset now st req = (Status400, st)
  | Some _, None => handler s config fget fset now st req = (Next, st)
  | Some key, Some cfg =>
      handler s config fget fset now st req
      = if Requests (config_of s cfg) =? 0 then (Next, st)
        else limited fget fset now st key (config_of s cfg)
  end.
Proof.
  destruct s; simpl;
    unfold GlobalRateLimit, AuthRateLimit, OTPRateLimit, UserRateLimit;
    try (destruct config; reflexivity).
  destruct (PhoneNumber req); simpl; [|reflexivity].
  destruct config; reflexivity.
Qed.

(** Handlers of different scopes, or of one scope for different
    identifiers, count under different keys. *)
Lemma key_of_inj (s1 s2 : Scope) (req1 req2 : Request) (k : string) :
  key_of s1 req1 = Some k -> key_of s2 req2 = Some k ->
  s1 = s2 /\ identifier s1 req1 = identifier s2 req2.
Proof.
  intros H1 H2.
  destruct s1, s2; simpl in *;
    try (destruct (PhoneNumber req1) as [p1|]; simpl in H1; [|discriminate H1]);
    try (destruct (PhoneNumber req2) as [p2|]; simpl in H2; [|discriminate H2]);
    injection H1 as <-; injection H2 as H2;
    try discriminate H2;
    (split; [reflexivity|]); f_equal; symmetry; exact H2.
Qed.

Lemma handler_same_key (s : Scope) (config : option RateLimitingConfig)
    (fget fset : Go.error) (now : Go.Time) (st1 st2 : gmap string redis.Entry)
    (req : Request) :
  (forall k, key_of s req = Some k -> st1 !! k = st2 !! k) ->
  fst (handler s config fget fset now st1 req)
  = fst (handler s config fget fset now st2 req).
Proof.
  intros H.
  pose proof (handler_cases s config fget fset now st1 req) as H1.
  pose proof (handler_cases s config fget fset now st2 req) as H2.
  destruct (key_of s req) as [key|]; [|rewrite H1, H2; reflexivity].
  destruct config as [cfg|]; [|rewrite H1, H2; reflexivity].
  rewrite H1, H2. destruct (Requests (config_of s cfg) =? 0); [reflexivity|].
  apply limited_same_key. apply H. reflexivity.
Qed.

Lemma handler_other_key (s : Scope) (config : option RateLimitingConfig)
    (fget fset : Go.error) (now : Go.Time) (st : gmap string redis.Entry)
    (req : Request) (k : string) :
  key_of s req <> Some k ->
  snd (handler s config fget fset now st req) !! k = st !! k.
Proof.
  intros H.
  pose proof (handler_cases s config fget fset now st req) as H1.
  destruct (key_of s req) as [key|]; [|rewrite H1; reflexivity].
  destruct config as [cfg|]; [|rewrite H1; reflexivity].
  rewrite H1. destruct (Requests (config_of s cfg) =? 0); [reflexivity|].
  apply limited_other_key. congruence.
Qed.

(** X25.  The scopes and the identifiers are counted apart.  A request
    through one handler does not change what a request through
    another handler, or through the same handler for another client
    address (phone number, for the OTP handler), is answered, now or
    later, whatever the configuration and the state of the store. *)
Theorem scopes_are_separate (s1 s2 : Scope) (req1 req2 : Request) :
  (s1, identifier s1 req1) <> (s2, identifier s2 req2) ->
  forall (config : option RateLimitingConfig) (fget fset fget' fset' : Go.error)
         (now now' : Go.Time) (st : gmap string redis.Entry),
    fst (handler s2 config fget' fset' now'
           (snd (handler s1 config fget fset now st req1)) req2)
    = fst (handler s2 config fget' fset' now' st req2).
Proof.
  intros Hne config fget fset fget' fset' now now' st.
  apply handler_same_key. intros k Hk. apply handler_other_key.
  intros Hk1. destruct (key_of_inj s1 s2 req1 req2 k Hk1 Hk) as [Hs Hi].
  apply Hne. congruence.
Qed.

Lemma scopes_are_separate_witness :
  let config := Some {| Global := {| Requests := 100; Duration := 60 |};
                        Auth := {| Requests := 1; Duration := 60 |};
                        OTP := {| Requests := 1; Duration := 60 |};
                        User := {| Requests := 50; Duration := 60 |} |} in
  let req := {| IP := "10.0.0.1"; PhoneNumber := Some "10.0.0.1"%string |} in
  fst (handler ScopeOTP config None None 20
         (snd (handler ScopeAuth config None None 10 ∅ req)) req)
  = fst (handler ScopeOTP config None None 20 ∅ req).
Proof.
  intros config req.
  apply (scopes_are_separate ScopeAuth ScopeOTP req req).
  discriminate.
Defined.

(** X26.  The limit of a scope at its edges.  Without a configuration,
    or with a limit of 0, the handler lets every request through and
    does not touch the store, whatever count the store holds.  With a
    negative limit and a count that is not negative, the handler
    answers every request with status 429 and does not touch the
    store. *)
Theorem limit_zero_and_below (s : Scope) (fget fset : Go.error) (now : Go.Time)
    (st : gmap string redis.Entry) (req : Request) (key : string) :
  key_of s req = Some key ->
  handler s None fget fset now st req = (Next, st)
  /\ (forall cfg, Requests (config_of s cfg) = 0 ->
        handler s (Some cfg) fget fset now st req = (Next, st))
  /\ (forall cfg, Requests (config_of s cfg) < 0 ->
        0 <= current_count fget now st key ->
        handler s (Some cfg) fget fset now st req
        = (Status429 (TooManyRequests (Requests (config_of s cfg))
                        (Duration (config_of s cfg))), st)).
Proof.
  intros Hk. split; [|split].
  - pose proof (handler_cases s None fget fset now st req) as H.
    rewrite Hk in H. exact H.
  - intros cfg H0.
    pose proof (handler_cases s (Some cfg) fget fset now st req) as H.
    rewrite Hk, H0 in H. exact H.
  - intros cfg Hneg Hc.
    pose proof (handler_cases s (Some cfg) fget fset now st req) as H.
    rewrite Hk in H. rewrite H.
    destruct (Z.eqb_spec (Requests (config_of s cfg)) 0) as [H0|_]; [lia|].
    unfold limited. rewrite denied_request_keeps_store by lia. reflexivity.
Qed.

Lemma limit_zero_and_below_witness :
  let req := {| IP := "10.0.0.1"; PhoneNumber := None |} in
  let key := "rate_limit:global:10.0.0.1"%string in
  let st : gmap string redis.Entry :=
    {[ key := {| redis.value := "7"; redis.deadline := Some 110 |} ]} in
  handler ScopeGlobal None None None 100 st req = (Next, st)
  /\ (forall cfg, Requests (config_of ScopeGlobal cfg) = 0 ->
        handler ScopeGlobal (Some cfg) None None 100 st req = (Next, st))
  /\ (forall cfg, Requests (config_of ScopeGlobal cfg) < 0 ->
        0 <= current_count None 100 st key ->
        handler ScopeGlobal (Some cfg) None None 100 st req
        = (Status429 (TooManyRequests (Requests (config_of ScopeGlobal cfg))
                        (Duration (config_of ScopeGlobal cfg))), st)).
Proof.
  intros req key st.
  apply (limit_zero_and_below ScopeGlobal None None 100 st req key).
  reflexivity.
Defined.

End Handlers.

(** ** Application errors: what the predicates recognise *)

Section Errors.

Import errors.

Lemma string_app_nil_r (s : string) : (s ++ "")%string = s.
Proof.
  induction s as [|x s IH]; [reflexivity|].
  exact (f_equal (String x) IH).
Qed.

Lemma string_app_not_self (p s : string) : s <> EmptyString -> (p ++ s)%string <> p.
Proof.
  intros Hs H. apply Hs. apply (string_app_inv_head p).
  rewrite string_app_nil_r. exact H.
Qed.

Lemma string_snoc_not_empty (a b : string) : b <> EmptyString -> (a ++ b)%string <> EmptyString.
Proof.
  intros Hb. destruct a as [|x a]; [exact Hb|].
  change (String x (a ++ b) <> EmptyString). discriminate.
Qed.

Lemma details_text_differs (prefix details : string) :
  (prefix ++ " (" ++ details ++ ")")%string <> prefix.
Proof.
  apply string_app_not_self.
  change (String " " ("(" ++ details ++ ")") <> EmptyString). discriminate.
Qed.

(** The text of a sentinel to which details were added. *)
Lemma Error_with_details (Code Message details : string) (Err : option error) :
  details <> EmptyString ->
  Error (App Code Message details Err)
  = (Code ++ ": " ++ Message ++ " (" ++ details ++ ")")%string.
Proof.
  intros H. unfold Error. destruct (decide (details <> EmptyString)); [reflexivity|].
  contradiction.
Qed.

(** X27.  The predicates recognise the bare sentinels only.  An error
    made by [NewNotFound], [NewAlreadyExists] or
    [NewConstraintViolation], or by [NewDatabaseError] with an
    operation named, is not recognised by the predicate of its own
    kind, because its text carries the details; the bare sentinel is,
    and so is any error with the same text.  So [WrapError] does not
    pass such a not-found error through: it wraps it as a database
    error. *)
Theorem predicates_miss_constructed_errors (resource constraint details context : string)
    (err : option error) :
  IsNotFound (Some (NewNotFound resource)) = false
  /\ IsAlreadyExists (Some (NewAlreadyExists resource)) = false
  /\ IsConstraintViolation (Some (NewConstraintViolation constraint details)) = false
  /\ (context <> EmptyString -> IsDatabaseError (Some (NewDatabaseError context err)) = false)
  /\ IsNotFound (Some ErrNotFound) = true
  /\ IsNotFound (Some (Text "NOT_FOUND: Resource not found")) = true
  /\ WrapError (Some (NewNotFound resource)) context
     = Some (NewDatabaseError context (Some (NewNotFound resource))).
Proof.
  assert (HNF : Error (NewNotFound resource) <> Error ErrNotFound).
  { unfold NewNotFound, ErrNotFound, WithDetails.
    rewrite Error_with_details by (apply string_snoc_not_empty; discriminate).
    exact (details_text_differs "NOT_FOUND: Resource not found" (resource ++ " not found")). }
  assert (Htext : Error (NewNotFound resource)
                  = String "N" ("OT_FOUND: Resource not found ("
                                  ++ (resource ++ " not found") ++ ")")).
  { unfold NewNotFound, ErrNotFound, WithDetails.
    rewrite Error_with_details by (apply string_snoc_not_empty; discriminate).
    reflexivity. }
  split; [|split; [|split; [|split; [|split; [|split]]]]].
  - unfold IsNotFound, is_sentinel. apply bool_decide_eq_false_2. exact HNF.
  - unfold IsAlreadyExists, is_sentinel, NewAlreadyExists, ErrAlreadyExists, WithDetails.
    apply bool_decide_eq_false_2.
    rewrite Error_with_details by (apply string_snoc_not_empty; discriminate).
    exact (details_text_differs "ALREADY_EXISTS: Resource already exists"
             (resource ++ " already exists")).
  - unfold IsConstraintViolation, is_sentinel, NewConstraintViolation,
      ErrConstraintViolation, WithDetails.
    apply bool_decide_eq_false_2.
    rewrite Error_with_details by discriminate.
    exact (details_text_differs "CONSTRAINT_VIOLATION: Database constraint violated"
             ("Constraint '" ++ constraint ++ "' violated: " ++ details)).
  - intros Hc. unfold IsDatabaseError, is_sentinel, NewDatabaseError, ErrDatabaseError,
      WithDetails, WithError.
    apply bool_decide_eq_false_2.
    rewrite Error_with_details by exact Hc.
    exact (details_text_differs "DATABASE_ERROR: Database operation failed" context).
  - reflexivity.
  - reflexivity.
  - unfold WrapError.
    rewrite (bool_decide_eq_false_2 _ HNF).
    rewrite (bool_decide_eq_false_2 (Error (NewNotFound resource) = Error ErrAlreadyExists))
      by (rewrite Htext; discriminate).
    rewrite (bool_decide_eq_false_2 (Error (NewNotFound resource) = Error ErrInvalidInput))
      by (rewrite Htext; discriminate).
    rewrite (bool_decide_eq_false_2 (Error (NewNotFound resource) = Error ErrDatabaseError))
      by (rewrite Htext; discriminate).
    rewrite (bool_decide_eq_false_2
               (Error (NewNotFound resource) = Error ErrConstraintViolation))
      by (rewrite Htext; discriminate).
    reflexivity.
Qed.

End Errors.

(** ** Shutdown manager: the order in which the handlers are started *)

Section Shutdown.

Import shutdown.

Lemma insert_Permutation (l : list ShutdownHandler) : forall (j : nat) (b x : ShutdownHandler),
  l !! j = Some b -> b :: <[j := x]> l ≡ₚ x :: l.
Proof.
  induction l as [|h l IH]; intros j b x Hj; [discriminate Hj|].
  destruct j as [|j]; simpl in *.
  - injection Hj as ->. apply Permutation_swap.
  - rewrite (Permutation_swap h b), (IH j b x Hj). apply Permutation_swap.
Qed.

Lemma swap_Permutation (l : list ShutdownHandler) : forall (i j : nat) (a b : ShutdownHandler),
  (i < j)%nat -> l !! i = Some a -> l !! j = Some b ->
  <[j := a]> (<[i := b]> l) ≡ₚ l.
Proof.
  induction l as [|h l IH]; intros i j a b Hij Hi Hj; [discriminate Hi|].
  destruct j as [|j]; [lia|]. destruct i as [|i]; simpl in *.
  - injection Hi as ->. apply insert_Permutation. exact Hj.
  - f_equiv. apply (IH i j a b); [lia | exact Hi | exact Hj].
Qed.

Lemma exchange_length (i j : nat) (l : list ShutdownHandler) :
  length (exchange i j l) = length l.
Proof.
  unfold exchange. destruct (l !! i) as [hi|]; [|reflexivity].
  destruct (l !! j) as [hj|]; [|reflexivity].
  destruct (Priority hj <? Priority hi); [|reflexivity].
  rewrite !length_insert. reflexivity.
Qed.

Lemma exchange_Permutation (i j : nat) (l : list ShutdownHandler) :
  (i < j)%nat -> exchange i j l ≡ₚ l.
Proof.
  intros Hij. unfold exchange. destruct (l !! i) as [hi|] eqn:Hi; [|reflexivity].
  destruct (l !! j) as [hj|] eqn:Hj; [|reflexivity].
  destruct (Priority hj <? Priority hi); [|reflexivity].
  exact (swap_Permutation l i j hi hj Hij Hi Hj).
Qed.

(** One round of the inner loop. *)
Lemma exchange_step (i j : nat) (l : list ShutdownHandler) :
  (i < j)%nat -> (j < length l)%nat ->
  settled i l -> least_upto i j l ->
  settled i (exchange i j l) /\ least_upto i (S j) (exchange i j l).
Proof.
  intros Hij Hj HP HQ. unfold exchange.
  destruct (lookup_lt_is_Some_2 l i ltac:(lia)) as [hi Hi].
  destruct (lookup_lt_is_Some_2 l j Hj) as [hj Hhj].
  rewrite Hi, Hhj.
  destruct (Z.ltb_spec (Priority hj) (Priority hi)) as [Hlt|Hge].
  - assert (Hlook : forall k,
              <[j := hi]> (<[i := hj]> l) !! k
              = if decide (k = j) then Some hi
                else if decide (k = i) then Some hj else l !! k).
    { intros k. destruct (decide (k = j)) as [->|Hkj].
      - apply list_lookup_insert_eq. rewrite length_insert. exact Hj.
      - rewrite list_lookup_insert_ne by congruence.
        destruct (decide (k = i)) as [->|Hki].
        + apply list_lookup_insert_eq. lia.
        + apply list_lookup_insert_ne. congruence. }
    split.
    + intros a b Ha Hab x y Hx Hy. rewrite Hlook in Hx, Hy.
      destruct (decide (a = j)); [lia|]. destruct (decide (a = i)); [lia|].
      destruct (decide (b = j)) as [->|Hbj].
      * injection Hy as <-. exact (HP a i Ha ltac:(lia) x hi Hx Hi).
      * destruct (decide (b = i)) as [->|Hbi].
        -- injection Hy as <-. exact (HP a j Ha ltac:(lia) x hj Hx Hhj).
        -- exact (HP a b Ha Hab x y Hx Hy).
    + intros b Hb x y Hx Hy. rewrite Hlook in Hx, Hy.
      destruct (decide (i = j)); [lia|]. destruct (decide (i = i)); [|congruence].
      injection Hx as <-.
      destruct (decide (b = j)) as [->|Hbj].
      * injection Hy as <-. lia.
      * destruct (decide (b = i)); [lia|].
        pose proof (HQ b ltac:(lia) hi y Hi Hy). lia.
  - split; [exact HP|].
    intros b Hb x y Hx Hy. destruct (decide (b = j)) as [->|Hbj].
    + rewrite Hi in Hx. rewrite Hhj in Hy. injection Hx as <-. injection Hy as <-. lia.
    + exact (HQ b ltac:(lia) x y Hx Hy).
Qed.

(** The inner loop from [j] on, [k] rounds. *)
Lemma inner_rounds (i : nat) (k : nat) : forall (j : nat) (l : list ShutdownHandler),
  (i < j)%nat -> (j + k <= length l)%nat ->
  settled i l -> least_upto i j l ->
  let l' := foldl (fun hs j => exchange i j hs) l (seq j k) in
  length l' = length l /\ l' ≡ₚ l /\ settled i l' /\ least_upto i (j + k) l'.
Proof.
  induction k as [|k IH]; intros j l Hij Hk HP HQ; simpl.
  - rewrite Nat.add_0_r. repeat split; [reflexivity | exact HP | exact HQ].
  - destruct (exchange_step i j l Hij ltac:(lia) HP HQ) as [HP' HQ'].
    destruct (IH (S j) (exchange i j l) ltac:(lia)
                ltac:(rewrite exchange_length; lia) HP' HQ') as (Hlen & Hperm & HP2 & HQ2).
    split; [rewrite Hlen; apply exchange_length|].
    split; [rewrite Hperm; apply exchange_Permutation; exact Hij|].
    split; [exact HP2|].
    replace (j + S k)%nat with (S j + k)%nat by lia. exact HQ2.
Qed.

Lemma inner_loop_settles (i : nat) (l : list ShutdownHandler) :
  (i < length l)%nat -> settled i l ->
  length (inner_loop i l) = length l /\ inner_loop i l ≡ₚ l /\ settled (S i) (inner_loop i l).
Proof.
  intros Hi HP. unfold inner_loop.
  destruct (inner_rounds i (length l - S i) (S i) l ltac:(lia) ltac:(lia) HP)
    as (Hlen & Hperm & HP' & HQ').
  { intros b Hb. lia. }
  split; [exact Hlen|]. split; [exact Hperm|].
  intros a b Ha Hab x y Hx Hy.
  destruct (decide (a = i)) as [->|Hai].
  - apply (HQ' b); [|exact Hx | exact Hy].
    apply lookup_lt_Some in Hy. rewrite Hlen in Hy. lia.
  - exact (HP' a b ltac:(lia) Hab x y Hx Hy).
Qed.

(** The outer loop from [i] on, [k] rounds. *)
Lemma outer_rounds (k : nat) : forall (i : nat) (l : list ShutdownHandler),
  (k = 0 \/ i + k < length l)%nat -> settled i l ->
  let l' := foldl (fun hs i => inner_loop i hs) l (seq i k) in
  length l' = length l /\ l' ≡ₚ l /\ settled (i + k) l'.
Proof.
  induction k as [|k IH]; intros i l Hk HP; simpl.
  - rewrite Nat.add_0_r. repeat split; [reflexivity | exact HP].
  - destruct (inner_loop_settles i l ltac:(lia) HP) as (Hlen & Hperm & HP').
    destruct (IH (S i) (inner_loop i l) ltac:(rewrite Hlen; lia) HP')
      as (Hlen2 & Hperm2 & HP2).
    split; [rewrite Hlen2; exact Hlen|].
    split; [rewrite Hperm2; exact Hperm|].
    replace (i + S k)%nat with (S i + k)%nat by lia. exact HP2.
Qed.

(** X28.  [Shutdown] starts the goroutines of the handlers in the
    order of their priorities: the order is a rearrangement of the
    registered handlers, each once, and a handler never comes before
    one of lower priority number. *)
Theorem handlers_start_in_priority_order (handlers : list ShutdownHandler) :
  start_order handlers ≡ₚ handlers
  /\ forall (a b : nat) (x y : ShutdownHandler),
       (a < b)%nat ->
       start_order handlers !! a = Some x -> start_order handlers !! b = Some y ->
       Priority x <= Priority y.
Proof.
  unfold start_order.
  destruct (outer_rounds (length handlers - 1) 0 handlers) as (Hlen & Hperm & HP).
  { lia. }
  { intros a b Ha. lia. }
  split; [exact Hperm|].
  intros a b x y Hab Hx Hy. apply (HP a b); [|exact Hab | exact Hx | exact Hy].
  apply lookup_lt_Some in Hy. rewrite Hlen in Hy. lia.
Qed.

End Shutdown.

(** ** The send-otp endpoint: two checks of the phone number *)

Section SendOTPEndpoint.

Import services.






End SendOTPEndpoint.
